(** * The IPC bridge of the VS Code API MCP extension

    A shallow embedding of [src/bridge/ipc.ts] ([IPCServer], [IPCClient]),
    of the request handler and the server life cycle of [src/extension.ts],
    and of the pieces of the JavaScript runtime they call
    ([String.prototype.split], [trim], [Array.prototype.pop],
    [Buffer.prototype.toString], [JSON.stringify], [JSON.parse]).

    JavaScript strings are sequences of UTF-16 code units, buffers are
    sequences of bytes; both are lists of integers here.  Asynchronous code
    is modelled by explicit state passing: every callback of the event loop
    is a function from the state before it runs to the state after it has
    run up to its next suspension point. *)

From Stdlib Require Import List ZArith NArith Lia Bool String Ascii.
From Stdlib Require DecimalN DecimalFacts.
Import ListNotations.
Local Open Scope N_scope.

(** ** JavaScript strings and arrays *)

Module JS.

(** A string is its sequence of UTF-16 code units. *)
Definition jsstring := list N.

(** ASCII literals. *)
Definition lit (s : string) : jsstring :=
  map (fun a => N_of_ascii a) (list_ascii_of_string s).

Definition NL : N := 10.

Fixpoint str_eqb (s t : jsstring) : bool :=
  match s, t with
  | [], [] => true
  | c :: s', d :: t' => (c =? d) && str_eqb s' t'
  | _, _ => false
  end.

Definition is_empty {A} (l : list A) : bool :=
  match l with [] => true | _ => false end.

(** [s.split('\n')]: the first segment and the segments after it.  The
    result of [split] is never the empty array. *)
Fixpoint split_first (s : jsstring) : jsstring * list jsstring :=
  match s with
  | [] => ([], [])
  | c :: s' =>
      let (seg, segs) := split_first s' in
      if c =? NL then ([], seg :: segs) else (c :: seg, segs)
  end.

Definition split_nl (s : jsstring) : list jsstring :=
  let (seg, segs) := split_first s in seg :: segs.

(** [a.join('\n')] *)
Fixpoint join_nl (segs : list jsstring) : jsstring :=
  match segs with
  | [] => []
  | [seg] => seg
  | seg :: segs' => seg ++ NL :: join_nl segs'
  end.

(** [a.pop()]: the removed last element ([None] is [undefined]) and the
    array that is left. *)
Definition pop {A} (a : list A) : option A * list A :=
  match rev a with
  | [] => (None, [])
  | x :: r => (Some x, rev r)
  end.

(** [x || ''] for [x] a string or [undefined]. *)
Definition or_empty (x : option jsstring) : jsstring :=
  match x with
  | Some (c :: s) => c :: s
  | _ => []
  end.

(** WhiteSpace and LineTerminator code units, as [trim] strips them. *)
Definition is_whitespace (c : N) : bool :=
  (c =? 9) || (c =? 10) || (c =? 11) || (c =? 12) || (c =? 13) ||
  (c =? 32) || (c =? 160) || (c =? 5760) ||
  ((8192 <=? c) && (c <=? 8202)) ||
  (c =? 8232) || (c =? 8233) || (c =? 8239) || (c =? 8287) ||
  (c =? 12288) || (c =? 65279).

Fixpoint trimStart (s : jsstring) : jsstring :=
  match s with
  | c :: s' => if is_whitespace c then trimStart s' else s
  | [] => []
  end.

Definition trimEnd (s : jsstring) : jsstring := rev (trimStart (rev s)).

Definition trim (s : jsstring) : jsstring := trimEnd (trimStart s).

(** [!line.trim()] *)
Definition blank (line : jsstring) : bool := is_empty (trim line).

End JS.

Import JS.

(** ** UTF-8: [Buffer.prototype.toString] and the encoding of [socket.write] *)

Module Utf8.

Definition bytes := list N.

Definition REPLACEMENT : N := 65533.

(** State of the decoder between two bytes of a multi-byte sequence. *)
Record decoder := {
  code_point : N;
  needed : N;
  lower : N;
  upper : N
}.

Definition idle : decoder :=
  {| code_point := 0; needed := 0; lower := 128; upper := 191 |}.

(** A byte met when no sequence is open. *)
Definition lead (b : N) : decoder * list N :=
  if b <=? 127 then (idle, [b])
  else if (194 <=? b) && (b <=? 223) then
    ({| code_point := N.land b 31; needed := 1; lower := 128; upper := 191 |}, [])
  else if (224 <=? b) && (b <=? 239) then
    ({| code_point := N.land b 15; needed := 2;
        lower := if b =? 224 then 160 else 128;
        upper := if b =? 237 then 159 else 191 |}, [])
  else if (240 <=? b) && (b <=? 244) then
    ({| code_point := N.land b 7; needed := 3;
        lower := if b =? 240 then 144 else 128;
        upper := if b =? 244 then 143 else 191 |}, [])
  else (idle, [REPLACEMENT]).

(** One byte: the next state and the code points it completes.  A byte that
    cannot continue the open sequence ends it with U+FFFD and is then read
    again as the start of a new sequence. *)
Definition decode_byte (d : decoder) (b : N) : decoder * list N :=
  if needed d =? 0 then lead b
  else if (lower d <=? b) && (b <=? upper d) then
    let cp := N.lor (N.shiftl (code_point d) 6) (N.land b 63) in
    if needed d =? 1 then (idle, [cp])
    else ({| code_point := cp; needed := needed d - 1;
             lower := 128; upper := 191 |}, [])
  else let (d', out) := lead b in (d', REPLACEMENT :: out).

Fixpoint decode_from (d : decoder) (bs : bytes) : list N :=
  match bs with
  | [] => if needed d =? 0 then [] else [REPLACEMENT]
  | b :: bs' => let (d', out) := decode_byte d b in out ++ decode_from d' bs'
  end.

(** The UTF-16 code units of a code point. *)
Definition units_of (cp : N) : jsstring :=
  if cp <? 65536 then [cp]
  else [55296 + N.shiftr (cp - 65536) 10; 56320 + N.land (cp - 65536) 1023].

(** [data.toString()]: the whole buffer is decoded on its own; a sequence
    cut by the end of the buffer becomes U+FFFD. *)
Definition toString (data : bytes) : jsstring :=
  flat_map units_of (decode_from idle data).

Definition is_high (c : N) : bool := (55296 <=? c) && (c <=? 56319).
Definition is_low (c : N) : bool := (56320 <=? c) && (c <=? 57343).

Definition encode_point (cp : N) : bytes :=
  if cp <? 128 then [cp]
  else if cp <? 2048 then
    [N.lor 192 (N.shiftr cp 6); N.lor 128 (N.land cp 63)]
  else if cp <? 65536 then
    [N.lor 224 (N.shiftr cp 12); N.lor 128 (N.land (N.shiftr cp 6) 63);
     N.lor 128 (N.land cp 63)]
  else
    [N.lor 240 (N.shiftr cp 18); N.lor 128 (N.land (N.shiftr cp 12) 63);
     N.lor 128 (N.land (N.shiftr cp 6) 63); N.lor 128 (N.land cp 63)].

(** The bytes [socket.write(s)] puts on the wire: a surrogate pair is one
    code point, a lone surrogate is written as U+FFFD. *)
Fixpoint encode (s : jsstring) : bytes :=
  match s with
  | [] => []
  | c :: s' =>
      if is_high c then
        match s' with
        | d :: s'' =>
            if is_low d then
              encode_point (65536 + N.shiftl (c - 55296) 10 + (d - 56320))
                ++ encode s''
            else encode_point REPLACEMENT ++ encode s'
        | [] => encode_point REPLACEMENT
        end
      else if is_low c then encode_point REPLACEMENT ++ encode s'
      else encode_point c ++ encode s'
  end.

End Utf8.

(** ** JavaScript values, [JSON.stringify] and [JSON.parse] *)

Module JSON.

(** The values that cross the bridge.  [BigInt] stands for the values
    [JSON.stringify] refuses.  Numbers are exact decimals: [Num n] is the
    integer [n], and [Dec m e] is [m / 10^e] for a number that is not an
    integer.  The rounding of a number to binary64 is not modelled. *)
#[warnings="-register-all"]
Inductive value : Type :=
| Undefined
| Null
| Bool (b : bool)
| Num (n : Z)
| BigInt (n : Z)
| Str (s : jsstring)
| Arr (items : list value)
| Obj (props : list (jsstring * value))
| Dec (m : Z) (e : N).

(** *** Property access and object construction *)

Fixpoint lookup (k : jsstring) (props : list (jsstring * value)) : option value :=
  match props with
  | [] => None
  | (k', v) :: props' => if str_eqb k k' then Some v else lookup k props'
  end.

(** [v.k] for the property names the bridge reads ([id], [method],
    [params], [result], [error], [message]): none of them is [length] or an
    index, so strings and arrays answer [undefined].  [None] is the
    TypeError of reading a property of [null] or [undefined]. *)
Definition get_prop (v : value) (k : jsstring) : option value :=
  match v with
  | Undefined | Null => None
  | Obj props =>
      match lookup k props with
      | Some x => Some x
      | None => Some Undefined
      end
  | _ => Some Undefined
  end.

(** [v.k] for a [v] that the code has already read a property of: it is
    neither [null] nor [undefined]. *)
Definition field (v : value) (k : jsstring) : value :=
  match get_prop v k with
  | Some x => x
  | None => Undefined
  end.

(** ToBoolean *)
Definition truthy (v : value) : bool :=
  match v with
  | Undefined | Null => false
  | Bool b => b
  | Num n => negb (n =? 0)%Z
  | BigInt n => negb (n =? 0)%Z
  | Str s => negb (is_empty s)
  | Arr _ | Obj _ => true
  | Dec m _ => negb (m =? 0)%Z
  end.

Definition digit_of (c : N) : option (Decimal.uint -> Decimal.uint) :=
  if c =? 48 then Some Decimal.D0 else if c =? 49 then Some Decimal.D1
  else if c =? 50 then Some Decimal.D2 else if c =? 51 then Some Decimal.D3
  else if c =? 52 then Some Decimal.D4 else if c =? 53 then Some Decimal.D5
  else if c =? 54 then Some Decimal.D6 else if c =? 55 then Some Decimal.D7
  else if c =? 56 then Some Decimal.D8 else if c =? 57 then Some Decimal.D9
  else None.

(** The longest prefix of decimal digits, and what follows it. *)
Fixpoint read_digits (s : jsstring) : Decimal.uint * jsstring :=
  match s with
  | [] => (Decimal.Nil, [])
  | c :: s' =>
      match digit_of c with
      | Some D => let (d, rest) := read_digits s' in (D d, rest)
      | None => (Decimal.Nil, s)
      end
  end.

(** No leading zero, and at least one digit. *)
Definition plain_int (d : Decimal.uint) : bool :=
  match d with
  | Decimal.Nil => false
  | Decimal.D0 Decimal.Nil => true
  | Decimal.D0 _ => false
  | _ => true
  end.

(** A property key that is an array index: the canonical decimal text of an
    integer below 2^32 - 1. *)
Definition array_index (k : jsstring) : option N :=
  let (d, rest) := read_digits k in
  if is_empty rest && plain_int d && (N.of_uint d <=? 4294967294)
  then Some (N.of_uint d) else None.

Definition has_key (k : jsstring) (props : list (jsstring * value)) : bool :=
  match lookup k props with Some _ => true | None => false end.

Fixpoint replace (k : jsstring) (v : value) (props : list (jsstring * value))
  : list (jsstring * value) :=
  match props with
  | [] => []
  | (k', v') :: props' =>
      if str_eqb k k' then (k', v) :: props' else (k', v') :: replace k v props'
  end.

Fixpoint insert_index (i : N) (k : jsstring) (v : value)
  (props : list (jsstring * value)) : list (jsstring * value) :=
  match props with
  | [] => [(k, v)]
  | (k', v') :: props' =>
      match array_index k' with
      | Some j =>
          if i <? j then (k, v) :: props
          else (k', v') :: insert_index i k v props'
      | None => (k, v) :: props
      end
  end.

(** CreateDataProperty on an ordinary object: an existing property keeps
    its place; a new array index goes among the indices, in ascending
    order; any other new key goes last. *)
Definition obj_set (props : list (jsstring * value)) (k : jsstring) (v : value)
  : list (jsstring * value) :=
  if has_key k props then replace k v props
  else match array_index k with
       | Some i => insert_index i k v props
       | None => props ++ [(k, v)]
       end.

Definition build (members : list (jsstring * value)) : list (jsstring * value) :=
  fold_left (fun props kv => obj_set props (fst kv) (snd kv)) members [].

(** *** Number and string texts *)

Fixpoint uint_text (d : Decimal.uint) : jsstring :=
  match d with
  | Decimal.Nil => []
  | Decimal.D0 d => 48 :: uint_text d
  | Decimal.D1 d => 49 :: uint_text d
  | Decimal.D2 d => 50 :: uint_text d
  | Decimal.D3 d => 51 :: uint_text d
  | Decimal.D4 d => 52 :: uint_text d
  | Decimal.D5 d => 53 :: uint_text d
  | Decimal.D6 d => 54 :: uint_text d
  | Decimal.D7 d => 55 :: uint_text d
  | Decimal.D8 d => 56 :: uint_text d
  | Decimal.D9 d => 57 :: uint_text d
  end.

Definition N_text (n : N) : jsstring := uint_text (N.to_uint n).

(** The decimal digits of an integer, after its sign. *)
Definition integer_text (n : Z) : jsstring :=
  match n with
  | Z0 => N_text 0
  | Zpos p => N_text (Npos p)
  | Zneg p => 45 :: N_text (Npos p)
  end.

Fixpoint drop_zeros (s : jsstring) : jsstring :=
  match s with
  | c :: s' => if c =? 48 then drop_zeros s' else s
  | [] => []
  end.

(** The digits of a number without the zeros at their end; one digit at
    least. *)
Definition significant (digits : jsstring) : jsstring :=
  match rev (drop_zeros (rev digits)) with
  | [] => [48]
  | s => s
  end.

(** Number::toString for the positive number whose significant digits are
    [s] and that has [n] digits before the decimal point. *)
Definition positional (s : jsstring) (n : Z) : jsstring :=
  let k := Z.of_nat (List.length s) in
  if (k <=? n)%Z && (n <=? 21)%Z then s ++ repeat 48 (Z.to_nat (n - k))
  else if (0 <? n)%Z && (n <=? 21)%Z then
    firstn (Z.to_nat n) s ++ 46 :: skipn (Z.to_nat n) s
  else if (-6 <? n)%Z && (n <=? 0)%Z then
    48 :: 46 :: repeat 48 (Z.to_nat (- n)) ++ s
  else
    let exponent :=
      101 :: (if (0 <? n - 1)%Z then 43 else 45) :: N_text (Z.abs_N (n - 1)) in
    match s with
    | c :: (_ :: _) as s' => c :: 46 :: s' ++ exponent
    | _ => s ++ exponent
    end.

Definition signed (negative : bool) (t : jsstring) : jsstring :=
  if negative then 45 :: t else t.

(** Number::toString on integers: the digits below 10^21, the scientific
    notation from there on. *)
Definition number_text (n : Z) : jsstring :=
  if (Z.abs n <? 10 ^ 21)%Z then integer_text n
  else
    let digits := N_text (Z.abs_N n) in
    signed (n <? 0)%Z
      (positional (significant digits) (Z.of_nat (List.length digits))).

(** Number::toString on [m / 10^e]. *)
Definition decimal_text (m : Z) (e : N) : jsstring :=
  let digits := N_text (Z.abs_N m) in
  signed (m <? 0)%Z
    (positional (significant digits)
       (Z.of_nat (List.length digits) - Z.of_N e)).

Definition hex_digit (n : N) : N := if n <? 10 then 48 + n else 87 + n.

Definition unicode_escape (c : N) : jsstring :=
  [92; 117;
   hex_digit (N.land (N.shiftr c 12) 15); hex_digit (N.land (N.shiftr c 8) 15);
   hex_digit (N.land (N.shiftr c 4) 15); hex_digit (N.land c 15)].

Definition escape_unit (c : N) : jsstring :=
  if c =? 34 then [92; 34]
  else if c =? 92 then [92; 92]
  else if c =? 8 then [92; 98]
  else if c =? 12 then [92; 102]
  else if c =? 10 then [92; 110]
  else if c =? 13 then [92; 114]
  else if c =? 9 then [92; 116]
  else if c <? 32 then unicode_escape c
  else [c].

(** QuoteJSONString without its quotes: control characters and lone
    surrogates are escaped, a surrogate pair is copied. *)
Fixpoint quote_units (s : jsstring) : jsstring :=
  match s with
  | [] => []
  | c :: s' =>
      if Utf8.is_high c then
        match s' with
        | d :: s'' =>
            if Utf8.is_low d then c :: d :: quote_units s''
            else unicode_escape c ++ quote_units s'
        | [] => unicode_escape c
        end
      else if Utf8.is_low c then unicode_escape c ++ quote_units s'
      else escape_unit c ++ quote_units s'
  end.

Definition quote (s : jsstring) : jsstring := 34 :: quote_units s ++ [34].

Fixpoint join_with (sep : N) (parts : list jsstring) : jsstring :=
  match parts with
  | [] => []
  | [p] => p
  | p :: parts' => p ++ sep :: join_with sep parts'
  end.

(** *** [JSON.stringify] *)

(** SerializeJSONProperty: a text, [undefined], or a TypeError. *)
Inductive serialized : Type :=
| Text (t : jsstring)
| Omitted
| Raised.

Section Composite.
Variable ser : value -> serialized.

(** SerializeJSONArray: [undefined] elements are written as [null]. *)
Fixpoint ser_elements (items : list value) : option (list jsstring) :=
  match items with
  | [] => Some []
  | v :: items' =>
      match ser v with
      | Raised => None
      | Omitted => option_map (cons (lit "null")) (ser_elements items')
      | Text t => option_map (cons t) (ser_elements items')
      end
  end.

(** SerializeJSONObject: properties whose value is [undefined] are left
    out. *)
Fixpoint ser_members (props : list (jsstring * value)) : option (list jsstring) :=
  match props with
  | [] => Some []
  | (k, v) :: props' =>
      match ser v with
      | Raised => None
      | Omitted => ser_members props'
      | Text t => option_map (cons (quote k ++ 58 :: t)) (ser_members props')
      end
  end.

End Composite.

Fixpoint ser (v : value) : serialized :=
  match v with
  | Undefined => Omitted
  | Null => Text (lit "null")
  | Bool b => Text (if b then lit "true" else lit "false")
  | Num n => Text (number_text n)
  | BigInt _ => Raised
  | Str s => Text (quote s)
  | Arr items =>
      match ser_elements ser items with
      | Some parts => Text (91 :: join_with 44 parts ++ [93])
      | None => Raised
      end
  | Obj props =>
      match ser_members ser props with
      | Some parts => Text (123 :: join_with 44 parts ++ [125])
      | None => Raised
      end
  | Dec m e => Text (decimal_text m e)
  end.

Definition stringify (v : value) : serialized := ser v.

(** *** [JSON.parse] *)

Definition is_json_ws (c : N) : bool :=
  (c =? 32) || (c =? 9) || (c =? 10) || (c =? 13).

Fixpoint skip_ws (s : jsstring) : jsstring :=
  match s with
  | c :: s' => if is_json_ws c then skip_ws s' else s
  | [] => []
  end.

Definition hex_value (c : N) : option N :=
  if (48 <=? c) && (c <=? 57) then Some (c - 48)
  else if (97 <=? c) && (c <=? 102) then Some (c - 87)
  else if (65 <=? c) && (c <=? 70) then Some (c - 55)
  else None.

Definition hex4 (a b c d : N) : option N :=
  match hex_value a, hex_value b, hex_value c, hex_value d with
  | Some x, Some y, Some z, Some w => Some (((x * 16 + y) * 16 + z) * 16 + w)
  | _, _, _, _ => None
  end.

Definition unescape (e : N) : option N :=
  if e =? 34 then Some 34
  else if e =? 92 then Some 92
  else if e =? 47 then Some 47
  else if e =? 98 then Some 8
  else if e =? 102 then Some 12
  else if e =? 110 then Some 10
  else if e =? 114 then Some 13
  else if e =? 116 then Some 9
  else None.

(** After an opening quote: the code units of the string and the text that
    follows its closing quote. *)
Fixpoint parse_chars (s : jsstring) : option (jsstring * jsstring) :=
  match s with
  | [] => None
  | c :: r =>
      if c =? 34 then Some ([], r)
      else if c =? 92 then
        match r with
        | [] => None
        | e :: r1 =>
            if e =? 117 then
              match r1 with
              | h1 :: h2 :: h3 :: h4 :: r2 =>
                  match hex4 h1 h2 h3 h4, parse_chars r2 with
                  | Some u, Some (t, rest) => Some (u :: t, rest)
                  | _, _ => None
                  end
              | _ => None
              end
            else
              match unescape e, parse_chars r1 with
              | Some u, Some (t, rest) => Some (u :: t, rest)
              | _, _ => None
              end
        end
      else if c <? 32 then None
      else
        match parse_chars r with
        | Some (t, rest) => Some (c :: t, rest)
        | None => None
        end
  end.

Definition starts_fraction (s : jsstring) : bool :=
  match s with
  | c :: _ => (c =? 46) || (c =? 101) || (c =? 69)
  | [] => false
  end.

(** The optional minus sign of a number. *)
Definition read_sign (s : jsstring) : bool * jsstring :=
  match s with
  | c :: r => if c =? 45 then (true, r) else (false, s)
  | [] => (false, s)
  end.

(** An integer literal: one that does not go on with a fraction or an
    exponent. *)
Definition parse_number (s : jsstring) : option (Z * jsstring) :=
  let (negative, s1) := read_sign s in
  let (d, rest) := read_digits s1 in
  if plain_int d && negb (starts_fraction rest) then
    Some (if negative then (- Z.of_N (N.of_uint d))%Z else Z.of_N (N.of_uint d),
          rest)
  else None.

(** The fraction of a literal, if it has one: a point and one digit at
    least. *)
Definition read_fraction (s : jsstring) : option (Decimal.uint * jsstring) :=
  match s with
  | c :: r =>
      if c =? 46 then
        match read_digits r with
        | (Decimal.Nil, _) => None
        | (f, rest) => Some (f, rest)
        end
      else Some (Decimal.Nil, s)
  | [] => Some (Decimal.Nil, s)
  end.

(** The exponent of a literal, if it has one: e or E, a sign or none, and
    one digit at least. *)
Definition read_exponent (s : jsstring) : option (Z * jsstring) :=
  match s with
  | c :: r =>
      if (c =? 101) || (c =? 69) then
        let (negative, r1) :=
          match r with
          | x :: r' =>
              if x =? 45 then (true, r')
              else if x =? 43 then (false, r') else (false, r)
          | [] => (false, r)
          end in
        match read_digits r1 with
        | (Decimal.Nil, _) => None
        | (d, rest) =>
            Some (if negative then (- Z.of_N (N.of_uint d))%Z
                  else Z.of_N (N.of_uint d), rest)
        end
      else Some (0%Z, s)
  | [] => Some (0%Z, s)
  end.

(** [m / 10^e] with the factors of ten that [m] and [10^e] share removed. *)
Fixpoint reduce (fuel : nat) (m e : N) : N * N :=
  match fuel with
  | O => (m, e)
  | S fuel' =>
      if (e =? 0) || negb (m mod 10 =? 0) then (m, e)
      else reduce fuel' (m / 10) (e - 1)
  end.

(** The number with the digits [d], the fraction digits [f] and the
    exponent [x]. *)
Definition decimal (negative : bool) (d f : Decimal.uint) (x : Z) : value :=
  let m := N.of_uint (Decimal.app d f) in
  let e := (x - Z.of_nat (Decimal.nb_digits f))%Z in
  let sign := fun n : N => if negative then (- Z.of_N n)%Z else Z.of_N n in
  if m =? 0 then Num 0
  else if (0 <=? e)%Z then Num (sign m * 10 ^ e)%Z
  else
    let (m', e') := reduce (Decimal.nb_digits (Decimal.app d f)) m (Z.to_N (- e)) in
    if e' =? 0 then Num (sign m') else Dec (sign m') e'.

(** A literal with a fraction or an exponent. *)
Definition parse_decimal (s : jsstring) : option (value * jsstring) :=
  let (negative, s1) := read_sign s in
  let (d, r1) := read_digits s1 in
  if plain_int d then
    match read_fraction r1 with
    | Some (f, r2) =>
        match read_exponent r2 with
        | Some (x, r3) => Some (decimal negative d f x, r3)
        | None => None
        end
    | None => None
    end
  else None.

Fixpoint strip (prefix s : jsstring) : option jsstring :=
  match prefix, s with
  | [], _ => Some s
  | p :: prefix', c :: s' => if p =? c then strip prefix' s' else None
  | _ :: _, [] => None
  end.

Fixpoint parse_value (fuel : nat) (s : jsstring) {struct fuel}
  : option (value * jsstring) :=
  match fuel with
  | O => None
  | S fuel' =>
      match skip_ws s with
      | [] => None
      | c :: r =>
          if c =? 123 then
            match skip_ws r with
            | [] => None
            | c' :: r' =>
                if c' =? 125 then Some (Obj [], r')
                else
                  match parse_members fuel' r with
                  | Some (members, rest) => Some (Obj (build members), rest)
                  | None => None
                  end
            end
          else if c =? 91 then
            match skip_ws r with
            | [] => None
            | c' :: r' =>
                if c' =? 93 then Some (Arr [], r')
                else
                  match parse_elements fuel' r with
                  | Some (items, rest) => Some (Arr items, rest)
                  | None => None
                  end
            end
          else if c =? 34 then
            match parse_chars r with
            | Some (t, rest) => Some (Str t, rest)
            | None => None
            end
          else if c =? 116 then
            option_map (pair (Bool true)) (strip (lit "rue") r)
          else if c =? 102 then
            option_map (pair (Bool false)) (strip (lit "alse") r)
          else if c =? 110 then
            option_map (pair Null) (strip (lit "ull") r)
          else
            match parse_number (c :: r) with
            | Some (n, rest) => Some (Num n, rest)
            | None => parse_decimal (c :: r)
            end
      end
  end

with parse_elements (fuel : nat) (s : jsstring) {struct fuel}
  : option (list value * jsstring) :=
  match fuel with
  | O => None
  | S fuel' =>
      match parse_value fuel' s with
      | None => None
      | Some (v, r) =>
          match skip_ws r with
          | [] => None
          | c :: r' =>
              if c =? 44 then
                match parse_elements fuel' r' with
                | Some (items, rest) => Some (v :: items, rest)
                | None => None
                end
              else if c =? 93 then Some ([v], r')
              else None
          end
      end
  end

with parse_members (fuel : nat) (s : jsstring) {struct fuel}
  : option (list (jsstring * value) * jsstring) :=
  match fuel with
  | O => None
  | S fuel' =>
      match skip_ws s with
      | [] => None
      | q :: r =>
          if q =? 34 then
            match parse_chars r with
            | None => None
            | Some (k, r1) =>
                match skip_ws r1 with
                | [] => None
                | c1 :: r2 =>
                    if c1 =? 58 then
                      match parse_value fuel' r2 with
                      | None => None
                      | Some (v, r3) =>
                          match skip_ws r3 with
                          | [] => None
                          | c3 :: r4 =>
                              if c3 =? 44 then
                                match parse_members fuel' r4 with
                                | Some (members, rest) =>
                                    Some ((k, v) :: members, rest)
                                | None => None
                                end
                              else if c3 =? 125 then Some ([(k, v)], r4)
                              else None
                          end
                      end
                    else None
                end
            end
          else None
      end
  end.

(** [JSON.parse(text)]; [None] is its SyntaxError. *)
Definition parse (text : jsstring) : option value :=
  match parse_value (S (List.length text)) text with
  | Some (v, rest) => if is_empty (skip_ws rest) then Some v else None
  | None => None
  end.

(** *** ToString, as template literals and [String(x)] apply it *)

Fixpoint ToString (v : value) : jsstring :=
  match v with
  | Undefined => lit "undefined"
  | Null => lit "null"
  | Bool b => if b then lit "true" else lit "false"
  | Num n => number_text n
  | BigInt n => integer_text n
  | Str s => s
  | Arr items =>
      join_with 44
        (map (fun x => match x with
                       | Undefined | Null => []
                       | _ => ToString x
                       end) items)
  | Obj _ => lit "[object Object]"
  | Dec m e => decimal_text m e
  end.

(** *** Values that survive [JSON.parse (JSON.stringify v)] *)

(** [k] comes before a different key [k'] when an object enumerates its
    properties: array indices first and ascending, then the other keys. *)
Definition precedes (k k' : jsstring) : bool :=
  match array_index k, array_index k' with
  | Some i, Some j => i <? j
  | Some _, None => true
  | None, Some _ => false
  | None, None => negb (str_eqb k k')
  end.

(** Property keys in an order that an object can enumerate them in, none
    twice. *)
Fixpoint ordered (keys : list jsstring) : bool :=
  match keys with
  | [] => true
  | k :: keys' => forallb (precedes k) keys' && ordered keys'
  end.

(** The integers that binary64 holds exactly, one by one. *)
Definition safe_integer (n : Z) : bool := (Z.abs n <? 2 ^ 53)%Z.

Fixpoint json_ok (v : value) : bool :=
  match v with
  | Undefined | BigInt _ | Dec _ _ => false
  | Num n => safe_integer n
  | Null | Bool _ | Str _ => true
  | Arr items => forallb json_ok items
  | Obj props =>
      ordered (map fst props) && forallb (fun kv => json_ok (snd kv)) props
  end.

End JSON.

Import JSON.

(** ** Errors and promises *)

(** What a [throw] or a rejection carries: an [Error] instance with its
    message, or any other value. *)
Inductive thrown : Type :=
| JsError (message : jsstring)
| Thrown (v : value).

(** [error instanceof Error ? error.message : String(error)] *)
Definition message_of (e : thrown) : jsstring :=
  match e with
  | JsError m => m
  | Thrown v => ToString v
  end.

(** [new Error(x)] *)
Definition new_Error (x : value) : thrown :=
  JsError (match x with Undefined => [] | _ => ToString x end).

(** How a promise settles. *)
Inductive outcome : Type :=
| Resolved (v : value)
| Rejected (e : thrown).

(** What the [catch] around the handling of one line reports with
    [console.error]. *)
Inductive caught : Type :=
| SyntaxError (line : jsstring)      (* JSON.parse rejected the line *)
| PropertyOfNull (line : jsstring)   (* the line is the text of null *)
| NotSerializable.                   (* JSON.stringify threw a TypeError *)

Definition serialize_error : thrown :=
  JsError (lit "Do not know how to serialize a BigInt").

(** [JSON.stringify(x) + '\n'], or the TypeError of [JSON.stringify]. *)
Definition frame (x : value) : option jsstring :=
  match stringify x with
  | Text t => Some (t ++ [NL])
  | Omitted => Some (lit "undefined" ++ [NL])
  | Raised => None
  end.

(** ** [IPCServer]: one accepted connection *)

Module IPCServer.

(** An activation of the ['data'] callback that waits at
    [await this.handler(request.method, request.params)]: the call it waits
    for, the request in hand and the lines of its chunk still to be
    handled. *)
Record task := {
  awaited : nat;
  request : value;
  remaining : list jsstring
}.

Record connection := {
  buffer : jsstring;                       (* let buffer = '' *)
  tasks : list task;
  calls : list (value * value);            (* handler invocations, oldest first *)
  written : list jsstring;                 (* socket.write arguments, oldest first *)
  errors : list caught                     (* console.error reports, oldest first *)
}.

Definition accept : connection :=
  {| buffer := []; tasks := []; calls := []; written := []; errors := [] |}.

Definition set_buffer (c : connection) (b : jsstring) : connection :=
  {| buffer := b; tasks := tasks c; calls := calls c;
     written := written c; errors := errors c |}.

Definition console_error (c : connection) (e : caught) : connection :=
  {| buffer := buffer c; tasks := tasks c; calls := calls c;
     written := written c; errors := errors c ++ [e] |}.

Definition socket_write (c : connection) (text : jsstring) : connection :=
  {| buffer := buffer c; tasks := tasks c; calls := calls c;
     written := written c ++ [text]; errors := errors c |}.

(** The handler is called and the activation suspends on its promise.  The
    handler is an async function ([handleVSCodeRequest]): the call itself
    returns a promise, and every failure is a rejection of it. *)
Definition invoke (c : connection) (req method params : value)
  (rest : list jsstring) : connection :=
  {| buffer := buffer c;
     tasks := tasks c ++ [{| awaited := List.length (calls c); request := req;
                             remaining := rest |}];
     calls := calls c ++ [(method, params)];
     written := written c; errors := errors c |}.

(** The [for (const line of lines)] loop, from its current line up to the
    next [await] or to its end. *)
Fixpoint run_lines (c : connection) (lines : list jsstring) : connection :=
  match lines with
  | [] => c
  | line :: rest =>
      if blank line then run_lines c rest
      else
        match parse line with
        | None => run_lines (console_error c (SyntaxError line)) rest
        | Some req =>
            match get_prop req (lit "method"), get_prop req (lit "params") with
            | Some method, Some params => invoke c req method params rest
            | _, _ => run_lines (console_error c (PropertyOfNull line)) rest
            end
        end
  end.

(** [socket.on('data', async (data) => ...)] up to its first [await]. *)
Definition on_data (c : connection) (data : Utf8.bytes) : connection :=
  let buffer1 := buffer c ++ Utf8.toString data in
  let lines := split_nl buffer1 in
  let (last, lines') := pop lines in
  run_lines (set_buffer c (or_empty last)) lines'.

(** [{ id: request.id, result }] or
    [{ id: request.id, error: { message } }] *)
Definition response_of (id : value) (o : outcome) : value :=
  match o with
  | Resolved result => Obj [(lit "id", id); (lit "result", result)]
  | Rejected e =>
      Obj [(lit "id", id);
           (lit "error", Obj [(lit "message", Str (message_of e))])]
  end.

Fixpoint take_task (k : nat) (ts : list task) : option (task * list task) :=
  match ts with
  | [] => None
  | t :: ts' =>
      if Nat.eqb (awaited t) k then Some (t, ts')
      else
        match take_task k ts' with
        | Some (t', rest) => Some (t', t :: rest)
        | None => None
        end
  end.

Definition set_tasks (c : connection) (ts : list task) : connection :=
  {| buffer := buffer c; tasks := ts; calls := calls c;
     written := written c; errors := errors c |}.

(** The promise of call [k] settles: the activation waiting for it builds
    the response, writes it and goes on with its loop. *)
Definition settle (c : connection) (k : nat) (o : outcome) : connection :=
  match take_task k (tasks c) with
  | None => c
  | Some (t, others) =>
      let c1 := set_tasks c others in
      let c2 :=
        match frame (response_of (field (request t) (lit "id")) o) with
        | Some text => socket_write c1 text
        | None => console_error c1 NotSerializable
        end in
      run_lines c2 (remaining t)
  end.

(** What the event loop delivers to a connection. *)
Inductive event : Type :=
| Data (chunk : Utf8.bytes)
| Settled (k : nat) (o : outcome).

Definition step (c : connection) (e : event) : connection :=
  match e with
  | Data chunk => on_data c chunk
  | Settled k o => settle c k o
  end.

Definition run (c : connection) (es : list event) : connection :=
  fold_left step es c.


(** Every suspended activation waits for a call that was made, and no two
    wait for the same call. *)
Definition sound (c : connection) : Prop :=
  Forall (fun t => (awaited t < List.length (calls c))%nat) (tasks c) /\
  NoDup (map awaited (tasks c)).

End IPCServer.

(** ** [IPCClient] *)

Module IPCClient.

(** The [net.Socket] made by [connect]. *)
Inductive link_state : Type :=
| NoSocket      (* connect() has not run *)
| Open          (* connecting or connected *)
| Destroyed     (* destroy() was called, 'close' is still to be emitted *)
| Closed.       (* 'close' was emitted; the socket emits nothing more *)

Record client := {
  socket : bool;                           (* this.socket !== null *)
  link : link_state;
  pendingRequests : list (jsstring * nat); (* the Map, in insertion order;
                                              an entry holds the resolve and
                                              reject of one promise *)
  requestId : N;
  buffer : jsstring;
  promises : nat;                          (* promises made by request() *)
  settled : list (nat * outcome);          (* resolve and reject calls, oldest first *)
  sent : list jsstring;                    (* texts that left through socket.write *)
  connected : list outcome;                (* resolve and reject calls of connect()'s promise *)
  errors : list caught
}.

Definition create : client :=
  {| socket := false; link := NoSocket; pendingRequests := []; requestId := 0;
     buffer := []; promises := 0; settled := []; sent := []; connected := [];
     errors := [] |}.

Definition set_pending (c : client) (m : list (jsstring * nat)) : client :=
  {| socket := socket c; link := link c; pendingRequests := m;
     requestId := requestId c; buffer := buffer c; promises := promises c;
     settled := settled c; sent := sent c; connected := connected c;
     errors := errors c |}.

Definition set_buffer (c : client) (b : jsstring) : client :=
  {| socket := socket c; link := link c; pendingRequests := pendingRequests c;
     requestId := requestId c; buffer := b; promises := promises c;
     settled := settled c; sent := sent c; connected := connected c;
     errors := errors c |}.

Definition set_socket (c : client) (s : bool) (l : link_state) : client :=
  {| socket := s; link := l; pendingRequests := pendingRequests c;
     requestId := requestId c; buffer := buffer c; promises := promises c;
     settled := settled c; sent := sent c; connected := connected c;
     errors := errors c |}.

(** [pending.resolve(v)] or [pending.reject(e)] for the promise [p]. *)
Definition settle (c : client) (p : nat) (o : outcome) : client :=
  {| socket := socket c; link := link c; pendingRequests := pendingRequests c;
     requestId := requestId c; buffer := buffer c; promises := promises c;
     settled := settled c ++ [(p, o)]; sent := sent c; connected := connected c;
     errors := errors c |}.

Definition console_error (c : client) (e : caught) : client :=
  {| socket := socket c; link := link c; pendingRequests := pendingRequests c;
     requestId := requestId c; buffer := buffer c; promises := promises c;
     settled := settled c; sent := sent c; connected := connected c;
     errors := errors c ++ [e] |}.

Definition settle_connect (c : client) (o : outcome) : client :=
  {| socket := socket c; link := link c; pendingRequests := pendingRequests c;
     requestId := requestId c; buffer := buffer c; promises := promises c;
     settled := settled c; sent := sent c; connected := connected c ++ [o];
     errors := errors c |}.

(** [socket.write(text)]: a socket that was destroyed or has closed sends
    nothing. *)
Definition socket_write (c : client) (text : jsstring) : client :=
  match link c with
  | Open =>
      {| socket := socket c; link := link c;
         pendingRequests := pendingRequests c; requestId := requestId c;
         buffer := buffer c; promises := promises c; settled := settled c;
         sent := sent c ++ [text]; connected := connected c;
         errors := errors c |}
  | _ => c
  end.

(** [Map.prototype.get]: the keys of the table are strings, so only a
    string finds an entry. *)
Fixpoint map_find (k : jsstring) (m : list (jsstring * nat)) : option nat :=
  match m with
  | [] => None
  | (k', p) :: m' => if str_eqb k k' then Some p else map_find k m'
  end.

Definition map_get (k : value) (m : list (jsstring * nat)) : option nat :=
  match k with
  | Str s => map_find s m
  | _ => None
  end.

(** [Map.prototype.delete] *)
Definition map_delete (k : jsstring) (m : list (jsstring * nat))
  : list (jsstring * nat) :=
  filter (fun e => negb (str_eqb k (fst e))) m.

(** [Map.prototype.set]: a present key keeps its place. *)
Fixpoint map_set (k : jsstring) (p : nat) (m : list (jsstring * nat))
  : list (jsstring * nat) :=
  match m with
  | [] => [(k, p)]
  | (k', p') :: m' =>
      if str_eqb k k' then (k', p) :: m' else (k', p') :: map_set k p m'
  end.

(** The body of the loop of the ['data'] callback, for one line. *)
Definition handle_line (c : client) (line : jsstring) : client :=
  if blank line then c
  else
    match parse line with
    | None => console_error c (SyntaxError line)
    | Some response =>
        match get_prop response (lit "id") with
        | None => console_error c (PropertyOfNull line)
        | Some id =>
            match id, map_get id (pendingRequests c) with
            | Str key, Some p =>
                let c1 := set_pending c (map_delete key (pendingRequests c)) in
                let err := field response (lit "error") in
                if truthy err then
                  settle c1 p (Rejected (new_Error (field err (lit "message"))))
                else settle c1 p (Resolved (field response (lit "result")))
            | _, _ => c
            end
        end
    end.

(** [this.socket.on('data', (data) => ...)] *)
Definition on_data (c : client) (data : Utf8.bytes) : client :=
  let buffer1 := buffer c ++ Utf8.toString data in
  let lines := split_nl buffer1 in
  let (last, lines') := pop lines in
  fold_left handle_line lines' (set_buffer c (or_empty last)).

Definition connection_closed : thrown := JsError (lit "Connection closed").

(** The loop of the ['close'] callback over the entries of the table; an
    entry deleted while the Map is iterated is not visited again, and every
    other entry still is. *)
Fixpoint reject_all (entries : list (jsstring * nat)) (c : client) : client :=
  match entries with
  | [] => c
  | (id, p) :: entries' =>
      let c1 := settle c p (Rejected connection_closed) in
      reject_all entries' (set_pending c1 (map_delete id (pendingRequests c1)))
  end.

(** [this.socket.on('close', () => ...)] *)
Definition on_close (c : client) : client :=
  let c1 := reject_all (pendingRequests c) c in
  set_socket c1 (socket c1) Closed.

(** [this.socket.on('error', (err) => reject(err))]: [reject] is the one
    of the promise that [connect] returned. *)
Definition on_error (c : client) (err : thrown) : client :=
  settle_connect c (Rejected err).

(** [connect()]: the socket is created and stored at once. *)
Definition connect (c : client) : client := set_socket c true Open.

(** The callback of [net.createConnection]. *)
Definition on_connect (c : client) : client :=
  settle_connect c (Resolved Undefined).

(** [request(method, params)].  The function is [async]: its [throw] is
    seen by the caller as a promise that is already rejected, [inl]; else
    the caller gets the new promise, [inr].  A TypeError of
    [JSON.stringify] inside the executor rejects the new promise.  The
    counter is taken below 2^53, where [++] is exact and [String] writes
    all the digits. *)
Definition request (c : client) (method : jsstring) (params : value)
  : client * (thrown + nat) :=
  if negb (socket c) then (c, inl (JsError (lit "Not connected")))
  else
    let n := requestId c + 1 in
    let id := N_text n in
    let req := Obj [(lit "id", Str id); (lit "method", Str method);
                    (lit "params", params)] in
    let p := promises c in
    let c1 :=
      {| socket := socket c; link := link c;
         pendingRequests := map_set id p (pendingRequests c);
         requestId := n; buffer := buffer c; promises := S p;
         settled := settled c; sent := sent c; connected := connected c;
         errors := errors c |} in
    match frame req with
    | Some text => (socket_write c1 text, inr p)
    | None => (settle c1 p (Rejected serialize_error), inr p)
    end.

(** [disconnect()] *)
Definition disconnect (c : client) : client :=
  if socket c then
    set_socket c false (match link c with Open => Destroyed | l => l end)
  else c.

(** Calls of the owner of the client and events of its socket. *)
Inductive event : Type :=
| Connect
| Request (method : jsstring) (params : value)
| Disconnect
| Connected
| Data (chunk : Utf8.bytes)
| Failed (err : thrown)
| Close.

(** What the runtime can deliver: a socket emits ['data'], ['connect'] and
    ['error'] only while it is open, and ['close'] once, after which it
    emits nothing; ['error'] is followed by ['close'].  The owner connects
    a client that has no live socket. *)
Definition step (c : client) (e : event) : option client :=
  match e, link c with
  | Connect, (NoSocket | Closed) => Some (connect c)
  | Connect, _ => None
  | Request method params, _ => Some (fst (request c method params))
  | Disconnect, _ => Some (disconnect c)
  | Connected, Open => Some (on_connect c)
  | Data chunk, Open => Some (on_data c chunk)
  | Failed err, Open => Some (on_close (on_error c err))
  | Close, (Open | Destroyed) => Some (on_close c)
  | _, _ => None
  end.

Fixpoint run (c : client) (es : list event) : option client :=
  match es with
  | [] => Some c
  | e :: es' =>
      match step c e with
      | Some c' => run c' es'
      | None => None
      end
  end.


End IPCClient.

(** ** [extension.ts]: the request handler and the life cycle of the servers *)

Module Extension.

Definition IPC_SOCKET_NAME : jsstring := lit "vscode-api-mcp.sock".

(** The process the extension runs in. *)
Record host := {
  win32 : bool;               (* process.platform === 'win32' *)
  tmpdir : jsstring           (* os.tmpdir(), which ends in no separator *)
}.

Definition getDefaultSocketPath (h : host) : jsstring :=
  if win32 h then lit "\\.\pipe\" ++ IPC_SOCKET_NAME
  else tmpdir h ++ 47 :: IPC_SOCKET_NAME.

(** The settings of [vscode-api-mcp], with their defaults applied. *)
Record settings := {
  logLevel : jsstring;
  socketPath : jsstring;
  httpPort : N
}.

(** An [IPCServer] object and an [HttpMcpServer] object. *)
Record ipc_server := {
  ipc_handle : bool;          (* this.server !== null *)
  ipc_path : jsstring
}.

Record http_server := {
  http_handle : bool;         (* this.server !== null *)
  http_transport : bool;      (* this.transport !== null *)
  http_port : N
}.

Record state := {
  ipcServer : option ipc_server;
  httpMcpServer : option http_server;
  outputChannel : list jsstring;
  constructed : nat           (* server objects made with new so far *)
}.

Definition initial : state :=
  {| ipcServer := None; httpMcpServer := None; outputChannel := [];
     constructed := 0 |}.

Definition levels : list jsstring :=
  [lit "debug"; lit "info"; lit "warn"; lit "error"].

(** [a.indexOf(x)] *)
Fixpoint indexOf (x : jsstring) (a : list jsstring) : Z :=
  match a with
  | [] => (-1)%Z
  | y :: a' =>
      if str_eqb x y then 0%Z
      else
        let i := indexOf x a' in
        if (i <? 0)%Z then (-1)%Z else (i + 1)%Z
  end.

Definition toUpperCase (s : jsstring) : jsstring :=
  map (fun c => if (97 <=? c) && (c <=? 122) then c - 32 else c) s.

Definition log (cfg : settings) (st : state) (message level : jsstring) : state :=
  if (indexOf (logLevel cfg) levels <=? indexOf level levels)%Z then
    {| ipcServer := ipcServer st; httpMcpServer := httpMcpServer st;
       outputChannel :=
         outputChannel st ++ [91 :: toUpperCase level ++ 93 :: 32 :: message];
       constructed := constructed st |}
  else st.

Definition catalog : list jsstring :=
  [lit "executeCommand"; lit "readFile"; lit "writeFile"; lit "getConfig";
   lit "setConfig"; lit "getActiveEditor"; lit "showMessage";
   lit "getWorkspaceFolders"; lit "listFiles"; lit "openFile";
   lit "getOpenEditors"; lit "getDiagnostics"; lit "setSelection"].

Definition in_catalog (m : jsstring) : bool := existsb (str_eqb m) catalog.

Section Handler.

(** The editor operations behind the cases of the [switch]: how the case of
    a catalogued method ends for given parameters. *)
Variable vscode : jsstring -> value -> outcome.

(** [handleVSCodeRequest(method, params)]: the state after its [log] call
    and the way its promise settles. *)
Definition handleVSCodeRequest (cfg : settings) (st : state)
  (method params : value) : state * outcome :=
  let st1 := log cfg st (lit "Handling request: " ++ ToString method) (lit "debug") in
  (st1,
   match method with
   | Str m =>
       if in_catalog m then vscode m params
       else Rejected (JsError (lit "Unknown method: " ++ ToString method))
   | _ => Rejected (JsError (lit "Unknown method: " ++ ToString method))
   end).

End Handler.

Definition set_ipc (st : state) (s : option ipc_server) (n : nat) : state :=
  {| ipcServer := s; httpMcpServer := httpMcpServer st;
     outputChannel := outputChannel st; constructed := n |}.

Definition set_http (st : state) (s : option http_server) (n : nat) : state :=
  {| ipcServer := ipcServer st; httpMcpServer := s;
     outputChannel := outputChannel st; constructed := n |}.

(** [startIPCServer()].  [listen] is what the endpoint answers to
    [IPCServer.start]: [None] when it starts to listen, [Some err] when it
    emits ['error'].  The result is the state and the error the function
    rejects with, if any. *)
Definition startIPCServer (h : host) (cfg : settings) (listen : option thrown)
  (st : state) : state * option thrown :=
  match ipcServer st with
  | Some _ => (log cfg st (lit "IPC server already running") (lit "info"), None)
  | None =>
      let path :=
        if is_empty (socketPath cfg) then getDefaultSocketPath h
        else socketPath cfg in
      let path' := if is_empty path then getDefaultSocketPath h else path in
      let srv := {| ipc_handle := true; ipc_path := path' |} in
      let st1 := set_ipc st (Some srv) (S (constructed st)) in
      match listen with
      | Some err => (st1, Some err)
      | None =>
          (log cfg st1 (lit "IPC server started at " ++ path') (lit "info"), None)
      end
  end.

(** [stopIPCServer()] *)
Definition stopIPCServer (cfg : settings) (st : state) : state :=
  match ipcServer st with
  | Some _ =>
      log cfg (set_ipc st None (constructed st)) (lit "IPC server stopped")
        (lit "info")
  | None => st
  end.

Definition http_url (port : N) : jsstring :=
  lit "http://127.0.0.1:" ++ N_text port ++ lit "/mcp".

(** [startHttpServer()] *)
Definition startHttpServer (cfg : settings) (listen : option thrown)
  (st : state) : state * option thrown :=
  match httpMcpServer st with
  | Some _ =>
      (log cfg st (lit "HTTP MCP server already running") (lit "info"), None)
  | None =>
      let srv := {| http_handle := true; http_transport := true;
                    http_port := httpPort cfg |} in
      let st1 := set_http st (Some srv) (S (constructed st)) in
      match listen with
      | Some err => (st1, Some err)
      | None =>
          (log cfg st1
             (lit "HTTP MCP server started at " ++ http_url (httpPort cfg))
             (lit "info"), None)
      end
  end.

(** [stopHttpServer()] *)
Definition stopHttpServer (cfg : settings) (st : state) : state :=
  match httpMcpServer st with
  | Some _ =>
      log cfg (set_http st None (constructed st)) (lit "HTTP MCP server stopped")
        (lit "info")
  | None => st
  end.

End Extension.

Import Utf8.

(** ** Notions used in the statements and their proofs *)

(** The frame of [request(method, params)] with the id [id]. *)
Definition request_of (id method : jsstring) (params : value) : value :=
  Obj [(lit "id", Str id); (lit "method", Str method); (lit "params", params)].

(** What the caller's promise receives when the handler's promise settles
    with [o]. *)
Definition relayed (o : outcome) : outcome :=
  match o with
  | Resolved v => Resolved v
  | Rejected e => Rejected (JsError (message_of e))
  end.

(** The outcomes whose response has a JSON text that reads back: a
    serializable result, no result at all, or any failure. *)
Definition transmissible (o : outcome) : Prop :=
  match o with
  | Resolved v => v = Undefined \/ json_ok v = true
  | Rejected _ => True
  end.

(** A request that was issued after the socket closed: it is in the table,
    its promise is not settled, and nothing was sent. *)
Definition stranded (c : IPCClient.client) : Prop :=
  IPCClient.link c = IPCClient.Closed /\
  IPCClient.map_find (lit "1") (IPCClient.pendingRequests c) = Some 0%nat /\
  (forall o, ~ In (0%nat, o) (IPCClient.settled c)) /\
  IPCClient.sent c = [] /\
  (1 <= IPCClient.promises c)%nat /\ 1 <= IPCClient.requestId c.

(** The bytes a fresh, connected caller writes for [request(method, params)]. *)
Definition wire_request (method : jsstring) (params : value) : bytes :=
  flat_map encode
    (IPCClient.sent
       (fst (IPCClient.request (IPCClient.connect IPCClient.create) method params))).

(** The bytes the listener writes on a fresh connection that receives
    [data] and whose first handler call settles with [o]. *)
Definition wire_response (data : bytes) (o : outcome) : bytes :=
  flat_map encode
    (IPCServer.written
       (IPCServer.settle (IPCServer.on_data IPCServer.accept data) 0 o)).

(** [request("readFile", {path: "é.txt"})] *)
Definition accented_request : bytes :=
  wire_request (lit "readFile") (Obj [(lit "path", Str (233 :: lit ".txt"))]).


(** A text that does not go on with a digit. *)
Definition digit_free (rest : jsstring) : Prop :=
  match rest with
  | [] => True
  | c :: _ => digit_of c = None
  end.

Definition is_digit (c : N) : Prop := 48 <= c <= 57.

(** What can follow an integer literal. *)
Definition number_end (rest : jsstring) : Prop :=
  digit_free rest /\ starts_fraction rest = false.

(** The code units of a number text. *)
Definition number_char (c : N) : Prop :=
  c = 45 \/ is_digit c \/ c = 46 \/ c = 101 \/ c = 43.

(** A character of a string put in front of what [parse_chars] reads after
    it. *)
Definition and_then (c : N) (r : option (jsstring * jsstring))
  : option (jsstring * jsstring) :=
  match r with
  | Some (t, rest) => Some (c :: t, rest)
  | None => None
  end.

(** The code units a JSON text can start with. *)
Definition starter (c : N) : Prop :=
  c = 123 \/ c = 91 \/ c = 34 \/ c = 116 \/ c = 102 \/ c = 110 \/ c = 45 \/
  is_digit c.

(** What the induction gives for one value. *)
Definition reads_back (v : value) : Prop :=
  forall t, ser v = Text t -> json_ok v = true ->
  forall fuel rest, (List.length t <= fuel)%nat -> number_end rest ->
  parse_value fuel (t ++ rest) = Some (v, rest).

(** A text without line terminator. *)
Definition plain (t : jsstring) : Prop := Forall (fun c => c <> NL) t.

(** A text whose surrogates come in pairs and whose code units fit 16
    bits. *)
Fixpoint well_formed (s : jsstring) : bool :=
  match s with
  | [] => true
  | c :: s' =>
      if is_high c then
        match s' with
        | d :: s'' => is_low d && well_formed s''
        | [] => false
        end
      else negb (is_low c) && (c <? 65536) && well_formed s'
  end.

(** The decoder run over some bytes: its state after them and the code
    points they complete. *)
Fixpoint feed (d : decoder) (bs : bytes) : decoder * list N :=
  match bs with
  | [] => (d, [])
  | b :: bs' =>
      let (d1, out1) := decode_byte d b in
      let (d2, out2) := feed d1 bs' in
      (d2, out1 ++ out2)
  end.

(** A Unicode scalar value: a code point that is not a surrogate. *)
Definition scalar (cp : N) : bool :=
  (cp <? 1114112) && negb ((55296 <=? cp) && (cp <=? 57343)).

(** The bytes of [cp] decode to [cp] and leave the decoder idle. *)
Definition decodes_back (cp : N) : bool :=
  negb (scalar cp) ||
  (let (d, out) := feed idle (encode_point cp) in
   (needed d =? 0) &&
   match out with
   | [x] => x =? cp
   | _ => false
   end).

(** [P] on every number of [k] bits after the bits [prefix]. *)
Fixpoint all_bits (k : nat) (prefix : N) (P : N -> bool) : bool :=
  match k with
  | O => P prefix
  | S k' =>
      if all_bits k' (2 * prefix) P then all_bits k' (2 * prefix + 1) P
      else false
  end.

(** Code units that fit 16 bits. *)
Definition in_range (s : jsstring) : bool := forallb (fun c => c <? 65536) s.

(** A value all of whose strings and keys are made of 16-bit code units. *)
Fixpoint units_ok (v : value) : bool :=
  match v with
  | Str s => in_range s
  | Arr items => forallb units_ok items
  | Obj props => forallb (fun kv => in_range (fst kv) && units_ok (snd kv)) props
  | _ => true
  end.

(** A text that is well formed whatever follows it. *)
Definition closed (t : jsstring) : Prop :=
  forall rest, well_formed (t ++ rest) = well_formed rest.

(** The text [JSON.stringify] gives for a serializable value. *)
Definition text_of (v : value) : jsstring :=
  match stringify v with
  | Text t => t
  | _ => []
  end.

(** ** Counting what a connection has done *)



(** ** What the table of the caller holds *)

(** The keys of the table are ids that [request] has given out, none
    twice. *)
Definition ids_ok (c : IPCClient.client) : Prop :=
  Forall (fun e => exists k, 1 <= k <= IPCClient.requestId c /\ fst e = N_text k)
    (IPCClient.pendingRequests c) /\
  NoDup (map fst (IPCClient.pendingRequests c)).

(** The promises in the table are distinct and none of them has been
    settled; no promise has been settled twice; all were made by
    [request]. *)
Definition tidy (c : IPCClient.client) : Prop :=
  NoDup (map snd (IPCClient.pendingRequests c)) /\
  NoDup (map fst (IPCClient.settled c)) /\
  (forall p, In p (map snd (IPCClient.pendingRequests c)) ->
             ~ In p (map fst (IPCClient.settled c))) /\
  Forall (fun p => (p < IPCClient.promises c)%nat)
    (map snd (IPCClient.pendingRequests c) ++ map fst (IPCClient.settled c)).

(** A call of [request] whose parameters [JSON.stringify] accepts. *)
Definition sendable (e : IPCClient.event) : Prop :=
  match e with
  | IPCClient.Request _ params => ser params <> Raised
  | _ => True
  end.

(** ** [JSON.stringify(value, null, 2)] *)

Module Indented.

(** The gap of an indentation of two spaces. *)
Definition gap : jsstring := [32; 32].

Fixpoint join_sep (sep : jsstring) (parts : list jsstring) : jsstring :=
  match parts with
  | [] => []
  | [p] => p
  | p :: parts' => p ++ sep ++ join_sep sep parts'
  end.

(** The text of an array or an object from the texts of its parts: the
    brackets alone when there is no part, else one part on each line, at
    the indentation [stepback] and one gap. *)
Definition block (opening closing : N) (stepback : jsstring)
  (parts : list jsstring) : jsstring :=
  match parts with
  | [] => [opening; closing]
  | _ :: _ =>
      let indent := stepback ++ gap in
      opening :: NL :: indent ++ join_sep (44 :: NL :: indent) parts ++
      NL :: stepback ++ [closing]
  end.

Section Fields.
Variable ser : value -> serialized.

(** SerializeJSONObject with a gap: a colon and a space after the key. *)
Fixpoint ser_fields (props : list (jsstring * value)) : option (list jsstring) :=
  match props with
  | [] => Some []
  | (k, v) :: props' =>
      match ser v with
      | Raised => None
      | Omitted => ser_fields props'
      | Text t => option_map (cons (quote k ++ 58 :: 32 :: t)) (ser_fields props')
      end
  end.

End Fields.

(** SerializeJSONProperty at the indentation [indent]. *)
Fixpoint ser_indented (indent : jsstring) (v : value) : serialized :=
  match v with
  | Arr items =>
      match ser_elements (ser_indented (indent ++ gap)) items with
      | Some parts => Text (block 91 93 indent parts)
      | None => Raised
      end
  | Obj props =>
      match ser_fields (ser_indented (indent ++ gap)) props with
      | Some parts => Text (block 123 125 indent parts)
      | None => Raised
      end
  | Undefined => Omitted
  | Null => Text (lit "null")
  | Bool b => Text (if b then lit "true" else lit "false")
  | Num n => Text (number_text n)
  | BigInt _ => Raised
  | Str s => Text (quote s)
  | Dec m e => Text (decimal_text m e)
  end.

Definition stringify (v : value) : serialized := ser_indented [] v.

End Indented.

(** White space that [JSON.parse] skips. *)
Definition blanks (w : jsstring) : Prop := Forall (fun c => is_json_ws c = true) w.

(** What the induction gives for one value and its indented text. *)
Definition reads_back_at (v : value) : Prop :=
  forall indent t, blanks indent ->
  Indented.ser_indented indent v = Text t -> json_ok v = true ->
  forall fuel rest, (List.length t <= fuel)%nat -> number_end rest ->
  parse_value fuel (t ++ rest) = Some (v, rest).

(** ** The tools of the MCP servers: [server/index.ts] and [server/http.ts] *)

Module Tools.

(** How the [try] block of a tool handler makes its text from the awaited
    result. *)
Inductive rendering : Type :=
| Json                              (* JSON.stringify(result, null, 2) *)
| JsonOr (fallback : jsstring)      (* JSON.stringify(result, null, 2) || fallback *)
| Verbatim                          (* the result itself *)
| Template (parts : list (jsstring + jsstring))
                                    (* a template literal over the arguments *)
| ActiveEditor                      (* 'No active editor' when !result *)
| Selected.                         (* result.selectedItem ? ... : 'Message shown' *)

(** One [tool(name, description, schema, handler)] registration: the
    method its handler calls, the arguments it passes on as parameters, the
    text it makes of the result and the words it puts before the message
    of a failure. *)
Record tool := {
  name : jsstring;
  method : jsstring;
  picks : list jsstring;
  render : rendering;
  prefix : jsstring
}.

(** [{ a, b, ... }] over the arguments of the call. *)
Definition params_of (t : tool) (args : value) : value :=
  Obj (map (fun k => (k, field args k)) (picks t)).

(** The TypeError of reading the property [k] of [null] or [undefined], as
    V8 words it. *)
Definition property_error (v : value) (k : jsstring) : thrown :=
  JsError (lit "Cannot read properties of " ++ ToString v ++
           lit " (reading '" ++ k ++ lit "')").

Definition template (parts : list (jsstring + jsstring)) (args : value) : jsstring :=
  flat_map (fun part => match part with
                        | inl text => text
                        | inr k => ToString (field args k)
                        end) parts.

(** [JSON.stringify(result, null, 2)]: a string, [undefined], or the
    TypeError. *)
Definition json_text (result : value) : thrown + value :=
  match Indented.stringify result with
  | Text t => inr (Str t)
  | Omitted => inr Undefined
  | Raised => inl serialize_error
  end.

(** The [text] of the content, or what the [try] block throws. *)
Definition render_text (r : rendering) (args result : value) : thrown + value :=
  match r with
  | Json => json_text result
  | JsonOr fallback =>
      match json_text result with
      | inr text => inr (if truthy text then text else Str fallback)
      | inl e => inl e
      end
  | Verbatim => inr result
  | Template parts => inr (Str (template parts args))
  | ActiveEditor =>
      if truthy result then json_text result
      else inr (Str (lit "No active editor"))
  | Selected =>
      match get_prop result (lit "selectedItem") with
      | None => inl (property_error result (lit "selectedItem"))
      | Some item =>
          inr (Str (if truthy item then lit "User selected: " ++ ToString item
                    else lit "Message shown"))
      end
  end.

(** [{ content: [{ type: 'text', text }] }] *)
Definition content (text : value) : value :=
  Obj [(lit "content",
        Arr [Obj [(lit "type", Str (lit "text")); (lit "text", text)]])].

(** [{ content: [{ type: 'text', text }], isError: true }] *)
Definition failed (text : jsstring) : value :=
  Obj [(lit "content",
        Arr [Obj [(lit "type", Str (lit "text")); (lit "text", Str text)]]);
       (lit "isError", Bool true)].

(** The handler of a tool from its [await callVSCode(...)] on: what it
    returns when the call settles with [o]. *)
Definition tool_handler (t : tool) (args : value) (o : outcome) : value :=
  match o with
  | Resolved result =>
      match render_text (render t) args result with
      | inr text => content text
      | inl e => failed (prefix t ++ message_of e)
      end
  | Rejected e => failed (prefix t ++ message_of e)
  end.

Definition executeCommand : tool :=
  {| name := lit "vscode_executeCommand"; method := lit "executeCommand";
     picks := [lit "command"; lit "args"];
     render := JsonOr (lit "Command executed successfully");
     prefix := lit "Error: " |}.

Definition readFile : tool :=
  {| name := lit "vscode_readFile"; method := lit "readFile";
     picks := [lit "path"]; render := Verbatim;
     prefix := lit "Error reading file: " |}.

Definition writeFile : tool :=
  {| name := lit "vscode_writeFile"; method := lit "writeFile";
     picks := [lit "path"; lit "content"];
     render := Template [inl (lit "Successfully wrote to "); inr (lit "path")];
     prefix := lit "Error writing file: " |}.

Definition getConfig : tool :=
  {| name := lit "vscode_getConfig"; method := lit "getConfig";
     picks := [lit "section"; lit "key"]; render := Json;
     prefix := lit "Error getting config: " |}.

Definition setConfig : tool :=
  {| name := lit "vscode_setConfig"; method := lit "setConfig";
     picks := [lit "section"; lit "key"; lit "value"; lit "global"];
     render := Template [inl (lit "Successfully updated "); inr (lit "section");
                         inl (lit "."); inr (lit "key")];
     prefix := lit "Error setting config: " |}.

Definition getActiveEditor : tool :=
  {| name := lit "vscode_getActiveEditor"; method := lit "getActiveEditor";
     picks := []; render := ActiveEditor; prefix := lit "Error: " |}.

Definition showMessage : tool :=
  {| name := lit "vscode_showMessage"; method := lit "showMessage";
     picks := [lit "type"; lit "message"; lit "items"]; render := Selected;
     prefix := lit "Error: " |}.

Definition getWorkspaceFolders : tool :=
  {| name := lit "vscode_getWorkspaceFolders"; method := lit "getWorkspaceFolders";
     picks := []; render := Json; prefix := lit "Error: " |}.

Definition listFiles : tool :=
  {| name := lit "vscode_listFiles"; method := lit "listFiles";
     picks := [lit "pattern"; lit "maxResults"]; render := Json;
     prefix := lit "Error: " |}.

Definition openFile : tool :=
  {| name := lit "vscode_openFile"; method := lit "openFile";
     picks := [lit "path"; lit "preview"];
     render := Template [inl (lit "Opened "); inr (lit "path")];
     prefix := lit "Error: " |}.

Definition getOpenEditors : tool :=
  {| name := lit "vscode_getOpenEditors"; method := lit "getOpenEditors";
     picks := []; render := Json; prefix := lit "Error: " |}.

Definition getDiagnostics : tool :=
  {| name := lit "vscode_getDiagnostics"; method := lit "getDiagnostics";
     picks := [lit "path"]; render := Json; prefix := lit "Error: " |}.

Definition setSelection : tool :=
  {| name := lit "vscode_setSelection"; method := lit "setSelection";
     picks := [lit "startLine"; lit "startCharacter"; lit "endLine";
               lit "endCharacter"];
     render := Json; prefix := lit "Error: " |}.

(** The tools [server/index.ts] registers, in its order. *)
Definition stdio_tools : list tool :=
  [executeCommand; readFile; writeFile; getConfig; setConfig; getActiveEditor;
   showMessage; getWorkspaceFolders; listFiles; openFile; getOpenEditors;
   getDiagnostics].

(** The tools [HttpMcpServer.registerTools] registers, in its order. *)
Definition http_tools : list tool :=
  [executeCommand; readFile; writeFile; getConfig; setConfig; getActiveEditor;
   showMessage; getWorkspaceFolders; listFiles; openFile; getOpenEditors;
   getDiagnostics; setSelection].

End Tools.

(** ** [server/index.ts]: the client of the stdio server *)

Module StdioServer.

(** [let ipcClient: IPCClient | null], and the numbers of [new IPCClient]
    and of [connect()] calls so far. *)
Record process := {
  ipcClient : option IPCClient.client;
  constructed : nat;
  connects : nat
}.

Definition start : process :=
  {| ipcClient := None; constructed := 0; connects := 0 |}.

Definition hook_missing : thrown :=
  JsError (lit "VSCODE_IPC_HOOK environment variable not set. Is the VS Code extension running?").

(** How far [callVSCode] gets before it has to wait. *)
Inductive progress : Type :=
| Threw (e : thrown)            (* its promise is rejected *)
| Requested (r : thrown + nat)  (* it returned what request() returned *)
| Connecting.                   (* it waits for connect() of the new client *)

Definition set_client (p : process) (c : IPCClient.client) : process :=
  {| ipcClient := Some c; constructed := constructed p; connects := connects p |}.

(** [callVSCode(method, params)] with [getIPCClient()] inside, up to the
    [await ipcClient.connect()] of a first call.  [hook] is
    [process.env.VSCODE_IPC_HOOK]. *)
Definition callVSCode (hook : option jsstring) (p : process)
  (method : jsstring) (params : value) : process * progress :=
  match ipcClient p with
  | Some c =>
      let (c', r) := IPCClient.request c method params in
      (set_client p c', Requested r)
  | None =>
      match hook with
      | None | Some [] => (p, Threw hook_missing)
      | Some _ =>
          ({| ipcClient := Some (IPCClient.connect IPCClient.create);
              constructed := S (constructed p);
              connects := S (connects p) |}, Connecting)
      end
  end.

(** The call that waited for [connect()] goes on when the socket has
    connected: [getIPCClient] returns the client and [request] is called
    on it. *)
Definition resume (p : process) (method : jsstring) (params : value)
  : process * progress :=
  match ipcClient p with
  | Some c =>
      let (c', r) := IPCClient.request c method params in
      (set_client p c', Requested r)
  | None => (p, Threw hook_missing)
  end.

(** What happens in the process: a tool calls [callVSCode], or the socket
    of the client emits an event.  The call that made the client is
    resumed by ['connect'] and rejected by ['error']. *)
Inductive event : Type :=
| Call (method : jsstring) (params : value)
| Socket (e : IPCClient.event).

Record run_state := {
  proc : process;
  waiting : list (jsstring * value);   (* calls suspended on connect() *)
  results : list progress              (* how each call got on, oldest first *)
}.

Definition boot : run_state :=
  {| proc := start; waiting := []; results := [] |}.

Fixpoint resume_all (calls : list (jsstring * value)) (p : process)
  (acc : list progress) : process * list progress :=
  match calls with
  | [] => (p, acc)
  | (m, params) :: calls' =>
      let (p', r) := resume p m params in
      resume_all calls' p' (acc ++ [r])
  end.

Definition socket_event (e : IPCClient.event) : bool :=
  match e with
  | IPCClient.Connected | IPCClient.Data _ | IPCClient.Failed _
  | IPCClient.Close => true
  | _ => false
  end.

Definition step (hook : option jsstring) (s : run_state) (e : event)
  : option run_state :=
  match e with
  | Call m params =>
      let (p', r) := callVSCode hook (proc s) m params in
      Some {| proc := p';
              waiting := match r with
                         | Connecting => waiting s ++ [(m, params)]
                         | _ => waiting s
                         end;
              results := match r with
                         | Connecting => results s
                         | _ => results s ++ [r]
                         end |}
  | Socket ev =>
      match ipcClient (proc s) with
      | Some c =>
          if socket_event ev then
            match IPCClient.step c ev with
            | Some c' =>
                let p' := set_client (proc s) c' in
                match ev with
                | IPCClient.Connected =>
                    let (p'', rs) := resume_all (waiting s) p' (results s) in
                    Some {| proc := p''; waiting := []; results := rs |}
                | IPCClient.Failed err =>
                    Some {| proc := p'; waiting := [];
                            results := results s ++
                                       map (fun _ => Threw err) (waiting s) |}
                | _ => Some {| proc := p'; waiting := waiting s;
                               results := results s |}
                end
            | None => None
            end
          else None
      | None => None
      end
  end.

Fixpoint run (hook : option jsstring) (s : run_state) (es : list event)
  : option run_state :=
  match es with
  | [] => Some s
  | e :: es' =>
      match step hook s e with
      | Some s' => run hook s' es'
      | None => None
      end
  end.

End StdioServer.

(** ** The provider of the stdio server in [extension.ts] *)

(** The [VSCODE_IPC_HOOK] that [provideMcpServerDefinitions] puts in the
    environment of the stdio server: [ipcServer?.getSocketPath() || '']. *)
Definition provided_hook (st : Extension.state) : jsstring :=
  match Extension.ipcServer st with
  | Some srv => Extension.ipc_path srv
  | None => []
  end.

(** ** What a value becomes when it crosses the bridge *)

(** [JSON.parse(JSON.stringify(v))] for a value whose parts other than
    [undefined] are serializable: an [undefined] member is left out, an
    [undefined] element becomes [null]. *)
Fixpoint prune (v : value) : value :=
  match v with
  | Arr items =>
      Arr (map (fun x => match x with
                         | Undefined => Null
                         | _ => prune x
                         end) items)
  | Obj props =>
      Obj (flat_map (fun kv => match snd kv with
                               | Undefined => []
                               | _ => [(fst kv, prune (snd kv))]
                               end) props)
  | _ => v
  end.


(** ** [extension.ts]: activation and the commands *)

Module Commands.

Import Extension.

(** What a command shows to the user. *)
Inductive notice : Type :=
| Information (text : jsstring)     (* vscode.window.showInformationMessage *)
| ErrorMessage (text : jsstring).   (* vscode.window.showErrorMessage *)

(** [`${error}`] for what a [catch] has caught: [Error.prototype.toString]
    for an Error whose name is "Error", as the errors of [listen] are. *)
Definition error_text (e : thrown) : jsstring :=
  match e with
  | JsError [] => lit "Error"
  | JsError m => lit "Error: " ++ m
  | Thrown v => ToString v
  end.

(** [httpMcpServer?.getPort() || 6010] *)
Definition shown_port (st : state) : N :=
  match httpMcpServer st with
  | Some srv => if http_port srv =? 0 then 6010 else http_port srv
  | None => 6010
  end.

(** The command [vscode-api-mcp.startServer].  [listen_ipc] and
    [listen_http] are what the two endpoints answer when they are asked to
    listen. *)
Definition startServer (h : host) (cfg : settings)
  (listen_ipc listen_http : option thrown) (st : state) : state * notice :=
  match startIPCServer h cfg listen_ipc st with
  | (st1, Some err) =>
      (st1, ErrorMessage (lit "Failed to start server: " ++ error_text err))
  | (st1, None) =>
      match startHttpServer cfg listen_http st1 with
      | (st2, Some err) =>
          (st2, ErrorMessage (lit "Failed to start server: " ++ error_text err))
      | (st2, None) =>
          (st2, Information (lit "MCP servers started. HTTP: http://127.0.0.1:" ++
                             N_text (shown_port st2) ++ lit "/mcp"))
      end
  end.

(** The command [vscode-api-mcp.stopServer]. *)
Definition stopServer (cfg : settings) (st : state) : state * notice :=
  (stopHttpServer cfg (stopIPCServer cfg st), Information (lit "MCP servers stopped")).

Fixpoint join_comma (parts : list jsstring) : jsstring :=
  match parts with
  | [] => []
  | [p] => p
  | p :: parts' => p ++ lit ", " ++ join_comma parts'
  end.

(** The command [vscode-api-mcp.showStatus]. *)
Definition showStatus (st : state) : notice :=
  let messages :=
    match ipcServer st with
    | Some srv => [lit "IPC: " ++ ipc_path srv]
    | None => []
    end ++
    match httpMcpServer st with
    | Some srv => [lit "HTTP: " ++ http_url (http_port srv)]
    | None => []
    end in
  match messages with
  | [] => Information (lit "MCP servers are not running")
  | _ => Information (lit "MCP servers running - " ++ join_comma messages)
  end.


(** [deactivate()] *)
Definition deactivate (cfg : settings) (st : state) : state :=
  stopHttpServer cfg (stopIPCServer cfg st).

(** What the user does with the extension once it is activated. *)
Inductive command : Type :=
| StartServer (listen_ipc listen_http : option thrown)
| StopServer
| ShowStatus.

Definition execute (h : host) (cfg : settings) (st : state) (c : command)
  : state * notice :=
  match c with
  | StartServer listen_ipc listen_http => startServer h cfg listen_ipc listen_http st
  | StopServer => stopServer cfg st
  | ShowStatus => (st, showStatus st)
  end.

Definition execute_all (h : host) (cfg : settings) (st : state)
  (cs : list command) : state :=
  fold_left (fun s c => fst (execute h cfg s c)) cs st.

End Commands.

(** ** Cases of [handleVSCodeRequest] *)

Module Cases.

(** [new TextEncoder().encode(content)]: no argument is the empty string,
    any other value is converted to a string; lone surrogates are written
    as U+FFFD. *)
Definition TextEncoder_encode (content : value) : bytes :=
  match content with
  | Undefined => []
  | _ => encode (ToString content)
  end.

(** [new TextDecoder().decode(content)]: UTF-8 with replacement, and a
    byte order mark at the start is dropped. *)
Definition TextDecoder_decode (content : bytes) : jsstring :=
  match toString content with
  | c :: text => if c =? 65279 then text else c :: text
  | [] => []
  end.

(** What the case ['getActiveEditor'] reads from
    [vscode.window.activeTextEditor]. *)
Record position := { line : N; character : N }.

Record editor := {
  fsPath : jsstring;           (* editor.document.uri.fsPath *)
  languageId : jsstring;
  selection_start : position;
  selection_end : position;
  selectedText : jsstring;     (* editor.document.getText(editor.selection) *)
  lineCount : N
}.

Definition position_value (p : position) : value :=
  Obj [(lit "line", Num (Z.of_N (line p)));
       (lit "character", Num (Z.of_N (character p)))].

(** The case ['getActiveEditor']. *)
Definition getActiveEditor (active : option editor) : value :=
  match active with
  | None => Null
  | Some e =>
      Obj [(lit "filePath", Str (fsPath e));
           (lit "languageId", Str (languageId e));
           (lit "selection",
            Obj [(lit "start", position_value (selection_start e));
                 (lit "end", position_value (selection_end e))]);
           (lit "selectedText", Str (selectedText e));
           (lit "lineCount", Num (Z.of_N (lineCount e)))]
  end.

(** The case ['showMessage'] returns [{ selectedItem: result }], for the
    item the user chose, if any. *)
Definition showMessage (chosen : option jsstring) : value :=
  Obj [(lit "selectedItem",
        match chosen with
        | Some item => Str item
        | None => Undefined
        end)].

End Cases.

(** A text without the U+FEFF at its start, if it has one. *)
Definition without_mark (s : jsstring) : jsstring :=
  match s with
  | c :: text => if c =? 65279 then text else s
  | [] => []
  end.

(** A position or a count that binary64 holds exactly. *)
Definition small (n : N) : Prop := n < 2 ^ 53.

Definition editor_small (e : Cases.editor) : Prop :=
  small (Cases.line (Cases.selection_start e)) /\
  small (Cases.character (Cases.selection_start e)) /\
  small (Cases.line (Cases.selection_end e)) /\
  small (Cases.character (Cases.selection_end e)) /\
  small (Cases.lineCount e).

(** * Facts about strings and framing *)

Lemma str_eqb_eq (s t : jsstring) : str_eqb s t = true <-> s = t.
Proof.
  revert t; induction s as [|c s IH]; intros [|d t]; simpl; split;
    try congruence; try reflexivity.
  - rewrite andb_true_iff, N.eqb_eq, IH. intros [-> ->]; reflexivity.
  - intros [= -> ->]. rewrite N.eqb_refl. apply IH; reflexivity.
Qed.

Lemma str_eqb_refl (s : jsstring) : str_eqb s s = true.
Proof. apply str_eqb_eq; reflexivity. Qed.

Lemma str_eqb_neq (s t : jsstring) : str_eqb s t = false <-> s <> t.
Proof.
  rewrite <- str_eqb_eq. destruct (str_eqb s t); split; congruence.
Qed.

Lemma split_nl_nil : split_nl [] = [[]].
Proof. reflexivity. Qed.

Lemma split_nl_cons (c : N) (s : jsstring) :
  split_nl (c :: s) =
  if c =? NL then [] :: split_nl s
  else (c :: hd [] (split_nl s)) :: tl (split_nl s).
Proof.
  unfold split_nl; simpl. destruct (split_first s) as [seg segs].
  destruct (c =? NL); reflexivity.
Qed.

Lemma split_nl_not_nil (s : jsstring) : split_nl s <> [].
Proof. unfold split_nl. destruct (split_first s); discriminate. Qed.

(** Joining the segments with the separator gives the string back. *)
Lemma join_split (s : jsstring) : join_nl (split_nl s) = s.
Proof.
  induction s as [|c s IH]; [reflexivity|].
  rewrite split_nl_cons. destruct (N.eqb_spec c NL) as [->|Hc].
  - pose proof (split_nl_not_nil s) as Hn.
    simpl. destruct (split_nl s) as [|seg segs]; [congruence|].
    simpl in *. now rewrite IH.
  - pose proof (split_nl_not_nil s) as Hn.
    destruct (split_nl s) as [|seg segs]; [congruence|].
    simpl in *. destruct segs; simpl in *; now rewrite <- IH.
Qed.

(** No segment contains the separator. *)
Lemma split_no_nl (s : jsstring) :
  Forall (fun seg => ~ In NL seg) (split_nl s).
Proof.
  induction s as [|c s IH]; [repeat constructor; auto|].
  rewrite split_nl_cons. pose proof (split_nl_not_nil s) as Hn.
  destruct (split_nl s) as [|seg segs]; [congruence|].
  inversion IH; subst.
  destruct (N.eqb_spec c NL) as [->|Hc]; simpl.
  - constructor; auto.
  - constructor; auto. simpl. intros [E|E]; auto.
Qed.

(** A text without separator is one segment. *)
Lemma split_plain (s : jsstring) : ~ In NL s -> split_nl s = [s].
Proof.
  induction s as [|c s IH]; intros H; [reflexivity|].
  rewrite split_nl_cons. destruct (N.eqb_spec c NL) as [->|Hc].
  - exfalso; apply H; left; reflexivity.
  - rewrite IH; [reflexivity|]. intros E; apply H; right; exact E.
Qed.

(** Splitting a concatenation: the last segment of the first part goes on
    in the second part. *)
Lemma split_app (s t : jsstring) :
  split_nl (s ++ t) =
  removelast (split_nl s) ++ split_nl (last (split_nl s) [] ++ t).
Proof.
  induction s as [|c s IH]; [reflexivity|].
  simpl app. rewrite !split_nl_cons.
  pose proof (split_nl_not_nil s) as Hn.
  destruct (N.eqb_spec c NL) as [->|Hc].
  - rewrite IH. destruct (split_nl s) as [|seg segs]; [congruence|].
    reflexivity.
  - rewrite IH. destruct (split_nl s) as [|seg segs]; [congruence|].
    destruct segs as [|seg' segs].
    + simpl. rewrite split_nl_cons.
      destruct (N.eqb_spec c NL); [congruence|]. reflexivity.
    + reflexivity.
Qed.

Lemma pop_snoc {A} (l : list A) (x : A) : pop (l ++ [x]) = (Some x, l).
Proof. unfold pop. rewrite rev_app_distr. simpl. now rewrite rev_involutive. Qed.

Lemma pop_spec {A} (l : list A) (d : A) :
  l <> [] -> pop l = (Some (last l d), removelast l).
Proof.
  intros H. rewrite (app_removelast_last d H) at 1. apply pop_snoc.
Qed.

Lemma or_empty_some (s : jsstring) : or_empty (Some s) = s.
Proof. destruct s; reflexivity. Qed.

(** * Facts about numbers as decimal texts *)

Lemma read_digits_text (d : Decimal.uint) (rest : jsstring) :
  digit_free rest -> read_digits (uint_text d ++ rest) = (d, rest).
Proof.
  intros Hrest. induction d; simpl; try (rewrite IHd; reflexivity).
  destruct rest as [|c rest]; [reflexivity|]. simpl in *. now rewrite Hrest.
Qed.

Lemma nzhead_head (d : Decimal.uint) :
  match Decimal.nzhead d with Decimal.D0 _ => False | _ => True end.
Proof. induction d; simpl; auto. Qed.

Lemma plain_int_unorm (d : Decimal.uint) : plain_int (Decimal.unorm d) = true.
Proof.
  unfold Decimal.unorm. pose proof (nzhead_head d) as H.
  destruct (Decimal.nzhead d); simpl; auto; contradiction.
Qed.

Lemma to_uint_unorm (n : N) : N.to_uint n = Decimal.unorm (N.to_uint n).
Proof.
  rewrite <- (DecimalN.Unsigned.to_of (N.to_uint n)).
  now rewrite DecimalN.Unsigned.of_to.
Qed.

Lemma plain_int_to_uint (n : N) : plain_int (N.to_uint n) = true.
Proof. rewrite to_uint_unorm. apply plain_int_unorm. Qed.

Lemma digit_of_is_digit (c : N) : is_digit c -> digit_of c <> None.
Proof.
  unfold is_digit, digit_of. intros H.
  repeat match goal with
         | |- context [?a =? ?b] => destruct (N.eqb_spec a b); [discriminate|]
         end.
  lia.
Qed.

Lemma digit_of_none (c : N) : ~ is_digit c -> digit_of c = None.
Proof.
  unfold is_digit, digit_of. intros H.
  repeat match goal with
         | |- context [?a =? ?b] => destruct (N.eqb_spec a b); [lia|]
         end.
  reflexivity.
Qed.

(** The text of a plain integer starts with a digit. *)
Lemma uint_text_head (d : Decimal.uint) :
  plain_int d = true -> exists c r, uint_text d = c :: r /\ is_digit c.
Proof.
  unfold is_digit. destruct d; simpl; intros H; try discriminate;
    eexists; eexists; (split; [reflexivity|lia]).
Qed.

Lemma uint_text_digits (d : Decimal.uint) : Forall is_digit (uint_text d).
Proof. unfold is_digit. induction d; simpl; constructor; auto; lia. Qed.

Lemma N_text_head (n : N) : exists c r, N_text n = c :: r /\ is_digit c.
Proof. apply uint_text_head, plain_int_to_uint. Qed.

Lemma read_sign_digit (n : N) (rest : jsstring) :
  read_sign (N_text n ++ rest) = (false, N_text n ++ rest).
Proof.
  destruct (N_text_head n) as (c & r & E & Hc). unfold is_digit in Hc.
  rewrite E. simpl. destruct (N.eqb_spec c 45); [lia|reflexivity].
Qed.

Lemma parse_N_text (n : N) (rest : jsstring) :
  number_end rest ->
  parse_number (N_text n ++ rest) = Some (Z.of_N n, rest).
Proof.
  intros [Hd Hf]. unfold parse_number. rewrite read_sign_digit.
  unfold N_text. rewrite (read_digits_text _ _ Hd).
  rewrite plain_int_to_uint, Hf. simpl.
  now rewrite DecimalN.Unsigned.of_to.
Qed.

Lemma parse_integer_text (n : Z) (rest : jsstring) :
  number_end rest ->
  parse_number (integer_text n ++ rest) = Some (n, rest).
Proof.
  intros H. destruct n as [|p|p]; simpl integer_text.
  - apply (parse_N_text 0 rest H).
  - apply (parse_N_text (Npos p) rest H).
  - unfold parse_number. simpl read_sign.
    destruct H as [Hd Hf]. unfold N_text.
    rewrite (read_digits_text _ _ Hd). rewrite plain_int_to_uint, Hf.
    rewrite DecimalN.Unsigned.of_to. reflexivity.
Qed.

(** A safe integer is written with all its digits. *)
Lemma number_text_safe (n : Z) :
  safe_integer n = true -> number_text n = integer_text n.
Proof.
  unfold safe_integer, number_text. intros H. apply Z.ltb_lt in H.
  assert (Hc : (2 ^ 53 < 10 ^ 21)%Z) by reflexivity.
  destruct (Z.ltb_spec (Z.abs n) (10 ^ 21)); [reflexivity|lia].
Qed.

Lemma parse_number_text (n : Z) (rest : jsstring) :
  safe_integer n = true -> number_end rest ->
  parse_number (number_text n ++ rest) = Some (n, rest).
Proof.
  intros Hs H. rewrite (number_text_safe n Hs). now apply parse_integer_text.
Qed.

Lemma digit_number_char (s : jsstring) :
  Forall is_digit s -> Forall number_char s.
Proof. apply Forall_impl. unfold number_char. auto. Qed.

Lemma N_text_digits (n : N) : Forall is_digit (N_text n).
Proof. apply uint_text_digits. Qed.

Lemma drop_zeros_digits (s : jsstring) :
  Forall is_digit s -> Forall is_digit (drop_zeros s).
Proof.
  induction 1 as [|c s Hc Hs IH]; simpl; [constructor|].
  destruct (c =? 48); [exact IH|now constructor].
Qed.

Lemma significant_digits (digits : jsstring) :
  Forall is_digit digits ->
  Forall is_digit (significant digits) /\ significant digits <> [].
Proof.
  intros H. unfold significant.
  assert (Hr : Forall is_digit (rev (drop_zeros (rev digits))))
    by now apply Forall_rev, drop_zeros_digits, Forall_rev.
  destruct (rev (drop_zeros (rev digits))) as [|c s].
  - split; [|discriminate]. repeat constructor; unfold is_digit; lia.
  - split; [exact Hr|discriminate].
Qed.

Lemma zeros_digits (k : nat) : Forall is_digit (repeat 48 k).
Proof. induction k; simpl; constructor; auto. unfold is_digit. lia. Qed.

Lemma exponent_chars (sign : N) (x : N) :
  sign = 43 \/ sign = 45 -> Forall number_char (101 :: sign :: N_text x).
Proof.
  intros H. constructor; [unfold number_char; auto|].
  constructor; [unfold number_char; tauto|].
  apply digit_number_char, N_text_digits.
Qed.

Lemma Forall_cut {A : Type} (P : A -> Prop) (k : nat) (s : list A) :
  Forall P s -> Forall P (firstn k s) /\ Forall P (skipn k s).
Proof.
  intros H. rewrite <- (firstn_skipn k s) in H. now apply Forall_app in H.
Qed.

Lemma positional_chars (s : jsstring) (n : Z) :
  Forall is_digit s -> Forall number_char (positional s n).
Proof.
  intros H. pose proof (digit_number_char s H) as Hs. unfold positional.
  assert (He : Forall number_char
                 (101 :: (if (0 <? n - 1)%Z then 43 else 45) ::
                  N_text (Z.abs_N (n - 1))))
    by (apply exponent_chars; destruct (0 <? n - 1)%Z; auto).
  destruct (_ && _).
  { apply Forall_app. split; [exact Hs|apply digit_number_char, zeros_digits]. }
  destruct (_ && _).
  { apply Forall_app. split.
    - now apply Forall_cut.
    - constructor; [unfold number_char; auto|now apply Forall_cut]. }
  destruct (_ && _).
  { constructor; [unfold number_char, is_digit; right; left; lia|].
    constructor; [unfold number_char; auto|].
    apply Forall_app. split; [apply digit_number_char, zeros_digits|exact Hs]. }
  destruct s as [|c [|d s']].
  - exact He.
  - apply Forall_app. split; [exact Hs|exact He].
  - inversion Hs as [|? ? Hc Hs']; subst.
    constructor; [exact Hc|]. constructor; [unfold number_char; auto|].
    apply Forall_app. split; [exact Hs'|exact He].
Qed.

Lemma positional_head (s : jsstring) (n : Z) :
  Forall is_digit s -> s <> [] ->
  exists c r, positional s n = c :: r /\ is_digit c.
Proof.
  intros H Hne. destruct s as [|c s]; [congruence|].
  inversion H as [|? ? Hc Hs]; subst. unfold positional.
  destruct (_ && _); [simpl; eauto|].
  destruct ((0 <? n)%Z && _) eqn:E.
  { apply andb_true_iff in E as [E _]. apply Z.ltb_lt in E.
    destruct (Z.to_nat n) as [|k] eqn:Ek; [lia|]. simpl. eauto. }
  clear E. destruct (_ && _).
  { exists 48, (46 :: repeat 48 (Z.to_nat (- n)) ++ c :: s).
    split; [reflexivity|unfold is_digit; lia]. }
  destruct s as [|d s']; simpl; eauto.
Qed.

Lemma signed_chars (negative : bool) (t : jsstring) :
  Forall number_char t -> Forall number_char (signed negative t).
Proof.
  intros H. destruct negative; simpl; [|exact H].
  constructor; [unfold number_char; auto|exact H].
Qed.

Lemma signed_head (negative : bool) (t : jsstring) :
  (exists c r, t = c :: r /\ is_digit c) ->
  exists c r, signed negative t = c :: r /\ (c = 45 \/ is_digit c).
Proof.
  intros (c & r & -> & Hc). destruct negative; simpl; eauto 6.
Qed.

Lemma integer_text_head (n : Z) :
  exists c r, integer_text n = c :: r /\ (c = 45 \/ is_digit c).
Proof.
  destruct n as [|p|p]; simpl integer_text.
  - destruct (N_text_head 0) as (c & r & E & H); eauto 6.
  - destruct (N_text_head (Npos p)) as (c & r & E & H); eauto 6.
  - eexists; eexists; split; [reflexivity|]; auto.
Qed.

Lemma integer_text_chars (n : Z) : Forall number_char (integer_text n).
Proof.
  destruct n; simpl integer_text;
    try (apply digit_number_char, N_text_digits).
  constructor; [unfold number_char; auto|apply digit_number_char, N_text_digits].
Qed.

(** The first code unit of a number text. *)
Lemma number_text_head (n : Z) :
  exists c r, number_text n = c :: r /\ (c = 45 \/ is_digit c).
Proof.
  unfold number_text. destruct (_ <? _)%Z; [apply integer_text_head|].
  destruct (significant_digits _ (N_text_digits (Z.abs_N n))) as [H1 H2].
  apply signed_head, positional_head; assumption.
Qed.

Lemma number_text_chars (n : Z) : Forall number_char (number_text n).
Proof.
  unfold number_text. destruct (_ <? _)%Z; [apply integer_text_chars|].
  apply signed_chars, positional_chars, significant_digits, N_text_digits.
Qed.

Lemma decimal_text_head (m : Z) (e : N) :
  exists c r, decimal_text m e = c :: r /\ (c = 45 \/ is_digit c).
Proof.
  unfold decimal_text.
  destruct (significant_digits _ (N_text_digits (Z.abs_N m))) as [H1 H2].
  apply signed_head, positional_head; assumption.
Qed.

Lemma decimal_text_chars (m : Z) (e : N) : Forall number_char (decimal_text m e).
Proof.
  unfold decimal_text.
  apply signed_chars, positional_chars, significant_digits, N_text_digits.
Qed.

Lemma hex_value_digit (x : N) : x < 16 -> hex_value (hex_digit x) = Some x.
Proof.
  intros H.
  assert (E : x = 0 \/ x = 1 \/ x = 2 \/ x = 3 \/ x = 4 \/ x = 5 \/ x = 6 \/
              x = 7 \/ x = 8 \/ x = 9 \/ x = 10 \/ x = 11 \/ x = 12 \/
              x = 13 \/ x = 14 \/ x = 15) by lia.
  repeat (destruct E as [->|E]; [reflexivity|]). subst; reflexivity.
Qed.

Lemma nibble (a : N) : N.land a 15 = a mod 16.
Proof. change 15 with (N.ones 4). now rewrite N.land_ones. Qed.

Lemma hex4_escape (c : N) :
  c < 65536 ->
  hex4 (hex_digit (N.land (N.shiftr c 12) 15))
       (hex_digit (N.land (N.shiftr c 8) 15))
       (hex_digit (N.land (N.shiftr c 4) 15))
       (hex_digit (N.land c 15)) = Some c.
Proof.
  intros H. unfold hex4. rewrite !nibble, !N.shiftr_div_pow2.
  change (2 ^ 12) with 4096. change (2 ^ 8) with 256. change (2 ^ 4) with 16.
  rewrite !hex_value_digit by (apply N.mod_lt; discriminate).
  f_equal. zify. Z.to_euclidean_division_equations. lia.
Qed.

Lemma parse_chars_raw (c : N) (r : jsstring) :
  c <> 34 -> c <> 92 -> 32 <= c ->
  parse_chars (c :: r) = and_then c (parse_chars r).
Proof.
  intros H1 H2 H3. simpl.
  destruct (N.eqb_spec c 34); [contradiction|].
  destruct (N.eqb_spec c 92); [contradiction|].
  destruct (N.ltb_spec c 32); [lia|]. reflexivity.
Qed.

Lemma parse_chars_unicode (c : N) (r : jsstring) :
  c < 65536 ->
  parse_chars (unicode_escape c ++ r) = and_then c (parse_chars r).
Proof.
  intros H. unfold unicode_escape.
  cbn [app parse_chars]. cbn [N.eqb Pos.eqb].
  rewrite (hex4_escape c H). reflexivity.
Qed.

Lemma parse_chars_unit (c : N) (r : jsstring) :
  is_high c = false -> is_low c = false ->
  parse_chars (escape_unit c ++ r) = and_then c (parse_chars r).
Proof.
  intros Hh Hl. unfold escape_unit.
  repeat match goal with
         | |- context [if ?a =? ?b then _ else _] =>
             destruct (N.eqb_spec a b); [subst; reflexivity|]
         end.
  destruct (N.ltb_spec c 32).
  - apply parse_chars_unicode. lia.
  - apply parse_chars_raw; auto.
Qed.

Lemma surrogate_range (c : N) :
  is_high c = true \/ is_low c = true -> 32 <= c < 65536 /\ c <> 34 /\ c <> 92.
Proof.
  unfold is_high, is_low. rewrite !andb_true_iff, !N.leb_le. lia.
Qed.

Lemma quote_units_cons (c : N) (s : jsstring) :
  quote_units (c :: s) =
  if is_high c then
    match s with
    | d :: s'' =>
        if is_low d then c :: d :: quote_units s''
        else unicode_escape c ++ quote_units s
    | [] => unicode_escape c
    end
  else if is_low c then unicode_escape c ++ quote_units s
  else escape_unit c ++ quote_units s.
Proof. reflexivity. Qed.

(** Reading back a quoted string. *)
Lemma parse_quote_units (s rest : jsstring) :
  parse_chars (quote_units s ++ 34 :: rest) = Some (s, rest).
Proof.
  remember (List.length s) as n eqn:Hn.
  revert s Hn. induction n as [n IH] using lt_wf_ind. intros s Hn.
  destruct s as [|c s]; [reflexivity|].
  rewrite quote_units_cons.
  destruct (is_high c) eqn:Hh.
  - destruct (surrogate_range c (or_introl Hh)) as (Hr & H34 & H92).
    destruct s as [|d s].
    + rewrite parse_chars_unicode by lia. reflexivity.
    + cbv beta iota. destruct (is_low d) eqn:Hl.
      * destruct (surrogate_range d (or_intror Hl)) as (Hr' & H34' & H92').
        simpl app. rewrite parse_chars_raw by lia.
        rewrite parse_chars_raw by lia.
        rewrite (IH (List.length s)); [reflexivity| simpl in Hn; lia | reflexivity].
      * rewrite <- app_assoc, parse_chars_unicode by lia.
        rewrite (IH (List.length (d :: s))); [reflexivity| simpl in *; lia | reflexivity].
  - destruct (is_low c) eqn:Hl.
    + destruct (surrogate_range c (or_intror Hl)) as (Hr & H34 & H92).
      rewrite <- app_assoc, parse_chars_unicode by lia.
      rewrite (IH (List.length s)); [reflexivity| simpl in *; lia | reflexivity].
    + rewrite <- app_assoc, parse_chars_unit by assumption.
      rewrite (IH (List.length s)); [reflexivity| simpl in *; lia | reflexivity].
Qed.

(** * Objects keep their properties when they are rebuilt *)

Lemma precedes_irrefl (k : jsstring) : precedes k k = false.
Proof.
  unfold precedes. destruct (array_index k).
  - apply N.ltb_irrefl.
  - now rewrite str_eqb_refl.
Qed.

Lemma ordered_snoc (ks : list jsstring) (k : jsstring) :
  ordered (ks ++ [k]) = true ->
  ordered ks = true /\ Forall (fun k0 => precedes k0 k = true) ks.
Proof.
  induction ks as [|k0 ks IH]; simpl; [auto|].
  rewrite !andb_true_iff, forallb_app, andb_true_iff. simpl.
  rewrite andb_true_r. intros [[H1 H2] H3].
  destruct (IH H3) as [H4 H5]. auto.
Qed.

Lemma lookup_fresh (k : jsstring) (props : list (jsstring * value)) :
  Forall (fun k0 => precedes k0 k = true) (map fst props) ->
  lookup k props = None.
Proof.
  induction props as [|[k0 v0] props IH]; simpl; intros H; [reflexivity|].
  inversion H as [|? ? H1 H2]; subst.
  destruct (str_eqb k k0) eqn:E.
  - apply str_eqb_eq in E; subst. now rewrite precedes_irrefl in H1.
  - auto.
Qed.

Lemma insert_index_last (i : N) (k : jsstring) (v : value)
  (props : list (jsstring * value)) :
  array_index k = Some i ->
  Forall (fun k0 => precedes k0 k = true) (map fst props) ->
  insert_index i k v props = props ++ [(k, v)].
Proof.
  intros Hk. induction props as [|[k0 v0] props IH]; simpl; intros H;
    [reflexivity|].
  inversion H as [|? ? H1 H2]; subst. unfold precedes in H1. rewrite Hk in H1.
  destruct (array_index k0) as [j|]; [|discriminate].
  apply N.ltb_lt in H1. destruct (N.ltb_spec i j); [lia|].
  now rewrite IH.
Qed.

Lemma obj_set_last (props : list (jsstring * value)) (k : jsstring) (v : value) :
  Forall (fun k0 => precedes k0 k = true) (map fst props) ->
  obj_set props k v = props ++ [(k, v)].
Proof.
  intros H. unfold obj_set, has_key. rewrite (lookup_fresh _ _ H).
  destruct (array_index k) eqn:E; [|reflexivity].
  now apply insert_index_last.
Qed.

Lemma build_snoc (members : list (jsstring * value)) (k : jsstring) (v : value) :
  build (members ++ [(k, v)]) = obj_set (build members) k v.
Proof. unfold build. now rewrite fold_left_app. Qed.

(** An object whose keys are in enumeration order is rebuilt as it is. *)
Lemma build_ordered (props : list (jsstring * value)) :
  ordered (map fst props) = true -> build props = props.
Proof.
  induction props as [|[k v] props IH] using rev_ind; [reflexivity|].
  rewrite map_app. simpl. intros H.
  destruct (ordered_snoc _ _ H) as [H1 H2].
  rewrite build_snoc, (IH H1). now apply obj_set_last.
Qed.

(** * [JSON.parse] reads back what [JSON.stringify] wrote *)

Section ValueInduction.
Variable P : value -> Prop.
Hypothesis P_undefined : P Undefined.
Hypothesis P_null : P Null.
Hypothesis P_bool : forall b, P (Bool b).
Hypothesis P_num : forall n, P (Num n).
Hypothesis P_bigint : forall n, P (BigInt n).
Hypothesis P_str : forall s, P (Str s).
Hypothesis P_arr : forall items, Forall P items -> P (Arr items).
Hypothesis P_obj :
  forall props, Forall (fun kv => P (snd kv)) props -> P (Obj props).
Hypothesis P_dec : forall m e, P (Dec m e).

Lemma value_induction : forall v, P v.
Proof.
  refine (fix IH (v : value) : P v :=
    match v with
    | Undefined => P_undefined
    | Null => P_null
    | Bool b => P_bool b
    | Num n => P_num n
    | BigInt n => P_bigint n
    | Str s => P_str s
    | Arr items =>
        P_arr items
          ((fix all (l : list value) : Forall P l :=
              match l with
              | [] => Forall_nil P
              | x :: l' => Forall_cons x (IH x) (all l')
              end) items)
    | Obj props =>
        P_obj props
          ((fix all (l : list (jsstring * value))
              : Forall (fun kv => P (snd kv)) l :=
              match l with
              | [] => Forall_nil _
              | kv :: l' => Forall_cons kv (IH (snd kv)) (all l')
              end) props)
    | Dec m e => P_dec m e
    end).
Qed.

End ValueInduction.

Lemma starter_not_ws (c : N) : starter c -> is_json_ws c = false.
Proof.
  unfold starter, is_digit, is_json_ws. intros H.
  repeat match goal with
         | |- context [?a =? ?b] => destruct (N.eqb_spec a b); [lia|]
         end.
  reflexivity.
Qed.

Lemma skip_ws_starter (c : N) (r : jsstring) :
  starter c -> skip_ws (c :: r) = c :: r.
Proof. intros H. simpl. now rewrite starter_not_ws. Qed.

Lemma ser_head (v : value) (t : jsstring) :
  ser v = Text t -> exists c t', t = c :: t' /\ starter c.
Proof.
  unfold starter.
  destruct v as [| |b|n|n|s|items|props|m e]; simpl; intros H;
    try discriminate.
  - injection H as <-. do 2 eexists; split; [reflexivity|]. tauto.
  - injection H as <-. destruct b; do 2 eexists; (split; [reflexivity|]); tauto.
  - injection H as <-. destruct (number_text_head n) as (c & r & E & Hc).
    exists c, r. split; [assumption|]. tauto.
  - injection H as <-. do 2 eexists; split; [reflexivity|]. tauto.
  - destruct (ser_elements ser items); [|discriminate]. injection H as <-.
    do 2 eexists; split; [reflexivity|]. tauto.
  - destruct (ser_members ser props); [|discriminate]. injection H as <-.
    do 2 eexists; split; [reflexivity|]. tauto.
  - injection H as <-. destruct (decimal_text_head m e) as (c & r & E & Hc).
    exists c, r. split; [assumption|]. tauto.
Qed.

(** Dispatch of [parse_value] on the first code unit. *)
Lemma parse_value_number (fuel : nat) (c : N) (r : jsstring) :
  c = 45 \/ is_digit c ->
  parse_value (S fuel) (c :: r) =
  match parse_number (c :: r) with
  | Some (n, rest) => Some (Num n, rest)
  | None => parse_decimal (c :: r)
  end.
Proof.
  intros H. unfold is_digit in H. cbn [parse_value].
  rewrite skip_ws_starter by (unfold starter, is_digit; lia).
  repeat match goal with
         | |- context [if ?a =? ?b then _ else _] =>
             destruct (N.eqb_spec a b); [lia|]
         end.
  reflexivity.
Qed.

Lemma join_with_cons (sep : N) (p q : jsstring) (parts : list jsstring) :
  join_with sep (p :: q :: parts) = p ++ sep :: join_with sep (q :: parts).
Proof. reflexivity. Qed.

Lemma join_with_one (sep : N) (p : jsstring) : join_with sep [p] = p.
Proof. reflexivity. Qed.

Lemma number_end_cons (c : N) (r : jsstring) :
  c = 44 \/ c = 93 \/ c = 125 -> number_end (c :: r).
Proof.
  intros H. split; simpl.
  - apply digit_of_none. unfold is_digit. lia.
  - repeat match goal with
           | |- context [?a =? ?b] => destruct (N.eqb_spec a b); [lia|]
           end.
    reflexivity.
Qed.

Lemma number_end_nil : number_end [].
Proof. split; reflexivity. Qed.

Lemma elements_read_back (items : list value) :
  Forall reads_back items ->
  forall parts, ser_elements ser items = Some parts ->
  forallb json_ok items = true -> items <> [] ->
  forall fuel rest, (List.length (join_with 44 parts) < fuel)%nat ->
  parse_elements fuel (join_with 44 parts ++ 93 :: rest) = Some (items, rest).
Proof.
  induction 1 as [|v items Hv Hitems IH]; intros parts Hser Hok Hne fuel rest Hfuel;
    [congruence|].
  simpl in Hser, Hok. apply andb_true_iff in Hok as [Hokv Hoki].
  destruct (ser v) as [t| |] eqn:Ev; try discriminate.
  2:{ destruct v; simpl in *; try discriminate.
      - destruct (ser_elements ser items0); discriminate.
      - destruct (ser_members ser props); discriminate. }
  destruct (ser_elements ser items) as [parts'|] eqn:Ei; [|discriminate].
  simpl in Hser. injection Hser as <-.
  destruct fuel as [|fuel]; [lia|]. cbn [parse_elements].
  destruct items as [|v' items].
  - simpl in Ei. injection Ei as <-. simpl join_with in *.
    rewrite (Hv t Ev Hokv fuel (93 :: rest)); [|lia|apply number_end_cons; auto].
    reflexivity.
  - destruct parts' as [|q parts'].
    { simpl in Ei. destruct (ser v'); try discriminate;
        destruct (ser_elements ser items); discriminate. }
    rewrite join_with_cons in *. rewrite <- app_assoc, <- app_comm_cons.
    rewrite length_app in Hfuel. cbn [List.length] in Hfuel.
    rewrite (Hv t Ev Hokv fuel); [|lia|apply number_end_cons; auto].
    cbn [skip_ws is_json_ws N.eqb Pos.eqb orb]. cbv beta iota.
    rewrite (IH (q :: parts') eq_refl Hoki ltac:(discriminate) fuel rest ltac:(lia)).
    reflexivity.
Qed.

#[local] Arguments quote : simpl never.

Lemma member_text (k t rest : jsstring) :
  (quote k ++ 58 :: t) ++ rest = 34 :: quote_units k ++ 34 :: 58 :: t ++ rest.
Proof. unfold quote. simpl. now rewrite <- !app_assoc. Qed.

Lemma length_quote (k : jsstring) :
  List.length (quote k) = S (S (List.length (quote_units k))).
Proof. unfold quote. simpl. rewrite length_app. simpl. lia. Qed.

Lemma parse_members_step (fuel : nat) (k t rest : jsstring) :
  parse_members (S fuel) (34 :: quote_units k ++ 34 :: 58 :: t ++ rest) =
  match parse_value fuel (t ++ rest) with
  | None => None
  | Some (v, r3) =>
      match skip_ws r3 with
      | [] => None
      | c3 :: r4 =>
          if c3 =? 44 then
            match parse_members fuel r4 with
            | Some (members, rest') => Some ((k, v) :: members, rest')
            | None => None
            end
          else if c3 =? 125 then Some ([(k, v)], r4)
          else None
      end
  end.
Proof.
  cbn [parse_members skip_ws is_json_ws N.eqb Pos.eqb orb]. cbv beta iota.
  rewrite parse_quote_units. reflexivity.
Qed.

Lemma ser_members_ok (props : list (jsstring * value)) (parts : list jsstring) :
  ser_members ser props = Some parts ->
  forallb (fun kv => json_ok (snd kv)) props = true ->
  props <> [] -> parts <> [].
Proof.
  destruct props as [|[k v] props]; [congruence|]. simpl.
  rewrite andb_true_iff. intros H [Hv _] _.
  destruct (ser v) as [t| |] eqn:E; try discriminate.
  - destruct (ser_members ser props); try discriminate. injection H as <-.
    discriminate.
  - destruct v; simpl in *; try discriminate.
    + destruct (ser_elements ser items); discriminate.
    + destruct (ser_members ser props0); discriminate.
Qed.

Lemma members_read_back (props : list (jsstring * value)) :
  Forall (fun kv => reads_back (snd kv)) props ->
  forall parts, ser_members ser props = Some parts ->
  forallb (fun kv => json_ok (snd kv)) props = true -> props <> [] ->
  forall fuel rest, (List.length (join_with 44 parts) < fuel)%nat ->
  parse_members fuel (join_with 44 parts ++ 125 :: rest) = Some (props, rest).
Proof.
  induction 1 as [|[k v] props Hv Hprops IH];
    intros parts Hser Hok Hne fuel rest Hfuel; [congruence|].
  cbn [ser_members forallb snd fst] in Hser, Hok, Hv. apply andb_true_iff in Hok as [Hokv Hoki].
  destruct (ser v) as [t| |] eqn:Ev; try discriminate.
  2:{ destruct v; simpl in *; try discriminate.
      - destruct (ser_elements ser items); discriminate.
      - destruct (ser_members ser props0); discriminate. }
  destruct (ser_members ser props) as [parts'|] eqn:Ei; [|discriminate].
  assert (E' : parts = (quote k ++ 58 :: t) :: parts')
    by (cbn [option_map] in Hser; congruence).
  subst parts. clear Hser.
  destruct fuel as [|fuel]; [lia|].
  destruct props as [|[k' v'] props].
  - simpl in Ei. injection Ei as <-. rewrite join_with_one in *.
    rewrite length_app, length_quote in Hfuel. cbn [List.length] in Hfuel.
    rewrite member_text, parse_members_step.
    rewrite (Hv t Ev Hokv fuel (125 :: rest)); [|lia|apply number_end_cons; auto].
    reflexivity.
  - destruct parts' as [|q parts'].
    { exfalso. now apply (ser_members_ok _ _ Ei Hoki). }
    rewrite join_with_cons in *. rewrite <- app_assoc, <- app_comm_cons.
    rewrite !length_app, length_quote in Hfuel. cbn [List.length] in Hfuel.
    rewrite member_text, parse_members_step.
    rewrite (Hv t Ev Hokv fuel); [|lia|apply number_end_cons; auto].
    cbn [skip_ws is_json_ws N.eqb Pos.eqb orb]. cbv beta iota.
    rewrite (IH (q :: parts') eq_refl Hoki ltac:(discriminate) fuel rest ltac:(lia)).
    reflexivity.
Qed.

Lemma parse_value_string (fuel : nat) (r : jsstring) :
  parse_value (S fuel) (34 :: r) =
  match parse_chars r with
  | Some (t, rest) => Some (Str t, rest)
  | None => None
  end.
Proof. reflexivity. Qed.

Lemma parse_value_array (fuel : nat) (r : jsstring) :
  parse_value (S fuel) (91 :: r) =
  match skip_ws r with
  | [] => None
  | c' :: r' =>
      if c' =? 93 then Some (Arr [], r')
      else
        match parse_elements fuel r with
        | Some (items, rest) => Some (Arr items, rest)
        | None => None
        end
  end.
Proof. reflexivity. Qed.

Lemma parse_value_object (fuel : nat) (r : jsstring) :
  parse_value (S fuel) (123 :: r) =
  match skip_ws r with
  | [] => None
  | c' :: r' =>
      if c' =? 125 then Some (Obj [], r')
      else
        match parse_members fuel r with
        | Some (members, rest) => Some (Obj (build members), rest)
        | None => None
        end
  end.
Proof. reflexivity. Qed.

Lemma ser_elements_head (items : list value) (parts : list jsstring) :
  ser_elements ser items = Some parts -> items <> [] ->
  exists c t', join_with 44 parts = c :: t' /\ (starter c).
Proof.
  destruct items as [|v items]; [congruence|]. simpl. intros H _.
  assert (E : exists t ps, parts = t :: ps /\ (ser v = Text t \/ t = lit "null")).
  { destruct (ser v) as [t| |]; try discriminate;
      destruct (ser_elements ser items); try discriminate;
      injection H as <-; eauto. }
  destruct E as (t & ps & -> & [Ht| ->]).
  - destruct (ser_head _ _ Ht) as (c & t' & -> & Hc).
    exists c. destruct ps; simpl; eauto.
  - exists 110. unfold starter. destruct ps; simpl; eexists; (split; [reflexivity|tauto]).
Qed.

Lemma ser_members_head (props : list (jsstring * value)) (parts : list jsstring) :
  ser_members ser props = Some parts -> parts <> [] ->
  exists t', join_with 44 parts = 34 :: t'.
Proof.
  revert parts. induction props as [|[k v] props IH]; simpl; intros parts H Hne.
  - congruence.
  - destruct (ser v) as [t| |]; try discriminate.
    + destruct (ser_members ser props); try discriminate. injection H as <-.
      destruct l; simpl; eauto.
    + eauto.
Qed.

(** Every serializable value is read back from its text, whatever follows
    the text. *)
Lemma value_reads_back (v : value) : reads_back v.
Proof.
  induction v using value_induction; intros t Ht Hok fuel rest Hfuel Hrest;
    simpl in Ht; try discriminate.
  - injection Ht as <-. do 4 (destruct fuel as [|fuel]; [simpl in Hfuel; lia|]).
    reflexivity.
  - injection Ht as <-. destruct b;
      (do 4 (destruct fuel as [|fuel]; [simpl in Hfuel; lia|])); reflexivity.
  - injection Ht as <-. destruct (number_text_head n) as (c & r & E & Hc).
    destruct fuel as [|fuel]; [rewrite E in Hfuel; simpl in Hfuel; lia|].
    rewrite E. rewrite <- app_comm_cons, (parse_value_number _ _ _ Hc).
    rewrite app_comm_cons, <- E, (parse_number_text _ _ Hok Hrest). reflexivity.
  - injection Ht as <-. destruct fuel as [|fuel]; [simpl in Hfuel; lia|].
    unfold quote. rewrite <- app_comm_cons, <- app_assoc. simpl app.
    now rewrite parse_value_string, parse_quote_units.
  - destruct (ser_elements ser items) as [parts|] eqn:E; [|discriminate].
    injection Ht as <-. simpl in Hok.
    destruct fuel as [|fuel]; [simpl in Hfuel; lia|].
    rewrite <- app_comm_cons, <- app_assoc, parse_value_array.
    simpl in Hfuel. rewrite length_app in Hfuel. simpl in Hfuel.
    destruct items as [|v items].
    + simpl in E. injection E as <-. reflexivity.
    + destruct (ser_elements_head _ _ E ltac:(discriminate)) as (c & t' & Ej & Hc).
      rewrite Ej, <- app_comm_cons, (skip_ws_starter _ _ Hc).
      destruct (N.eqb_spec c 93) as [->|_];
        [unfold starter, is_digit in Hc; lia|].
      rewrite app_comm_cons, <- Ej. simpl app.
      rewrite (elements_read_back _ H _ E Hok ltac:(discriminate));
        [reflexivity|lia].
  - destruct (ser_members ser props) as [parts|] eqn:E; [|discriminate].
    injection Ht as <-. simpl in Hok. apply andb_true_iff in Hok as [Hord Hok].
    destruct fuel as [|fuel]; [simpl in Hfuel; lia|].
    rewrite <- app_comm_cons, <- app_assoc, parse_value_object.
    simpl in Hfuel. rewrite length_app in Hfuel. simpl in Hfuel.
    destruct props as [|kv props].
    + simpl in E. injection E as <-. reflexivity.
    + pose proof (ser_members_ok _ _ E Hok ltac:(discriminate)) as Hne.
      destruct (ser_members_head _ _ E Hne) as (t' & Ej).
      rewrite Ej, <- app_comm_cons.
      cbn [skip_ws is_json_ws N.eqb Pos.eqb orb]. cbv beta iota.
      rewrite app_comm_cons, <- Ej. simpl app.
      rewrite (members_read_back _ H _ E Hok ltac:(discriminate));
        [|lia].
      now rewrite (build_ordered _ Hord).
Qed.

Lemma ser_elements_total (items : list value) :
  Forall (fun v => exists t, ser v = Text t) items ->
  exists parts, ser_elements ser items = Some parts.
Proof.
  induction 1 as [|v items [t Hv] _ [parts IH]]; simpl; [eauto|].
  rewrite Hv, IH. simpl. eauto.
Qed.

Lemma ser_members_total (props : list (jsstring * value)) :
  Forall (fun kv => exists t, ser (snd kv) = Text t) props ->
  exists parts, ser_members ser props = Some parts.
Proof.
  induction 1 as [|[k v] props [t Hv] _ [parts IH]]; simpl in *; [eauto|].
  rewrite Hv, IH. simpl. eauto.
Qed.

(** [JSON.stringify] neither throws nor answers [undefined] on a
    serializable value. *)
Lemma ser_total (v : value) : json_ok v = true -> exists t, ser v = Text t.
Proof.
  induction v as [| |b|n|n|s|items IH|props IH|m e] using value_induction;
    simpl; intros Hok; try discriminate; eauto.
  - destruct (ser_elements_total items) as [parts ->]; eauto.
    rewrite forallb_forall in Hok. rewrite Forall_forall in *. auto.
  - apply andb_true_iff in Hok as [_ Hok].
    destruct (ser_members_total props) as [parts ->]; eauto.
    rewrite forallb_forall in Hok. rewrite Forall_forall in *. auto.
Qed.

(** The round trip: a serializable value is what [JSON.parse] makes of its
    [JSON.stringify] text. *)
Lemma parse_stringify (v : value) (t : jsstring) :
  json_ok v = true -> stringify v = Text t -> parse t = Some v.
Proof.
  intros Hok Ht. unfold parse.
  pose proof (value_reads_back v t Ht Hok (S (List.length t)) []
                ltac:(lia) number_end_nil) as H.
  rewrite app_nil_r in H. rewrite H. reflexivity.
Qed.

(** * A JSON text is one line and is not blank *)

Lemma plain_app (s t : jsstring) : plain s -> plain t -> plain (s ++ t).
Proof. intros Hs Ht. apply Forall_app. now split. Qed.

Lemma plain_not_in (t : jsstring) : plain t -> ~ In NL t.
Proof. unfold plain. rewrite Forall_forall. intros H E. now apply (H NL E). Qed.

Lemma hex_digit_plain (n : N) : hex_digit n <> NL.
Proof. unfold hex_digit, NL. destruct (N.ltb_spec n 10); lia. Qed.

Lemma unicode_escape_plain (c : N) : plain (unicode_escape c).
Proof.
  unfold unicode_escape. repeat constructor; try apply hex_digit_plain;
    unfold NL; lia.
Qed.

Lemma escape_unit_plain (c : N) : plain (escape_unit c).
Proof.
  unfold escape_unit.
  repeat match goal with
         | |- context [if ?a =? ?b then _ else _] =>
             destruct (N.eqb_spec a b);
             [repeat constructor; unfold NL; lia|]
         end.
  destruct (N.ltb_spec c 32).
  - apply unicode_escape_plain.
  - repeat constructor. assumption.
Qed.

Lemma quote_units_plain (s : jsstring) : plain (quote_units s).
Proof.
  remember (List.length s) as n eqn:Hn.
  revert s Hn. induction n as [n IH] using lt_wf_ind. intros s Hn.
  destruct s as [|c s]; [constructor|].
  rewrite quote_units_cons.
  destruct (is_high c) eqn:Hh.
  - destruct (surrogate_range c (or_introl Hh)) as (Hr & _).
    destruct s as [|d s]; [apply unicode_escape_plain|].
    destruct (is_low d) eqn:Hl.
    + destruct (surrogate_range d (or_intror Hl)) as (Hr' & _).
      constructor; [unfold NL; lia|]. constructor; [unfold NL; lia|].
      apply (IH (List.length s)); [simpl in Hn; lia|reflexivity].
    + apply plain_app; [apply unicode_escape_plain|].
      apply (IH (List.length (d :: s))); [simpl in *; lia|reflexivity].
  - destruct (is_low c).
    + apply plain_app; [apply unicode_escape_plain|].
      apply (IH (List.length s)); [simpl in *; lia|reflexivity].
    + apply plain_app; [apply escape_unit_plain|].
      apply (IH (List.length s)); [simpl in *; lia|reflexivity].
Qed.

Lemma quote_plain (s : jsstring) : plain (quote s).
Proof.
  unfold quote. constructor; [unfold NL; lia|].
  apply plain_app; [apply quote_units_plain|].
  repeat constructor. unfold NL; lia.
Qed.

Lemma number_chars_plain (t : jsstring) : Forall number_char t -> plain t.
Proof. apply Forall_impl. unfold number_char, is_digit, NL. lia. Qed.

Lemma number_text_plain (n : Z) : plain (number_text n).
Proof. apply number_chars_plain, number_text_chars. Qed.

Lemma decimal_text_plain (m : Z) (e : N) : plain (decimal_text m e).
Proof. apply number_chars_plain, decimal_text_chars. Qed.

Lemma join_with_plain (parts : list jsstring) :
  Forall plain parts -> plain (join_with 44 parts).
Proof.
  induction 1 as [|p parts Hp Hparts IH]; [constructor|].
  destruct parts as [|q parts]; [assumption|].
  rewrite join_with_cons. apply plain_app; [assumption|].
  constructor; [unfold NL; lia|assumption].
Qed.

Lemma lit_null_plain : plain (lit "null").
Proof. repeat constructor; unfold NL; simpl; lia. Qed.

Lemma ser_elements_plain (items : list value) (parts : list jsstring) :
  Forall (fun v => forall t, ser v = Text t -> plain t) items ->
  ser_elements ser items = Some parts -> Forall plain parts.
Proof.
  intros H. revert parts.
  induction H as [|v items Hv _ IH]; simpl; intros parts E.
  - injection E as <-. constructor.
  - destruct (ser v) as [t| |]; try discriminate;
      destruct (ser_elements ser items) as [ps|]; try discriminate;
      injection E as <-; constructor; auto using lit_null_plain.
Qed.

Lemma ser_members_plain (props : list (jsstring * value)) (parts : list jsstring) :
  Forall (fun kv => forall t, ser (snd kv) = Text t -> plain t) props ->
  ser_members ser props = Some parts -> Forall plain parts.
Proof.
  intros H. revert parts.
  induction H as [|[k v] props Hv _ IH]; intros parts E;
    cbn [ser_members snd] in *.
  - injection E as <-. constructor.
  - destruct (ser v) as [t| |].
    + destruct (ser_members ser props) as [ps|]; [|discriminate].
      assert (E' : parts = (quote k ++ 58 :: t) :: ps)
        by (cbn [option_map] in E; congruence).
      subst parts. constructor; [|apply IH; reflexivity].
      apply plain_app; [apply quote_plain|].
      constructor; [unfold NL; lia|apply Hv; reflexivity].
    + apply IH, E.
    + discriminate.
Qed.

(** [JSON.stringify] writes no line terminator: every frame is one line. *)
Lemma ser_plain (v : value) (t : jsstring) : ser v = Text t -> plain t.
Proof.
  revert t.
  induction v as [| |b|n|n|s|items IH|props IH|m e] using value_induction;
    simpl; intros t E; try discriminate.
  - injection E as <-. apply lit_null_plain.
  - injection E as <-. destruct b; repeat constructor; unfold NL; simpl; lia.
  - injection E as <-. apply number_text_plain.
  - injection E as <-. apply quote_plain.
  - destruct (ser_elements ser items) as [parts|] eqn:Ep; [|discriminate].
    injection E as <-. constructor; [unfold NL; lia|].
    apply plain_app; [|repeat constructor; unfold NL; lia].
    apply join_with_plain. eapply ser_elements_plain; eauto.
  - destruct (ser_members ser props) as [parts|] eqn:Ep; [|discriminate].
    injection E as <-. constructor; [unfold NL; lia|].
    apply plain_app; [|repeat constructor; unfold NL; lia].
    apply join_with_plain. eapply ser_members_plain; eauto.
  - injection E as <-. apply decimal_text_plain.
Qed.

Lemma starter_not_whitespace (c : N) : starter c -> is_whitespace c = false.
Proof.
  unfold starter, is_digit, is_whitespace. intros H.
  repeat match goal with
         | |- context [?a =? ?b] => destruct (N.eqb_spec a b); [lia|]
         end.
  destruct (N.leb_spec 8192 c); [lia|]. reflexivity.
Qed.

Lemma trimStart_snoc (s : jsstring) (c : N) :
  is_whitespace c = false -> trimStart (s ++ [c]) <> [].
Proof.
  intros H. induction s as [|d s IH]; simpl.
  - rewrite H. discriminate.
  - destruct (is_whitespace d); [assumption|discriminate].
Qed.

(** A text that starts with a code unit other than white space is not
    blank. *)
Lemma not_blank (c : N) (t : jsstring) :
  is_whitespace c = false -> blank (c :: t) = false.
Proof.
  intros H. unfold blank, trim. simpl trimStart. rewrite H.
  unfold trimEnd. destruct (rev (c :: t)) as [|x r] eqn:E.
  - apply (f_equal (@List.length N)) in E. rewrite length_rev in E. discriminate.
  - assert (Hr : rev (trimStart (x :: r)) <> []).
    { intros E'. apply (f_equal (@rev N)) in E'.
      rewrite rev_involutive in E'. simpl rev in E'.
      rewrite <- E in E'. simpl rev in E'.
      now apply (trimStart_snoc (rev t) c H). }
    destruct (rev (trimStart (x :: r))); [congruence|reflexivity].
Qed.

Lemma ser_not_blank (v : value) (t : jsstring) :
  ser v = Text t -> blank t = false.
Proof.
  intros H. destruct (ser_head _ _ H) as (c & t' & -> & Hc).
  apply not_blank, starter_not_whitespace, Hc.
Qed.

(** ** One frame in one chunk *)

Lemma split_frame (t : jsstring) :
  plain t -> split_nl (t ++ [NL]) = [t; []].
Proof.
  induction 1 as [|c t Hc Ht IH]; [reflexivity|].
  simpl app. rewrite split_nl_cons, IH.
  destruct (N.eqb_spec c NL); [contradiction|reflexivity].
Qed.

Lemma pop_frame (t : jsstring) :
  plain t -> pop (split_nl (t ++ [NL])) = (Some [], [t]).
Proof. intros H. now rewrite split_frame. Qed.

Lemma frame_object (props : list (jsstring * value)) (text : jsstring) :
  frame (Obj props) = Some text ->
  exists t, stringify (Obj props) = Text t /\ text = t ++ [NL] /\ plain t /\
            blank t = false.
Proof.
  unfold frame. destruct (stringify (Obj props)) as [t| |] eqn:E.
  - intros [= <-]. exists t. repeat split.
    + now apply (ser_plain (Obj props)).
    + now apply (ser_not_blank (Obj props)).
  - simpl in E. unfold stringify in E. simpl in E.
    destruct (ser_members ser props); discriminate.
  - discriminate.
Qed.

(** * UTF-8: what is written is what is read, one whole text at a time *)

Lemma all_bits_spec (P : N -> bool) (k : nat) (prefix x : N) :
  all_bits k prefix P = true -> x < 2 ^ N.of_nat k ->
  P (prefix * 2 ^ N.of_nat k + x) = true.
Proof.
  revert prefix x. induction k as [|k IH]; intros prefix x H Hx.
  - change (2 ^ N.of_nat 0) with 1 in *. simpl in H.
    assert (E : x = 0) by lia. rewrite E, N.mul_1_r, N.add_0_r. exact H.
  - cbn [all_bits] in H.
    destruct (all_bits k (2 * prefix) P) eqn:E0; [|discriminate H].
    rewrite Nat2N.inj_succ, N.pow_succ_r' in *.
    destruct (N.lt_ge_cases x (2 ^ N.of_nat k)) as [Hlt|Hge].
    + specialize (IH (2 * prefix) x E0 Hlt).
      replace (prefix * (2 * 2 ^ N.of_nat k) + x)
        with (2 * prefix * 2 ^ N.of_nat k + x) by lia.
      exact IH.
    + specialize (IH (2 * prefix + 1) (x - 2 ^ N.of_nat k) H ltac:(lia)).
      replace (prefix * (2 * 2 ^ N.of_nat k) + x)
        with ((2 * prefix + 1) * 2 ^ N.of_nat k + (x - 2 ^ N.of_nat k)) by lia.
      exact IH.
Qed.

Lemma decodes_back_checked : all_bits 21 0 decodes_back = true.
Proof. vm_compute. reflexivity. Qed.

Lemma scalar_decodes_back (cp : N) :
  scalar cp = true -> exists d, feed idle (encode_point cp) = (d, [cp]) /\ needed d = 0.
Proof.
  intros Hs.
  assert (Hlt : cp < 2 ^ N.of_nat 21).
  { unfold scalar in Hs. apply andb_true_iff in Hs as [Hs _].
    apply N.ltb_lt in Hs. apply N.lt_trans with (1 := Hs). reflexivity. }
  pose proof (all_bits_spec decodes_back 21 0 cp decodes_back_checked Hlt) as H.
  rewrite N.mul_0_l, N.add_0_l in H. unfold decodes_back in H. rewrite Hs in H.
  simpl negb in H. simpl orb in H.
  destruct (feed idle (encode_point cp)) as [d out].
  apply andb_true_iff in H as [H1 H2]. apply N.eqb_eq in H1.
  destruct out as [|x [|y out]]; try discriminate.
  apply N.eqb_eq in H2. subst x. eauto.
Qed.

Lemma decode_from_idle (d : decoder) (bs : bytes) :
  needed d = 0 -> decode_from d bs = decode_from idle bs.
Proof.
  intros H. destruct bs as [|b bs]; simpl.
  - now rewrite H.
  - unfold decode_byte. now rewrite H.
Qed.

Lemma decode_from_app (bs rest : bytes) (d : decoder) :
  decode_from d (bs ++ rest) =
  snd (feed d bs) ++ decode_from (fst (feed d bs)) rest.
Proof.
  revert d. induction bs as [|b bs IH]; intros d; simpl; [reflexivity|].
  destruct (decode_byte d b) as [d1 out1]. rewrite IH.
  destruct (feed d1 bs) as [d2 out2]. simpl. now rewrite app_assoc.
Qed.

Lemma decode_point (cp : N) (rest : bytes) :
  scalar cp = true ->
  decode_from idle (encode_point cp ++ rest) = cp :: decode_from idle rest.
Proof.
  intros Hs. destruct (scalar_decodes_back cp Hs) as (d & Hf & Hn).
  rewrite decode_from_app, Hf. simpl. now rewrite (decode_from_idle d rest Hn).
Qed.

Lemma pair_scalar (c d : N) :
  is_high c = true -> is_low d = true ->
  scalar (65536 + N.shiftl (c - 55296) 10 + (d - 56320)) = true /\
  units_of (65536 + N.shiftl (c - 55296) 10 + (d - 56320)) = [c; d].
Proof.
  unfold is_high, is_low, scalar, units_of. intros Hc Hd.
  apply andb_true_iff in Hc as [H1 H2]. apply andb_true_iff in Hd as [H3 H4].
  apply N.leb_le in H1, H2, H3, H4.
  rewrite N.shiftl_mul_pow2. change (2 ^ 10) with 1024.
  set (cp := 65536 + (c - 55296) * 1024 + (d - 56320)).
  assert (Hcp : 65536 <= cp < 1114112) by (unfold cp; lia).
  split.
  - destruct (N.ltb_spec cp 1114112); [|lia].
    destruct (N.leb_spec 55296 cp); [|lia].
    destruct (N.leb_spec cp 57343); [lia|]. reflexivity.
  - destruct (N.ltb_spec cp 65536); [lia|].
    rewrite N.shiftr_div_pow2. change (2 ^ 10) with 1024.
    change 1023 with (N.ones 10). rewrite N.land_ones. change (2 ^ 10) with 1024.
    assert (E : cp - 65536 = (c - 55296) * 1024 + (d - 56320)) by (unfold cp; lia).
    rewrite E. clear E Hcp. clearbody cp.
    f_equal; [|f_equal]; zify; Z.to_euclidean_division_equations; lia.
Qed.

Lemma encode_cons (c : N) (s : jsstring) :
  encode (c :: s) =
  if is_high c then
    match s with
    | d :: s'' =>
        if is_low d then
          encode_point (65536 + N.shiftl (c - 55296) 10 + (d - 56320))
            ++ encode s''
        else encode_point REPLACEMENT ++ encode s
    | [] => encode_point REPLACEMENT
    end
  else if is_low c then encode_point REPLACEMENT ++ encode s
  else encode_point c ++ encode s.
Proof. reflexivity. Qed.

(** Decoding the bytes of a well-formed text, all in one buffer, gives the
    text back. *)
Lemma toString_encode (s : jsstring) :
  well_formed s = true -> toString (encode s) = s.
Proof.
  unfold toString.
  remember (List.length s) as n eqn:Hn.
  revert s Hn. induction n as [n IH] using lt_wf_ind. intros s Hn Hwf.
  destruct s as [|c s]; [reflexivity|].
  cbn [well_formed] in Hwf. rewrite encode_cons.
  destruct (is_high c) eqn:Hh.
  - destruct s as [|d s]; [discriminate|].
    apply andb_true_iff in Hwf as [Hl Hwf]. rewrite Hl.
    destruct (pair_scalar c d Hh Hl) as [Hs Hu].
    rewrite (decode_point _ _ Hs). cbn [flat_map]. rewrite Hu. simpl.
    f_equal. f_equal.
    apply (IH (List.length s)); [simpl in Hn; lia|reflexivity|assumption].
  - apply andb_true_iff in Hwf as [Hwf Hwf'].
    apply andb_true_iff in Hwf as [Hl Hr].
    apply negb_true_iff in Hl. rewrite Hl.
    assert (Hs : scalar c = true).
    { unfold scalar, is_high, is_low in *. apply N.ltb_lt in Hr.
      destruct (N.ltb_spec c 1114112); [|lia]. simpl.
      apply negb_true_iff. apply andb_false_iff.
      apply andb_false_iff in Hh, Hl.
      rewrite !N.leb_gt in *. lia. }
    rewrite (decode_point _ _ Hs). cbn [flat_map].
    unfold units_of at 1. rewrite Hr. simpl. f_equal.
    apply (IH (List.length s)); [simpl in Hn; lia|reflexivity|assumption].
Qed.

(** * The texts of [JSON.stringify] are well formed *)

Lemma closed_nil : closed [].
Proof. intros rest. reflexivity. Qed.

Lemma closed_app (a b : jsstring) : closed a -> closed b -> closed (a ++ b).
Proof. intros Ha Hb rest. now rewrite <- app_assoc, Ha, Hb. Qed.

Lemma closed_unit (c : N) :
  is_high c = false -> is_low c = false -> c < 65536 -> closed [c].
Proof.
  intros Hh Hl Hc rest. simpl. rewrite Hh, Hl.
  destruct (N.ltb_spec c 65536); [reflexivity|lia].
Qed.

Lemma closed_ascii (c : N) : c < 128 -> closed [c].
Proof.
  intros H. apply closed_unit; [| |lia]; unfold is_high, is_low;
    apply andb_false_iff; left; apply N.leb_gt; lia.
Qed.

Lemma closed_cons (c : N) (t : jsstring) : closed [c] -> closed t -> closed (c :: t).
Proof. intros Hc Ht. apply (closed_app [c] t Hc Ht). Qed.

Lemma closed_all_ascii (t : jsstring) : Forall (fun c => c < 128) t -> closed t.
Proof.
  induction 1 as [|c t Hc _ IH]; [apply closed_nil|].
  apply closed_cons; [now apply closed_ascii|exact IH].
Qed.

Lemma closed_pair (c d : N) : is_high c = true -> is_low d = true -> closed [c; d].
Proof. intros Hh Hl rest. simpl. now rewrite Hh, Hl. Qed.

Lemma hex_digit_ascii (n : N) : n < 16 -> hex_digit n < 128.
Proof. intros H. unfold hex_digit. destruct (N.ltb_spec n 10); lia. Qed.

Lemma nibble_lt (a : N) : N.land a 15 < 16.
Proof.
  change 15 with (N.ones 4). rewrite N.land_ones. now apply N.mod_lt.
Qed.

Lemma unicode_escape_closed (c : N) : closed (unicode_escape c).
Proof.
  apply closed_all_ascii. unfold unicode_escape.
  repeat constructor; try (apply hex_digit_ascii, nibble_lt); lia.
Qed.

Lemma escape_unit_closed (c : N) :
  is_high c = false -> is_low c = false -> c < 65536 -> closed (escape_unit c).
Proof.
  intros Hh Hl Hc. unfold escape_unit.
  repeat match goal with
         | |- context [if ?a =? ?b then _ else _] =>
             destruct (N.eqb_spec a b);
             [apply closed_all_ascii; repeat constructor; lia|]
         end.
  destruct (N.ltb_spec c 32).
  - apply unicode_escape_closed.
  - now apply closed_unit.
Qed.

Lemma quote_units_cons' (c : N) (s : jsstring) :
  quote_units (c :: s) =
  if is_high c then
    match s with
    | d :: s'' =>
        if is_low d then c :: d :: quote_units s''
        else unicode_escape c ++ quote_units s
    | [] => unicode_escape c
    end
  else if is_low c then unicode_escape c ++ quote_units s
  else escape_unit c ++ quote_units s.
Proof. reflexivity. Qed.

Lemma quote_units_closed (s : jsstring) :
  in_range s = true -> closed (quote_units s).
Proof.
  remember (List.length s) as n eqn:Hn.
  revert s Hn. induction n as [n IH] using lt_wf_ind. intros s Hn Hr.
  destruct s as [|c s]; [apply closed_nil|].
  simpl in Hr. apply andb_true_iff in Hr as [Hc Hr]. apply N.ltb_lt in Hc.
  rewrite quote_units_cons'.
  destruct (is_high c) eqn:Hh.
  - destruct s as [|d s]; [apply unicode_escape_closed|].
    destruct (is_low d) eqn:Hl.
    + simpl in Hr. apply andb_true_iff in Hr as [_ Hr].
      apply (closed_app [c; d]); [now apply closed_pair|].
      apply (IH (List.length s)); [simpl in Hn; lia|reflexivity|exact Hr].
    + apply closed_app; [apply unicode_escape_closed|].
      apply (IH (List.length (d :: s))); [simpl in *; lia|reflexivity|exact Hr].
  - destruct (is_low c) eqn:Hl.
    + apply closed_app; [apply unicode_escape_closed|].
      apply (IH (List.length s)); [simpl in *; lia|reflexivity|exact Hr].
    + apply closed_app; [now apply escape_unit_closed|].
      apply (IH (List.length s)); [simpl in *; lia|reflexivity|exact Hr].
Qed.

Lemma quote_closed (s : jsstring) : in_range s = true -> closed (quote s).
Proof.
  intros H. unfold quote. apply closed_cons; [apply closed_ascii; lia|].
  apply closed_app; [now apply quote_units_closed|apply closed_ascii; lia].
Qed.

Lemma number_chars_closed (t : jsstring) : Forall number_char t -> closed t.
Proof.
  intros H. apply closed_all_ascii. eapply Forall_impl; [|exact H].
  unfold number_char, is_digit. lia.
Qed.

Lemma number_text_closed (n : Z) : closed (number_text n).
Proof. apply number_chars_closed, number_text_chars. Qed.

Lemma decimal_text_closed (m : Z) (e : N) : closed (decimal_text m e).
Proof. apply number_chars_closed, decimal_text_chars. Qed.

Lemma join_with_closed (parts : list jsstring) :
  Forall closed parts -> closed (join_with 44 parts).
Proof.
  induction 1 as [|p parts Hp Hparts IH]; [apply closed_nil|].
  destruct parts as [|q parts]; [assumption|].
  rewrite join_with_cons. apply closed_app; [assumption|].
  apply closed_cons; [apply closed_ascii; lia|assumption].
Qed.

Lemma lit_null_closed : closed (lit "null").
Proof. apply closed_all_ascii. repeat constructor; simpl; lia. Qed.

Lemma ser_elements_closed (items : list value) (parts : list jsstring) :
  Forall (fun v => forall t, ser v = Text t -> units_ok v = true -> closed t) items ->
  forallb units_ok items = true ->
  ser_elements ser items = Some parts -> Forall closed parts.
Proof.
  intros H. revert parts.
  induction H as [|v items Hv _ IH]; simpl; intros parts Hok E.
  - injection E as <-. constructor.
  - apply andb_true_iff in Hok as [Hokv Hok].
    destruct (ser v) as [t| |]; try discriminate;
      destruct (ser_elements ser items) as [ps|]; try discriminate;
      injection E as <-; constructor; auto using lit_null_closed.
Qed.

Lemma ser_members_closed (props : list (jsstring * value)) (parts : list jsstring) :
  Forall (fun kv => forall t, ser (snd kv) = Text t -> units_ok (snd kv) = true ->
                    closed t) props ->
  forallb (fun kv => in_range (fst kv) && units_ok (snd kv)) props = true ->
  ser_members ser props = Some parts -> Forall closed parts.
Proof.
  intros H. revert parts.
  induction H as [|[k v] props Hv _ IH]; intros parts Hok E;
    cbn [ser_members snd fst forallb] in *.
  - injection E as <-. constructor.
  - apply andb_true_iff in Hok as [Hokv Hok].
    apply andb_true_iff in Hokv as [Hk Hokv].
    destruct (ser v) as [t| |].
    + destruct (ser_members ser props) as [ps|]; [|discriminate].
      assert (E' : parts = (quote k ++ 58 :: t) :: ps)
        by (cbn [option_map] in E; congruence).
      subst parts. constructor; [|now apply IH].
      apply closed_app; [now apply quote_closed|].
      apply closed_cons; [apply closed_ascii; lia|now apply Hv].
    + now apply IH.
    + discriminate.
Qed.

(** The text of a value with 16-bit code units is well formed, whatever
    follows it: lone surrogates are written as escapes. *)
Lemma ser_closed (v : value) (t : jsstring) :
  ser v = Text t -> units_ok v = true -> closed t.
Proof.
  revert t.
  induction v as [| |b|n|n|s|items IH|props IH|m e] using value_induction;
    simpl; intros t E Hok; try discriminate.
  - injection E as <-. apply lit_null_closed.
  - injection E as <-. apply closed_all_ascii.
    destruct b; repeat constructor; simpl; lia.
  - injection E as <-. apply number_text_closed.
  - injection E as <-. now apply quote_closed.
  - destruct (ser_elements ser items) as [parts|] eqn:Ep; [|discriminate].
    injection E as <-. apply closed_cons; [apply closed_ascii; lia|].
    apply closed_app; [|apply closed_ascii; lia].
    apply join_with_closed. eapply ser_elements_closed; eauto.
  - destruct (ser_members ser props) as [parts|] eqn:Ep; [|discriminate].
    injection E as <-. apply closed_cons; [apply closed_ascii; lia|].
    apply closed_app; [|apply closed_ascii; lia].
    apply join_with_closed. eapply ser_members_closed; eauto.
  - injection E as <-. apply decimal_text_closed.
Qed.

(** A frame pairs its surrogates. *)
Lemma frame_well_formed (v : value) (text : jsstring) :
  units_ok v = true -> frame v = Some text -> well_formed text = true.
Proof.
  intros Hok Hf. unfold frame, stringify in Hf.
  destruct (ser v) as [t| |] eqn:E; try discriminate.
  - injection Hf as <-. rewrite (ser_closed v t E Hok). reflexivity.
  - injection Hf as <-. reflexivity.
Qed.

(** A frame that is received as one buffer is decoded to the text that was
    written. *)
Theorem written_frame_is_read_whole (v : value) (text : jsstring) :
  units_ok v = true -> frame v = Some text -> toString (encode text) = text.
Proof.
  intros Hok Hf. apply toString_encode. exact (frame_well_formed v text Hok Hf).
Qed.

Lemma written_frame_is_read_whole_witness :
  let text := JS.lit "{}" ++ [NL] in
  toString (encode text) = text.
Proof.
  intros text. apply (written_frame_is_read_whole (Obj [])); reflexivity.
Defined.

(** * The listener, step by step *)

Module ServerFacts.
Import IPCServer.

Lemma server_buffer_same (c : connection) : set_buffer c (buffer c) = c.
Proof. destruct c; reflexivity. Qed.

(** The loop of the callback never touches the receive buffer. *)
Lemma run_lines_buffer (lines : list jsstring) (c : connection) :
  buffer (run_lines c lines) = buffer c.
Proof.
  revert c. induction lines as [|line lines IH]; intros c; simpl; [reflexivity|].
  destruct (blank line); [apply IH|].
  destruct (parse line) as [req|]; [|now rewrite IH].
  destruct (get_prop req (lit "method")); [|now rewrite IH].
  destruct (get_prop req (lit "params")); [reflexivity|now rewrite IH].
Qed.

(** After a chunk the buffer is the last segment of what was buffered
    followed by the text of the chunk. *)
Lemma server_on_data_buffer (c : connection) (data : bytes) :
  buffer (on_data c data) = last (split_nl (buffer c ++ toString data)) [].
Proof.
  unfold on_data.
  rewrite (pop_spec _ [] (split_nl_not_nil _)), run_lines_buffer.
  simpl. apply or_empty_some.
Qed.

Lemma server_on_data_lines (c : connection) (data : bytes) :
  on_data c data =
  run_lines (set_buffer c (last (split_nl (buffer c ++ toString data)) []))
    (removelast (split_nl (buffer c ++ toString data))).
Proof.
  unfold on_data. rewrite (pop_spec _ [] (split_nl_not_nil _)).
  now rewrite or_empty_some.
Qed.

(** A chunk that is one frame, met with an empty buffer. *)
Lemma server_on_data_frame (c : connection) (data : bytes) (t : jsstring) :
  buffer c = [] -> toString data = t ++ [NL] -> plain t ->
  on_data c data = run_lines c [t].
Proof.
  intros Hb Hd Ht. rewrite server_on_data_lines, Hb, Hd. simpl app.
  rewrite (split_frame t Ht). simpl. rewrite <- Hb. now rewrite server_buffer_same.
Qed.

Lemma run_lines_blank (c : connection) (line : jsstring) (rest : list jsstring) :
  blank line = true -> run_lines c (line :: rest) = run_lines c rest.
Proof. intros H. simpl. now rewrite H. Qed.


Lemma run_lines_request (c : connection) (line : jsstring) (rest : list jsstring)
  (req method params : value) :
  blank line = false -> parse line = Some req ->
  get_prop req (lit "method") = Some method ->
  get_prop req (lit "params") = Some params ->
  run_lines c (line :: rest) = invoke c req method params rest.
Proof. intros H1 H2 H3 H4. simpl. now rewrite H1, H2, H3, H4. Qed.


(** ** Tasks and the calls they wait for *)

Lemma take_task_skip (k : nat) (ts more : list task) (t : task) :
  Forall (fun t' => awaited t' <> k) ts -> awaited t = k ->
  take_task k (ts ++ t :: more) = Some (t, ts ++ more).
Proof.
  intros H Hk. induction H as [|t' ts Ht' _ IH]; simpl.
  - rewrite Hk, Nat.eqb_refl. reflexivity.
  - destruct (Nat.eqb_spec (awaited t') k); [contradiction|].
    now rewrite IH.
Qed.








Lemma accept_sound : sound accept.
Proof. split; constructor. Qed.


(** The settlement of a call that an activation waits for. *)
Lemma settle_task (c : connection) (k : nat) (o : outcome) (t : task)
  (others : list task) :
  take_task k (tasks c) = Some (t, others) ->
  settle c k o =
  run_lines
    (match frame (response_of (field (request t) (lit "id")) o) with
     | Some text => socket_write (set_tasks c others) text
     | None => console_error (set_tasks c others) NotSerializable
     end) (remaining t).
Proof. intros H. unfold settle. now rewrite H. Qed.


End ServerFacts.

(** * The caller, step by step *)

Module ClientFacts.
Import IPCClient.

Lemma client_buffer_same (c : client) : set_buffer c (buffer c) = c.
Proof. destruct c; reflexivity. Qed.

Lemma client_on_data_lines (c : client) (data : bytes) :
  on_data c data =
  fold_left handle_line
    (removelast (split_nl (buffer c ++ toString data)))
    (set_buffer c (last (split_nl (buffer c ++ toString data)) [])).
Proof.
  unfold on_data. rewrite (pop_spec _ [] (split_nl_not_nil _)).
  now rewrite or_empty_some.
Qed.

Lemma client_on_data_frame (c : client) (data : bytes) (t : jsstring) :
  buffer c = [] -> toString data = t ++ [NL] -> plain t ->
  on_data c data = handle_line c t.
Proof.
  intros Hb Hd Ht. rewrite client_on_data_lines, Hb, Hd. simpl app.
  rewrite (split_frame t Ht). simpl. rewrite <- Hb. now rewrite client_buffer_same.
Qed.

(** ** The table of pending requests *)

Lemma map_find_delete (k k' : jsstring) (m : list (jsstring * nat)) :
  map_find k' (map_delete k m) = if str_eqb k k' then None else map_find k' m.
Proof.
  unfold map_delete. induction m as [|[k0 p] m IH]; simpl.
  - now destruct (str_eqb k k').
  - destruct (str_eqb k k0) eqn:E0; simpl.
    + apply str_eqb_eq in E0; subst k0. rewrite IH.
      destruct (str_eqb k k') eqn:E; [reflexivity|].
      assert (E' : str_eqb k' k = false).
      { apply str_eqb_neq. apply str_eqb_neq in E. congruence. }
      now rewrite E'.
    + rewrite IH. destruct (str_eqb k k') eqn:E; [|reflexivity].
      apply str_eqb_eq in E; subst k'. now rewrite E0.
Qed.


Lemma map_find_set (k k' : jsstring) (p : nat) (m : list (jsstring * nat)) :
  map_find k' (map_set k p m) = if str_eqb k' k then Some p else map_find k' m.
Proof.
  induction m as [|[k0 p0] m IH]; simpl.
  - reflexivity.
  - destruct (str_eqb k k0) eqn:E0; simpl.
    + apply str_eqb_eq in E0; subst k0. now destruct (str_eqb k' k).
    + rewrite IH. destruct (str_eqb k' k0) eqn:E1; [|reflexivity].
      apply str_eqb_eq in E1; subst k0.
      assert (E' : str_eqb k' k = false).
      { apply str_eqb_neq. apply str_eqb_neq in E0. congruence. }
      now rewrite E'.
Qed.

Lemma map_delete_absent (k : jsstring) (m : list (jsstring * nat)) :
  map_find k m = None -> map_delete k m = m.
Proof.
  unfold map_delete. induction m as [|[k0 p] m IH]; simpl; [reflexivity|].
  destruct (str_eqb k k0); [discriminate|]. intros H. simpl. now rewrite IH.
Qed.

Lemma map_delete_set (k : jsstring) (p : nat) (m : list (jsstring * nat)) :
  map_find k m = None -> map_delete k (map_set k p m) = m.
Proof.
  unfold map_delete. induction m as [|[k0 p0] m IH]; simpl.
  - now rewrite str_eqb_refl.
  - destruct (str_eqb k k0) eqn:E; [discriminate|]. intros H. simpl.
    rewrite E. simpl. now rewrite IH.
Qed.

(** ** One line of a chunk *)

Lemma handle_line_blank (c : client) (line : jsstring) :
  blank line = true -> handle_line c line = c.
Proof. intros H. unfold handle_line. now rewrite H. Qed.




(** A line leaves the buffer and the socket alone. *)
Lemma handle_line_frame (c : client) (line : jsstring) :
  buffer (handle_line c line) = buffer c /\
  socket (handle_line c line) = socket c /\
  link (handle_line c line) = link c.
Proof.
  unfold handle_line. destruct (blank line); [auto|].
  destruct (parse line) as [response|]; [|auto].
  destruct (get_prop response (lit "id")) as [id|]; [|auto].
  destruct id; auto.
  destruct (map_get _ _); [|auto].
  destruct (truthy _); auto.
Qed.

Lemma fold_lines_frame (lines : list jsstring) (c : client) :
  buffer (fold_left handle_line lines c) = buffer c /\
  socket (fold_left handle_line lines c) = socket c /\
  link (fold_left handle_line lines c) = link c.
Proof.
  revert c. induction lines as [|line lines IH]; intros c; simpl; [auto|].
  destruct (IH (handle_line c line)) as (H1 & H2 & H3).
  destruct (handle_line_frame c line) as (H4 & H5 & H6).
  rewrite H1, H2, H3. auto.
Qed.

(** ** The ['close'] callback *)

Lemma reject_all_spec (entries : list (jsstring * nat)) (c : client) :
  reject_all entries c =
  {| socket := socket c; link := link c;
     pendingRequests :=
       fold_left (fun m e => map_delete (fst e) m) entries (pendingRequests c);
     requestId := requestId c; buffer := buffer c; promises := promises c;
     settled :=
       settled c ++ map (fun e => (snd e, Rejected connection_closed)) entries;
     sent := sent c; connected := connected c; errors := errors c |}.
Proof.
  revert c. induction entries as [|[id p] entries IH]; intros c; simpl.
  - rewrite app_nil_r. destruct c; reflexivity.
  - rewrite IH. simpl. now rewrite <- app_assoc.
Qed.

Lemma delete_all_absent (entries m : list (jsstring * nat)) (k : jsstring) :
  In k (map fst entries) \/ map_find k m = None ->
  map_find k (fold_left (fun m e => map_delete (fst e) m) entries m) = None.
Proof.
  revert m. induction entries as [|[id p] entries IH]; intros m H; simpl in *.
  - tauto.
  - apply IH. rewrite map_find_delete.
    destruct (str_eqb id k) eqn:E; [auto|].
    destruct H as [[H|H]|H]; auto.
    subst. now rewrite str_eqb_refl in E.
Qed.

Lemma map_find_none_nil (m : list (jsstring * nat)) :
  (forall k, map_find k m = None) -> m = [].
Proof.
  destruct m as [|[k p] m]; [reflexivity|]. intros H.
  specialize (H k). simpl in H. now rewrite str_eqb_refl in H.
Qed.

Lemma map_find_in (k : jsstring) (m : list (jsstring * nat)) :
  ~ In k (map fst m) -> map_find k m = None.
Proof.
  induction m as [|[k0 p] m IH]; simpl; intros H; [reflexivity|].
  destruct (str_eqb k k0) eqn:E.
  - apply str_eqb_eq in E. subst. tauto.
  - apply IH. tauto.
Qed.

Lemma delete_all_nil (m : list (jsstring * nat)) :
  fold_left (fun m e => map_delete (fst e) m) m m = [].
Proof.
  apply map_find_none_nil. intros k. apply delete_all_absent.
  destruct (in_dec (list_eq_dec N.eq_dec) k (map fst m)) as [H|H]; [auto|].
  right. now apply map_find_in.
Qed.

End ClientFacts.

Import ServerFacts ClientFacts.

(** * The request handler *)

Lemma unknown_method (vscode : jsstring -> value -> outcome)
  (cfg : Extension.settings) (st : Extension.state) (m : jsstring) (params : value) :
  Extension.in_catalog m = false ->
  snd (Extension.handleVSCodeRequest vscode cfg st (Str m) params) =
  Rejected (JsError (lit "Unknown method: " ++ m)).
Proof. intros H. unfold Extension.handleVSCodeRequest. simpl. now rewrite H. Qed.

(** * Requests and responses on the wire *)

Lemma request_ok (id method : jsstring) (params : value) :
  json_ok params = true -> json_ok (request_of id method params) = true.
Proof. intros H. unfold request_of. simpl. now rewrite H. Qed.

Lemma frame_ok (v : value) :
  json_ok v = true ->
  exists t, stringify v = Text t /\ frame v = Some (t ++ [NL]) /\
            plain t /\ blank t = false /\ parse t = Some v.
Proof.
  intros H. destruct (ser_total v H) as [t Ht]. exists t.
  unfold frame, stringify. rewrite Ht. repeat split.
  - apply (ser_plain v t Ht).
  - apply (ser_not_blank v t Ht).
  - apply (parse_stringify v t H Ht).
Qed.

Lemma stringify_void (id : jsstring) :
  stringify (IPCServer.response_of (Str id) (Resolved Undefined)) =
  stringify (Obj [(lit "id", Str id)]).
Proof. reflexivity. Qed.

(** The response to a request, as the caller reads it. *)
Lemma response_read (id : jsstring) (o : outcome) :
  transmissible o ->
  exists t response,
    frame (IPCServer.response_of (Str id) o) = Some (t ++ [NL]) /\
    plain t /\ blank t = false /\ parse t = Some response /\
    get_prop response (lit "id") = Some (Str id) /\
    (if truthy (field response (lit "error"))
     then Rejected (new_Error (field (field response (lit "error")) (lit "message")))
     else Resolved (field response (lit "result"))) = relayed o.
Proof.
  intros Ho. destruct o as [v|e]; simpl in Ho.
  - destruct Ho as [->|Hv].
    + destruct (frame_ok (Obj [(lit "id", Str id)]) eq_refl)
        as (t & Ht & Hf & Hp & Hb & Hr).
      exists t, (Obj [(lit "id", Str id)]).
      unfold frame in *. rewrite stringify_void, Ht. auto 10.
    + assert (Hok : json_ok (IPCServer.response_of (Str id) (Resolved v)) = true)
        by (simpl; now rewrite Hv).
      destruct (frame_ok _ Hok) as (t & Ht & Hf & Hp & Hb & Hr).
      exists t, (IPCServer.response_of (Str id) (Resolved v)). auto 10.
  - destruct (frame_ok (IPCServer.response_of (Str id) (Rejected e)) eq_refl)
      as (t & Ht & Hf & Hp & Hb & Hr).
    exists t, (IPCServer.response_of (Str id) (Rejected e)). auto 10.
Qed.

(** ** The listener on one request *)

Lemma get_request_fields (id method : jsstring) (params : value) :
  get_prop (request_of id method params) (lit "method") = Some (Str method) /\
  get_prop (request_of id method params) (lit "params") = Some params /\
  field (request_of id method params) (lit "id") = Str id.
Proof. repeat split. Qed.

(** A chunk that is the frame of one request: the handler is called with
    the method and the parameters of the request, whatever the method is
    and whatever calls are still pending. *)
Lemma dispatch_frame (c : IPCServer.connection) (data : bytes) (t : jsstring)
  (req method params : value) :
  IPCServer.buffer c = [] -> toString data = t ++ [NL] -> plain t ->
  blank t = false -> parse t = Some req ->
  get_prop req (lit "method") = Some method ->
  get_prop req (lit "params") = Some params ->
  IPCServer.on_data c data = IPCServer.invoke c req method params [].
Proof.
  intros Hb Hd Hp Hbl Hparse Hm Hpa.
  rewrite (server_on_data_frame c data t Hb Hd Hp).
  now apply run_lines_request.
Qed.

Lemma settle_last (c : IPCServer.connection) (req method params : value)
  (rest : list jsstring) (o : outcome) :
  IPCServer.sound c ->
  IPCServer.settle (IPCServer.invoke c req method params rest)
    (List.length (IPCServer.calls c)) o =
  IPCServer.run_lines
    (match frame (IPCServer.response_of (field req (lit "id")) o) with
     | Some text =>
         IPCServer.socket_write
           (IPCServer.set_tasks (IPCServer.invoke c req method params rest)
              (IPCServer.tasks c)) text
     | None =>
         IPCServer.console_error
           (IPCServer.set_tasks (IPCServer.invoke c req method params rest)
              (IPCServer.tasks c)) NotSerializable
     end) rest.
Proof.
  intros [H1 H2].
  assert (E : IPCServer.take_task (List.length (IPCServer.calls c))
                (IPCServer.tasks (IPCServer.invoke c req method params rest)) =
              Some ({| IPCServer.awaited := List.length (IPCServer.calls c);
                       IPCServer.request := req;
                       IPCServer.remaining := rest |}, IPCServer.tasks c)).
  { simpl. rewrite <- (app_nil_r (IPCServer.tasks c)) at 2.
    apply take_task_skip; [|reflexivity].
    eapply Forall_impl; [|exact H1]. simpl. intros t Ht. lia. }
  rewrite (settle_task _ _ _ _ _ E). reflexivity.
Qed.

(** ** The caller on one response *)

Lemma handle_response (c : IPCClient.client) (t : jsstring) (response : value)
  (key : jsstring) (p : nat) :
  blank t = false -> parse t = Some response ->
  get_prop response (lit "id") = Some (Str key) ->
  IPCClient.map_find key (IPCClient.pendingRequests c) = Some p ->
  IPCClient.handle_line c t =
  IPCClient.settle
    (IPCClient.set_pending c
       (IPCClient.map_delete key (IPCClient.pendingRequests c))) p
    (if truthy (field response (lit "error"))
     then Rejected (new_Error (field (field response (lit "error")) (lit "message")))
     else Resolved (field response (lit "result"))).
Proof.
  intros H1 H2 H3 H4. unfold IPCClient.handle_line.
  rewrite H1, H2, H3. simpl IPCClient.map_get. rewrite H4.
  destruct (truthy _); reflexivity.
Qed.


Lemma request_connected (c : IPCClient.client) (method : jsstring) (params : value)
  (text : jsstring) :
  IPCClient.socket c = true -> IPCClient.link c = IPCClient.Open ->
  frame (request_of (N_text (IPCClient.requestId c + 1)) method params) = Some text ->
  IPCClient.request c method params =
  ({| IPCClient.socket := true; IPCClient.link := IPCClient.Open;
      IPCClient.pendingRequests :=
        IPCClient.map_set (N_text (IPCClient.requestId c + 1))
          (IPCClient.promises c) (IPCClient.pendingRequests c);
      IPCClient.requestId := IPCClient.requestId c + 1;
      IPCClient.buffer := IPCClient.buffer c;
      IPCClient.promises := S (IPCClient.promises c);
      IPCClient.settled := IPCClient.settled c;
      IPCClient.sent := IPCClient.sent c ++ [text];
      IPCClient.connected := IPCClient.connected c;
      IPCClient.errors := IPCClient.errors c |}, inr (IPCClient.promises c)).
Proof.
  intros Hs Hl Hf. unfold IPCClient.request. rewrite Hs. simpl negb. cbv iota.
  unfold request_of in Hf. rewrite Hf. unfold IPCClient.socket_write. simpl.
  rewrite Hl. reflexivity.
Qed.

(** C8: a method that is not in the catalog is rejected by the handler with
    "Unknown method: " and the method; the listener calls the handler for
    it as for any method, the failure travels back as the response
    {id, error: {message}}, and the promise of the caller's [request]
    is rejected with exactly that message.  Each frame is read from a
    chunk that decodes to the text that was written, as the bytes that
    were written do. *)
Theorem unknown_method_is_rejected
  (vscode : jsstring -> value -> outcome) (cfg : Extension.settings)
  (st : Extension.state) (cl : IPCClient.client) (srv : IPCServer.connection)
  (m : jsstring) (params : value) (data1 data2 : bytes) :
  Extension.in_catalog m = false ->
  in_range m = true -> json_ok params = true -> units_ok params = true ->
  IPCClient.socket cl = true -> IPCClient.link cl = IPCClient.Open ->
  IPCClient.buffer cl = [] ->
  IPCClient.map_find (N_text (IPCClient.requestId cl + 1))
    (IPCClient.pendingRequests cl) = None ->
  IPCServer.buffer srv = [] -> IPCServer.sound srv ->
  let id := N_text (IPCClient.requestId cl + 1) in
  let message := lit "Unknown method: " ++ m in
  let failure := Rejected (JsError message) in
  let cl1 := fst (IPCClient.request cl m params) in
  let srv1 := IPCServer.on_data srv data1 in
  let srv2 := IPCServer.settle srv1 (List.length (IPCServer.calls srv)) failure in
  let cl2 := IPCClient.on_data cl1 data2 in
  exists text1 text2,
    frame (request_of id m params) = Some text1 /\
    frame (Obj [(lit "id", Str id);
                (lit "error", Obj [(lit "message", Str message)])]) = Some text2 /\
    toString (encode text1) = text1 /\
    toString (encode text2) = text2 /\
    snd (IPCClient.request cl m params) = inr (IPCClient.promises cl) /\
    IPCClient.sent cl1 = IPCClient.sent cl ++ [text1] /\
    snd (Extension.handleVSCodeRequest vscode cfg st (Str m) params) = failure /\
    (toString data1 = text1 ->
     IPCServer.calls srv1 = IPCServer.calls srv ++ [(Str m, params)] /\
     IPCServer.written srv2 = IPCServer.written srv ++ [text2]) /\
    (toString data2 = text2 ->
     IPCClient.settled cl2 =
       IPCClient.settled cl ++ [(IPCClient.promises cl, failure)] /\
     IPCClient.pendingRequests cl2 = IPCClient.pendingRequests cl).
Proof.
  intros Hm Hrange Hok Hunits Hsock Hlink Hbuf Hfresh Hsbuf Hsound.
  intros id message failure cl1 srv1 srv2 cl2.
  destruct (frame_ok _ (request_ok id m params Hok))
    as (t1 & _ & Hf1 & Hp1 & Hb1 & Hr1).
  destruct (response_read id failure I)
    as (t2 & response & Hf2 & Hp2 & Hb2 & Hr2 & Hid & Hout).
  exists (t1 ++ [NL]), (t2 ++ [NL]).
  pose proof (request_connected cl m params _ Hsock Hlink Hf1) as Hreq.
  destruct (get_request_fields id m params) as (Hgm & Hgp & Hgi).
  assert (Hid_range : in_range id = true).
  { apply forallb_forall. intros c Hc. apply N.ltb_lt.
    pose proof (uint_text_digits (N.to_uint (IPCClient.requestId cl + 1))) as Hd.
    rewrite Forall_forall in Hd. specialize (Hd c Hc). unfold is_digit in Hd. lia. }
  repeat split.
  - exact Hf1.
  - exact Hf2.
  - apply toString_encode.
    apply (frame_well_formed (request_of id m params)); [|exact Hf1].
    simpl. now rewrite Hid_range, Hrange, Hunits.
  - apply toString_encode.
    apply (frame_well_formed (IPCServer.response_of (Str id) failure));
      [|exact Hf2].
    simpl. rewrite Hid_range. unfold in_range in *. simpl.
    rewrite Hrange. reflexivity.
  - now rewrite Hreq.
  - subst cl1. now rewrite Hreq.
  - now apply unknown_method.
  - subst srv1. rewrite (dispatch_frame srv data1 t1 _ _ _ Hsbuf H Hp1 Hb1 Hr1 Hgm Hgp).
    reflexivity.
  - subst srv2 srv1.
    rewrite (dispatch_frame srv data1 t1 _ _ _ Hsbuf H Hp1 Hb1 Hr1 Hgm Hgp).
    rewrite (settle_last _ _ _ _ _ _ Hsound), Hgi, Hf2. reflexivity.
  - subst cl2 cl1. rewrite Hreq. simpl fst.
    rewrite client_on_data_frame with (t := t2);
      [|exact Hbuf|exact H|exact Hp2].
    rewrite (handle_response _ t2 response id (IPCClient.promises cl) Hb2 Hr2 Hid).
    + rewrite Hout. reflexivity.
    + simpl. now rewrite map_find_set, str_eqb_refl.
  - subst cl2 cl1. rewrite Hreq. simpl fst.
    rewrite client_on_data_frame with (t := t2);
      [|exact Hbuf|exact H|exact Hp2].
    rewrite (handle_response _ t2 response id (IPCClient.promises cl) Hb2 Hr2 Hid).
    + simpl. now apply map_delete_set.
    + simpl. now rewrite map_find_set, str_eqb_refl.
Qed.

(** * Requests of separate chunks are independent *)



(** * Concrete runs *)

(** C1, at the failing input: the handler resolves with a value that
    [JSON.stringify] refuses; the TypeError is caught by the [catch] meant
    for parse errors, and the request is never answered. *)
Theorem unserializable_result_is_not_answered :
  let data := wire_request (lit "executeCommand")
                (Obj [(lit "command", Str (lit "x"))]) in
  let c1 := IPCServer.on_data IPCServer.accept data in
  let c2 := IPCServer.settle c1 0 (Resolved (BigInt 1)) in
  IPCServer.calls c1 =
    [(Str (lit "executeCommand"), Obj [(lit "command", Str (lit "x"))])] /\
  IPCServer.written c2 = [] /\
  IPCServer.tasks c2 = [] /\
  IPCServer.errors c2 = [NotSerializable] /\
  forall o, IPCServer.settle c2 0 o = c2.
Proof. repeat split. Qed.

(** C2, at the failing input: the frame of a request is delivered in two
    chunks that cut the two bytes of U+00E9; each chunk is decoded on its
    own, and the handler receives a path with two U+FFFD instead. *)
Theorem split_character_corrupts_message :
  let chunk1 := firstn 49 accented_request in
  let chunk2 := skipn 49 accented_request in
  chunk1 ++ chunk2 = accented_request /\
  IPCServer.calls
    (IPCServer.run IPCServer.accept [IPCServer.Data accented_request]) =
    [(Str (lit "readFile"), Obj [(lit "path", Str (233 :: lit ".txt"))])] /\
  IPCServer.calls
    (IPCServer.run IPCServer.accept
       [IPCServer.Data chunk1; IPCServer.Data chunk2]) =
    [(Str (lit "readFile"),
      Obj [(lit "path", Str (65533 :: 65533 :: lit ".txt"))])].
Proof. repeat split. Qed.

(** C3, at the failing input: after a chunk that ends inside a character,
    the buffer holds U+FFFD where the first byte of the character was, on
    the listener and on the caller alike. *)
Theorem split_character_corrupts_buffer :
  let chunk1 := firstn 49 accented_request in
  let response := wire_response accented_request (Resolved (Str [233])) in
  let piece := firstn 21 response in
  last chunk1 0 = 195 /\
  last (IPCServer.buffer (IPCServer.on_data IPCServer.accept chunk1)) 0 = 65533 /\
  encode (IPCServer.buffer (IPCServer.on_data IPCServer.accept chunk1)) <> chunk1 /\
  last piece 0 = 195 /\
  encode
    (IPCClient.buffer
       (IPCClient.on_data (IPCClient.connect IPCClient.create) piece)) <> piece.
Proof. repeat split; first [reflexivity | vm_compute; discriminate]. Qed.

(** * Malformed lines *)



(** * Responses and the table of pending requests *)


(** * Closing *)

Lemma uint_text_inj (d d' : Decimal.uint) : uint_text d = uint_text d' -> d = d'.
Proof.
  revert d'. induction d; intros d'; destruct d'; simpl; intros H;
    try discriminate; try reflexivity; injection H as H; f_equal; auto.
Qed.

Lemma N_text_inj (n m : N) : N_text n = N_text m -> n = m.
Proof.
  intros H. apply DecimalN.Unsigned.to_uint_inj. now apply uint_text_inj.
Qed.

Lemma stranded_step (c c' : IPCClient.client) (e : IPCClient.event) :
  e <> IPCClient.Connect -> stranded c -> IPCClient.step c e = Some c' ->
  stranded c'.
Proof.
  intros He (Hl & Hf & Hs & Hsent & Hp & Hr) Hstep.
  destruct e as [|m params| | | | |]; simpl in Hstep; rewrite ?Hl in Hstep;
    try discriminate; try congruence.
  - injection Hstep as <-. unfold IPCClient.request.
    destruct (IPCClient.socket c); simpl; [|repeat split; assumption].
    assert (Hid : str_eqb (lit "1") (N_text (IPCClient.requestId c + 1)) = false).
    { apply str_eqb_neq. intros E. apply (N_text_inj 1) in E. lia. }
    destruct (frame _) as [text|]; simpl.
    + unfold IPCClient.socket_write. simpl. rewrite Hl. unfold stranded. simpl.
      rewrite map_find_set, Hid. repeat split; auto; lia.
    + unfold stranded. simpl. rewrite map_find_set, Hid.
      repeat split; auto; try lia.
      intros o Hin. apply in_app_or in Hin as [Hin|[Hin|[]]].
      * now apply (Hs o).
      * injection Hin as Hin _. lia.
  - injection Hstep as <-. unfold IPCClient.disconnect.
    destruct (IPCClient.socket c); [|repeat split; assumption].
    unfold stranded. simpl. rewrite Hl. repeat split; auto.
Qed.

Lemma stranded_run (es : list IPCClient.event) (c0 c : IPCClient.client) :
  ~ In IPCClient.Connect es -> stranded c0 -> IPCClient.run c0 es = Some c ->
  stranded c.
Proof.
  revert c0. induction es as [|e es IH]; intros c0 Hes H0 Hrun; simpl in Hrun.
  - now injection Hrun as <-.
  - destruct (IPCClient.step c0 e) as [c1|] eqn:E; [|discriminate].
    apply (IH c1); [intros H; apply Hes; now right| |assumption].
    apply (stranded_step c0 c1 e); auto.
    intros ->. apply Hes. now left.
Qed.

(** C6, at the failing input: the socket closes, and the owner of the
    client, who holds it for good, issues a request.  [this.socket] is
    still set, so the request is entered in the table and written to the
    closed socket; whatever follows short of a new connection, it stays in
    the table and its promise is never settled. *)
Theorem request_after_close_is_stranded
  (es : list IPCClient.event) (c : IPCClient.client) :
  ~ In IPCClient.Connect es ->
  IPCClient.run IPCClient.create
    ([IPCClient.Connect; IPCClient.Close;
      IPCClient.Request (lit "readFile") (Obj [(lit "path", Str (lit "a.txt"))])]
     ++ es) = Some c ->
  IPCClient.map_find (lit "1") (IPCClient.pendingRequests c) = Some 0%nat /\
  (forall o, ~ In (0%nat, o) (IPCClient.settled c)) /\
  IPCClient.sent c = [].
Proof.
  intros Hes Hrun.
  change (IPCClient.run
            (fst (IPCClient.request
                    (IPCClient.on_close (IPCClient.connect IPCClient.create))
                    (lit "readFile") (Obj [(lit "path", Str (lit "a.txt"))])))
            es = Some c) in Hrun.
  apply stranded_run in Hrun; [|assumption|].
  - destruct Hrun as (_ & H1 & H2 & H3 & _). auto.
  - repeat split; auto; simpl; lia.
Qed.

Lemma request_after_close_is_stranded_witness :
  IPCClient.map_find (lit "1")
    (IPCClient.pendingRequests
       (fst (IPCClient.request
               (IPCClient.on_close (IPCClient.connect IPCClient.create))
               (lit "readFile") (Obj [(lit "path", Str (lit "a.txt"))])))) =
  Some 0%nat.
Proof.
  exact (proj1 (request_after_close_is_stranded [] _ (fun H => H) eq_refl)).
Defined.




Lemma unknown_method_is_rejected_witness :
  let data1 := wire_request (lit "unknownMethod") (Obj []) in
  let data2 := wire_response data1
                 (Rejected (JsError (lit "Unknown method: unknownMethod"))) in
  IPCClient.settled
    (IPCClient.on_data
       (fst (IPCClient.request (IPCClient.connect IPCClient.create)
               (lit "unknownMethod") (Obj []))) data2) =
  [(0%nat, Rejected (JsError (lit "Unknown method: unknownMethod")))].
Proof.
  intros data1 data2.
  destruct (unknown_method_is_rejected (fun _ _ => Resolved Null)
              {| Extension.logLevel := lit "info"; Extension.socketPath := [];
                 Extension.httpPort := 6010 |}
              Extension.initial (IPCClient.connect IPCClient.create)
              IPCServer.accept (lit "unknownMethod") (Obj []) data1 data2
              eq_refl eq_refl eq_refl eq_refl eq_refl eq_refl eq_refl eq_refl
              eq_refl accept_sound)
    as (text1 & text2 & _ & H2 & _ & _ & _ & _ & _ & _ & H).
  vm_compute in H2. injection H2 as <-.
  apply H. reflexivity.
Defined.

(** * Starting and stopping the servers *)

Lemma log_keeps_servers (cfg : Extension.settings) (st : Extension.state)
  (message level : jsstring) :
  Extension.ipcServer (Extension.log cfg st message level) = Extension.ipcServer st /\
  Extension.httpMcpServer (Extension.log cfg st message level) =
    Extension.httpMcpServer st /\
  Extension.constructed (Extension.log cfg st message level) =
    Extension.constructed st.
Proof. unfold Extension.log. destruct (_ <=? _)%Z; auto. Qed.

(** C9: starting a server that is already running makes no new server
    object and does not fail, it only logs; stopping a server that is not
    running changes nothing. *)
Theorem start_is_idempotent_and_stop_is_noop
  (h : Extension.host) (cfg : Extension.settings) (listen : option thrown)
  (st : Extension.state) :
  match Extension.ipcServer st with
  | Some srv =>
      let st' := fst (Extension.startIPCServer h cfg listen st) in
      snd (Extension.startIPCServer h cfg listen st) = None /\
      Extension.ipcServer st' = Some srv /\
      Extension.httpMcpServer st' = Extension.httpMcpServer st /\
      Extension.constructed st' = Extension.constructed st
  | None => Extension.stopIPCServer cfg st = st
  end /\
  match Extension.httpMcpServer st with
  | Some srv =>
      let st' := fst (Extension.startHttpServer cfg listen st) in
      snd (Extension.startHttpServer cfg listen st) = None /\
      Extension.httpMcpServer st' = Some srv /\
      Extension.ipcServer st' = Extension.ipcServer st /\
      Extension.constructed st' = Extension.constructed st
  | None => Extension.stopHttpServer cfg st = st
  end.
Proof.
  split.
  - unfold Extension.startIPCServer, Extension.stopIPCServer.
    destruct (Extension.ipcServer st) as [srv|] eqn:E; [|reflexivity].
    simpl. destruct (log_keeps_servers cfg st (lit "IPC server already running")
                       (lit "info")) as (H1 & H2 & H3).
    rewrite H1, H2, H3. auto.
  - unfold Extension.startHttpServer, Extension.stopHttpServer.
    destruct (Extension.httpMcpServer st) as [srv|] eqn:E; [|reflexivity].
    simpl. destruct (log_keeps_servers cfg st (lit "HTTP MCP server already running")
                       (lit "info")) as (H1 & H2 & H3).
    rewrite H1, H2, H3. auto.
Qed.

(** * Requests without a socket *)

Lemma never_connected (es : list IPCClient.event) (c : IPCClient.client) :
  ~ In IPCClient.Connect es ->
  IPCClient.run IPCClient.create es = Some c -> c = IPCClient.create.
Proof.
  revert c. induction es as [|e es IH]; intros c Hes Hrun; simpl in Hrun.
  - congruence.
  - destruct e; simpl in Hrun; try discriminate.
    + exfalso. apply Hes. now left.
    + apply IH; [intros H; apply Hes; now right|exact Hrun].
    + apply IH; [intros H; apply Hes; now right|exact Hrun].
Qed.

Lemma disconnect_drops_socket (c : IPCClient.client) :
  IPCClient.socket (IPCClient.disconnect c) = false.
Proof.
  unfold IPCClient.disconnect. destruct (IPCClient.socket c) eqn:E; [reflexivity|exact E].
Qed.

(** C10: a client that holds no socket, because it never connected or
    because it disconnected, rejects [request] with the Error
    "Not connected" at once: no id is taken, nothing enters the table
    and nothing is written; the client is as it was. *)
Theorem request_without_socket
  (c : IPCClient.client) (method : jsstring) (params : value) :
  IPCClient.socket c = false \/
  (exists c0, c = IPCClient.disconnect c0) \/
  (exists es, ~ In IPCClient.Connect es /\
              IPCClient.run IPCClient.create es = Some c) ->
  IPCClient.request c method params = (c, inl (JsError (lit "Not connected"))).
Proof.
  intros H.
  assert (Hs : IPCClient.socket c = false).
  { destruct H as [H|[[c0 ->]|(es & Hes & Hrun)]].
    - exact H.
    - apply disconnect_drops_socket.
    - now rewrite (never_connected es c Hes Hrun). }
  unfold IPCClient.request. now rewrite Hs.
Qed.

Lemma request_without_socket_witness :
  IPCClient.request
    (IPCClient.disconnect (IPCClient.connect IPCClient.create))
    (lit "readFile") (Obj []) =
  (IPCClient.disconnect (IPCClient.connect IPCClient.create),
   inl (JsError (lit "Not connected"))).
Proof.
  apply request_without_socket. right. left.
  exists (IPCClient.connect IPCClient.create). reflexivity.
Defined.

(** * Further properties *)



(** The ['close'] callback rejects the promise of every pending request
    with "Connection closed", in the order of the table, and leaves the
    table empty. *)
Theorem close_rejects_every_pending_request (c : IPCClient.client) :
  IPCClient.pendingRequests (IPCClient.on_close c) = [] /\
  IPCClient.settled (IPCClient.on_close c) =
    IPCClient.settled c ++
    map (fun e => (snd e, Rejected (JsError (lit "Connection closed"))))
      (IPCClient.pendingRequests c) /\
  IPCClient.link (IPCClient.on_close c) = IPCClient.Closed /\
  IPCClient.socket (IPCClient.on_close c) = IPCClient.socket c.
Proof.
  unfold IPCClient.on_close. rewrite reject_all_spec. simpl.
  repeat split. apply delete_all_nil.
Qed.

(** What a chunk leaves in the buffer and what it hands to the loop, as
    text: the lines and the new buffer, joined by line terminators, are the
    old buffer followed by the decoded chunk, and none of them holds a line
    terminator. *)
Theorem buffer_holds_trailing_text
  (c : IPCServer.connection) (cl : IPCClient.client) (data : bytes) :
  (exists lines,
     IPCServer.on_data c data =
       IPCServer.run_lines
         (IPCServer.set_buffer c (IPCServer.buffer (IPCServer.on_data c data)))
         lines /\
     join_nl (lines ++ [IPCServer.buffer (IPCServer.on_data c data)]) =
       IPCServer.buffer c ++ toString data /\
     Forall (fun seg => ~ In NL seg)
       (lines ++ [IPCServer.buffer (IPCServer.on_data c data)])) /\
  (exists lines,
     IPCClient.on_data cl data =
       fold_left IPCClient.handle_line lines
         (IPCClient.set_buffer cl (IPCClient.buffer (IPCClient.on_data cl data))) /\
     join_nl (lines ++ [IPCClient.buffer (IPCClient.on_data cl data)]) =
       IPCClient.buffer cl ++ toString data /\
     Forall (fun seg => ~ In NL seg)
       (lines ++ [IPCClient.buffer (IPCClient.on_data cl data)])).
Proof.
  split.
  - exists (removelast (split_nl (IPCServer.buffer c ++ toString data))).
    rewrite server_on_data_buffer.
    rewrite <- (app_removelast_last [] (split_nl_not_nil _)).
    repeat split.
    + apply server_on_data_lines.
    + apply join_split.
    + apply split_no_nl.
  - exists (removelast (split_nl (IPCClient.buffer cl ++ toString data))).
    assert (Hb : IPCClient.buffer (IPCClient.on_data cl data) =
                 last (split_nl (IPCClient.buffer cl ++ toString data)) []).
    { rewrite client_on_data_lines.
      destruct (fold_lines_frame
                  (removelast (split_nl (IPCClient.buffer cl ++ toString data)))
                  (IPCClient.set_buffer cl
                     (last (split_nl (IPCClient.buffer cl ++ toString data)) [])))
        as (H & _).
      rewrite H. reflexivity. }
    rewrite Hb. rewrite <- (app_removelast_last [] (split_nl_not_nil _)).
    repeat split.
    + apply client_on_data_lines.
    + apply join_split.
    + apply split_no_nl.
Qed.

Lemma handle_line_set_buffer (c : IPCClient.client) (b line : jsstring) :
  IPCClient.handle_line (IPCClient.set_buffer c b) line =
  IPCClient.set_buffer (IPCClient.handle_line c line) b.
Proof.
  unfold IPCClient.handle_line. destruct (blank line); [reflexivity|].
  destruct (parse line) as [response|]; [|reflexivity].
  destruct (get_prop response (lit "id")) as [id|]; [|reflexivity].
  destruct id; try reflexivity. simpl.
  destruct (IPCClient.map_find s (IPCClient.pendingRequests c)); [|reflexivity].
  destruct (truthy _); reflexivity.
Qed.

Lemma fold_lines_set_buffer (lines : list jsstring) (c : IPCClient.client)
  (b : jsstring) :
  fold_left IPCClient.handle_line lines (IPCClient.set_buffer c b) =
  IPCClient.set_buffer (fold_left IPCClient.handle_line lines c) b.
Proof.
  revert c. induction lines as [|line lines IH]; intros c; simpl; [reflexivity|].
  now rewrite handle_line_set_buffer, IH.
Qed.

Lemma set_buffer_twice (c : IPCClient.client) (b b' : jsstring) :
  IPCClient.set_buffer (IPCClient.set_buffer c b) b' = IPCClient.set_buffer c b'.
Proof. reflexivity. Qed.

Lemma last_app_nonempty {A} (l l' : list A) (d : A) :
  l' <> [] -> last (l ++ l') d = last l' d.
Proof.
  intros H. induction l as [|x l IH]; [reflexivity|].
  simpl. destruct (l ++ l') eqn:E; [|exact IH].
  apply app_eq_nil in E as [_ E]. contradiction.
Qed.

Lemma fold_chunks (chunks : list bytes) (c : IPCClient.client) :
  ~ In NL (IPCClient.buffer c) ->
  let text := IPCClient.buffer c ++ flat_map toString chunks in
  fold_left IPCClient.on_data chunks c =
  fold_left IPCClient.handle_line (removelast (split_nl text))
    (IPCClient.set_buffer c (last (split_nl text) [])).
Proof.
  revert c. induction chunks as [|chunk chunks IH]; intros c Hb; simpl.
  - rewrite app_nil_r, (split_plain _ Hb). simpl.
    now rewrite client_buffer_same.
  - pose proof (split_nl_not_nil (IPCClient.buffer c ++ toString chunk)) as Hne.
    pose proof (split_no_nl (IPCClient.buffer c ++ toString chunk)) as Hno.
    rewrite (app_removelast_last [] Hne) in Hno.
    apply Forall_app in Hno as [_ Hno]. inversion Hno as [|? ? Hlast _]; subst.
    assert (Hbuf : IPCClient.buffer (IPCClient.on_data c chunk) =
                   last (split_nl (IPCClient.buffer c ++ toString chunk)) []).
    { rewrite client_on_data_lines.
      destruct (fold_lines_frame
                  (removelast (split_nl (IPCClient.buffer c ++ toString chunk)))
                  (IPCClient.set_buffer c
                     (last (split_nl (IPCClient.buffer c ++ toString chunk)) [])))
        as (H & _).
      rewrite H. reflexivity. }
    rewrite IH by (rewrite Hbuf; exact Hlast).
    rewrite Hbuf, app_assoc, (split_app (IPCClient.buffer c ++ toString chunk)).
    pose proof (split_nl_not_nil
                  (last (split_nl (IPCClient.buffer c ++ toString chunk)) [] ++
                   flat_map toString chunks)) as Hne'.
    rewrite removelast_app by exact Hne'.
    rewrite last_app_nonempty by exact Hne'.
    rewrite fold_left_app. f_equal.
    rewrite client_on_data_lines at 1.
    rewrite <- fold_lines_set_buffer, set_buffer_twice. reflexivity.
Qed.

(** For the caller, only the decoded text counts, not the chunks it came
    in: the chunks are handled as one chunk with all their text. *)
Theorem chunks_of_text_do_not_matter
  (chunks : list bytes) (c : IPCClient.client) :
  ~ In NL (IPCClient.buffer c) ->
  let text := IPCClient.buffer c ++ flat_map toString chunks in
  fold_left IPCClient.on_data chunks c =
  fold_left IPCClient.handle_line (removelast (split_nl text))
    (IPCClient.set_buffer c (last (split_nl text) [])).
Proof. apply fold_chunks. Qed.

Lemma chunks_of_text_do_not_matter_witness :
  let c := fst (IPCClient.request (IPCClient.connect IPCClient.create)
                  (lit "readFile") (Obj [])) in
  let data := wire_response (wire_request (lit "readFile") (Obj []))
                (Resolved (Str (lit "hello"))) in
  IPCClient.settled
    (fold_left IPCClient.on_data [firstn 7 data; skipn 7 data] c) =
  [(0%nat, Resolved (Str (lit "hello")))].
Proof.
  intros c data.
  rewrite (chunks_of_text_do_not_matter [firstn 7 data; skipn 7 data] c
             (fun H : In NL [] => H)).
  reflexivity.
Defined.

(** A serializable message has a frame, the frame is one line that is not
    blank, and [JSON.parse] reads the message back from it. *)
Theorem frame_reads_back (v : value) :
  json_ok v = true ->
  exists t,
    frame v = Some (t ++ [NL]) /\ ~ In NL t /\ blank t = false /\
    parse t = Some v.
Proof.
  intros H. destruct (frame_ok v H) as (t & _ & H1 & H2 & H3 & H4).
  exists t. repeat split; auto. now apply plain_not_in.
Qed.

Lemma frame_reads_back_witness :
  exists t,
    frame (request_of (lit "1") (lit "readFile")
             (Obj [(lit "path", Str (lit "a.txt"))])) = Some (t ++ [NL]) /\
    ~ In NL t /\ blank t = false /\
    parse t = Some (request_of (lit "1") (lit "readFile")
                      (Obj [(lit "path", Str (lit "a.txt"))])).
Proof. apply frame_reads_back. reflexivity. Defined.

(** * Chunks that cut no character *)

Lemma split_line (t rest : jsstring) :
  plain t -> split_nl (t ++ NL :: rest) = t :: split_nl rest.
Proof.
  induction 1 as [|c t Hc Ht IH]; simpl app.
  - now rewrite split_nl_cons, N.eqb_refl.
  - rewrite split_nl_cons, IH.
    destruct (N.eqb_spec c NL); [contradiction|reflexivity].
Qed.

Lemma split_frames (ts : list jsstring) :
  Forall plain ts -> split_nl (flat_map (fun t => t ++ [NL]) ts) = ts ++ [[]].
Proof.
  induction 1 as [|t ts Ht _ IH]; [reflexivity|].
  simpl. rewrite <- app_assoc. simpl. now rewrite (split_line t _ Ht), IH.
Qed.

Lemma toString_pieces (pieces : list jsstring) :
  Forall (fun p => well_formed p = true) pieces ->
  flat_map toString (map encode pieces) = List.concat pieces.
Proof.
  induction 1 as [|p pieces Hp _ IH]; [reflexivity|].
  simpl. now rewrite (toString_encode p Hp), IH.
Qed.

Lemma frames_of_texts (vs : list value) :
  flat_map (fun v => text_of v ++ [NL]) vs =
  flat_map (fun t => t ++ [NL]) (map text_of vs).
Proof.
  induction vs as [|v vs IH]; [reflexivity|]. simpl. now rewrite IH.
Qed.

Lemma text_of_ok (v : value) :
  json_ok v = true ->
  frame v = Some (text_of v ++ [NL]) /\ plain (text_of v) /\
  blank (text_of v) = false /\ parse (text_of v) = Some v.
Proof.
  intros H. destruct (frame_ok v H) as (t & Ht & Hf & Hp & Hb & Hr).
  unfold text_of. rewrite Ht. auto.
Qed.

(** The frames of serializable messages, cut into chunks at any positions
    that split no character: the caller handles the lines of the messages,
    one by one and in order, and [JSON.parse] gives each message back. *)
Theorem aligned_chunks_deliver_messages
  (vs : list value) (pieces : list jsstring) (c : IPCClient.client) :
  Forall (fun v => json_ok v = true) vs ->
  List.concat pieces = flat_map (fun v => text_of v ++ [NL]) vs ->
  Forall (fun p => well_formed p = true) pieces ->
  IPCClient.buffer c = [] ->
  fold_left IPCClient.on_data (map encode pieces) c =
    fold_left IPCClient.handle_line (map text_of vs) c /\
  Forall (fun v => frame v = Some (text_of v ++ [NL]) /\
                   blank (text_of v) = false /\
                   parse (text_of v) = Some v) vs.
Proof.
  intros Hok Hcat Hwf Hbuf. split.
  - rewrite fold_chunks by (rewrite Hbuf; intros []).
    rewrite Hbuf, (toString_pieces pieces Hwf), Hcat. simpl app.
    rewrite frames_of_texts.
    rewrite split_frames.
    + rewrite removelast_last, last_last. rewrite <- Hbuf.
      now rewrite client_buffer_same.
    + apply Forall_map. eapply Forall_impl; [|exact Hok].
      intros v Hv. apply (text_of_ok v Hv).
  - eapply Forall_impl; [|exact Hok]. intros v Hv.
    destruct (text_of_ok v Hv) as (H1 & _ & H2 & H3). auto.
Qed.

Lemma aligned_chunks_deliver_messages_witness :
  let c := fst (IPCClient.request (IPCClient.connect IPCClient.create)
                  (lit "readFile") (Obj [])) in
  let response := Obj [(lit "id", Str (lit "1")); (lit "result", Str [233])] in
  IPCClient.settled
    (fold_left IPCClient.on_data
       (map encode
          [firstn 20 (text_of response);
           skipn 20 (text_of response) ++ [NL]]) c) =
  [(0%nat, Resolved (Str [233]))].
Proof.
  intros c response.
  destruct (aligned_chunks_deliver_messages [response]
              [firstn 20 (text_of response);
               skipn 20 (text_of response) ++ [NL]] c) as [H _].
  - repeat constructor.
  - reflexivity.
  - repeat constructor.
  - reflexivity.
  - rewrite H. reflexivity.
Defined.

(** * Every handler call is accounted for *)





(** * The ids and the promises of the caller *)

Lemma map_set_fresh (k : jsstring) (p : nat) (m : list (jsstring * nat)) :
  IPCClient.map_find k m = None -> IPCClient.map_set k p m = m ++ [(k, p)].
Proof.
  induction m as [|[k0 p0] m IH]; simpl; [reflexivity|].
  destruct (str_eqb k k0); [discriminate|]. intros H. now rewrite IH.
Qed.

Lemma NoDup_snoc {A : Type} (l : list A) (x : A) :
  NoDup l -> ~ In x l -> NoDup (l ++ [x]).
Proof.
  intros Hl Hx. apply NoDup_app; [exact Hl|repeat constructor; auto|].
  intros a Ha [<-|[]]. contradiction.
Qed.

Lemma map_delete_in (k : jsstring) (m : list (jsstring * nat)) (e : jsstring * nat) :
  In e (IPCClient.map_delete k m) -> In e m /\ fst e <> k.
Proof.
  unfold IPCClient.map_delete. rewrite filter_In. intros [H1 H2]. split; [exact H1|].
  intros <-. now rewrite str_eqb_refl in H2.
Qed.

Lemma map_delete_keys (k : jsstring) (m : list (jsstring * nat)) :
  NoDup (map fst m) -> NoDup (map fst (IPCClient.map_delete k m)).
Proof.
  unfold IPCClient.map_delete. induction m as [|[k0 p0] m IH]; simpl; [auto|].
  intros H. inversion H as [|? ? Hn Hm]; subst.
  destruct (str_eqb k k0); simpl; [auto|]. constructor; [|auto].
  rewrite in_map_iff. intros (e & He & Hin). apply filter_In in Hin as [Hin _].
  apply Hn. rewrite in_map_iff. eauto.
Qed.

Lemma map_delete_promises (k : jsstring) (m : list (jsstring * nat)) :
  NoDup (map snd m) -> NoDup (map snd (IPCClient.map_delete k m)).
Proof.
  unfold IPCClient.map_delete. induction m as [|[k0 p0] m IH]; simpl; [auto|].
  intros H. inversion H as [|? ? Hn Hm]; subst.
  destruct (str_eqb k k0); simpl; [auto|]. constructor; [|auto].
  rewrite in_map_iff. intros (e & He & Hin). apply filter_In in Hin as [Hin _].
  apply Hn. rewrite in_map_iff. eauto.
Qed.

Lemma map_find_entry (k : jsstring) (p : nat) (m : list (jsstring * nat)) :
  IPCClient.map_find k m = Some p -> In (k, p) m.
Proof.
  induction m as [|[k0 p0] m IH]; simpl; [discriminate|].
  destruct (str_eqb k k0) eqn:E.
  - apply str_eqb_eq in E. subst. intros H. injection H as <-. now left.
  - auto.
Qed.

(** The promise found under a key is not in the table once the key is
    deleted. *)
Lemma map_delete_found (k : jsstring) (p : nat) (m : list (jsstring * nat)) :
  IPCClient.map_find k m = Some p -> NoDup (map snd m) ->
  ~ In p (map snd (IPCClient.map_delete k m)).
Proof.
  intros Hf Hn Hin. apply in_map_iff in Hin as ([k' p'] & Hp & Hin).
  simpl in Hp. subst p'. apply map_delete_in in Hin as [Hin Hk]. simpl in Hk.
  apply map_find_entry in Hf.
  assert (H : forall (l : list (jsstring * nat)) a b x,
            NoDup (map snd l) -> In (a, x) l -> In (b, x) l -> a = b).
  { induction l as [|[k0 p0] l IH]; simpl; intros a b x Hl Ha Hb; [tauto|].
    inversion Hl as [|? ? Hn0 Hl0]; subst.
    destruct Ha as [Ha|Ha], Hb as [Hb|Hb].
    - congruence.
    - injection Ha as -> ->. exfalso. apply Hn0. rewrite in_map_iff.
      exists (b, x). auto.
    - injection Hb as -> ->. exfalso. apply Hn0. rewrite in_map_iff.
      exists (a, x). auto.
    - eauto. }
  apply Hk. symmetry. exact (H m k k' p Hn Hf Hin).
Qed.

Lemma handle_line_pending (c : IPCClient.client) (line : jsstring) :
  IPCClient.handle_line c line = IPCClient.console_error c (SyntaxError line) \/
  IPCClient.handle_line c line = IPCClient.console_error c (PropertyOfNull line) \/
  IPCClient.handle_line c line = c \/
  exists key p o,
    IPCClient.map_find key (IPCClient.pendingRequests c) = Some p /\
    IPCClient.handle_line c line =
      IPCClient.settle
        (IPCClient.set_pending c
           (IPCClient.map_delete key (IPCClient.pendingRequests c))) p o.
Proof.
  unfold IPCClient.handle_line. destruct (blank line); [auto|].
  destruct (parse line) as [response|]; [|auto].
  destruct (get_prop response (lit "id")) as [id|]; [|auto].
  destruct id; auto.
  simpl IPCClient.map_get.
  destruct (IPCClient.map_find s (IPCClient.pendingRequests c)) as [p|] eqn:E; [|auto].
  right. right. right. exists s, p.
  destruct (truthy _); eexists; (split; [exact E|reflexivity]).
Qed.

Lemma handle_line_ids (c : IPCClient.client) (line : jsstring) :
  ids_ok c ->
  ids_ok (IPCClient.handle_line c line) /\
  IPCClient.requestId (IPCClient.handle_line c line) = IPCClient.requestId c.
Proof.
  intros [H1 H2].
  destruct (handle_line_pending c line) as [->|[->|[->|(key & p & o & _ & ->)]]];
    try (split; [split; assumption|reflexivity]).
  split; [|reflexivity]. split; simpl.
  - rewrite Forall_forall in *. intros e He.
    apply map_delete_in in He as [He _]. auto.
  - now apply map_delete_keys.
Qed.

Lemma fold_lines_ids (lines : list jsstring) (c : IPCClient.client) :
  ids_ok c ->
  ids_ok (fold_left IPCClient.handle_line lines c) /\
  IPCClient.requestId (fold_left IPCClient.handle_line lines c) =
    IPCClient.requestId c.
Proof.
  revert c. induction lines as [|line lines IH]; intros c H; simpl; [auto|].
  destruct (handle_line_ids c line H) as [H1 H2].
  destruct (IH _ H1) as [H3 H4]. split; [exact H3|congruence].
Qed.

Lemma on_close_table (c : IPCClient.client) :
  IPCClient.pendingRequests (IPCClient.on_close c) = [] /\
  IPCClient.settled (IPCClient.on_close c) =
    IPCClient.settled c ++
    map (fun e => (snd e, Rejected IPCClient.connection_closed))
      (IPCClient.pendingRequests c) /\
  IPCClient.requestId (IPCClient.on_close c) = IPCClient.requestId c /\
  IPCClient.promises (IPCClient.on_close c) = IPCClient.promises c.
Proof.
  unfold IPCClient.on_close. rewrite reject_all_spec. simpl.
  rewrite delete_all_nil. auto.
Qed.

Lemma fresh_id (c : IPCClient.client) :
  ids_ok c ->
  IPCClient.map_find (N_text (IPCClient.requestId c + 1))
    (IPCClient.pendingRequests c) = None.
Proof.
  intros [H _]. apply map_find_in. rewrite in_map_iff. intros (e & He & Hin).
  rewrite Forall_forall in H. destruct (H e Hin) as (k & Hk & Hek).
  rewrite Hek in He. apply N_text_inj in He. lia.
Qed.

Lemma request_table (c : IPCClient.client) (method : jsstring) (params : value) :
  IPCClient.socket c = true -> ids_ok c ->
  let c' := fst (IPCClient.request c method params) in
  IPCClient.pendingRequests c' =
    IPCClient.pendingRequests c ++
    [(N_text (IPCClient.requestId c + 1), IPCClient.promises c)] /\
  IPCClient.requestId c' = IPCClient.requestId c + 1 /\
  IPCClient.promises c' = S (IPCClient.promises c) /\
  (IPCClient.settled c' = IPCClient.settled c \/
   frame (request_of (N_text (IPCClient.requestId c + 1)) method params) = None).
Proof.
  intros Hs Hids. unfold IPCClient.request. rewrite Hs. simpl negb. cbv iota.
  fold (request_of (N_text (IPCClient.requestId c + 1)) method params).
  rewrite (map_set_fresh _ _ _ (fresh_id c Hids)).
  destruct (frame _) eqn:E; simpl.
  - unfold IPCClient.socket_write. destruct (IPCClient.link c); simpl; auto.
  - auto.
Qed.

Lemma request_ids (c : IPCClient.client) (method : jsstring) (params : value) :
  ids_ok c -> ids_ok (fst (IPCClient.request c method params)).
Proof.
  intros Hids. destruct (IPCClient.socket c) eqn:Hs.
  - destruct (request_table c method params Hs Hids) as (H1 & H2 & _).
    destruct Hids as [Ha Hb]. split.
    + rewrite H1, H2. apply Forall_app. split.
      * eapply Forall_impl; [|exact Ha]. intros e (k & Hk & He). exists k.
        split; [lia|exact He].
      * repeat constructor. exists (IPCClient.requestId c + 1). split; [lia|reflexivity].
    + rewrite H1, map_app. simpl. apply NoDup_snoc; [exact Hb|].
      intros Hin. pose proof (fresh_id c (conj Ha Hb)) as Hf.
      apply in_map_iff in Hin as ([k p] & Hk & Hin). simpl in Hk. subst k.
      clear - Hf Hin. induction (IPCClient.pendingRequests c) as [|[k0 p0] m IH];
        simpl in *; [tauto|].
      destruct (str_eqb _ k0) eqn:E; [discriminate|].
      destruct Hin as [Hin|Hin]; [|auto].
      injection Hin as -> _. now rewrite str_eqb_refl in E.
  - unfold IPCClient.request. rewrite Hs. exact Hids.
Qed.

Lemma step_ids (c c' : IPCClient.client) (e : IPCClient.event) :
  ids_ok c -> IPCClient.step c e = Some c' -> ids_ok c'.
Proof.
  intros Hids Hstep.
  assert (Hclose : forall c0, ids_ok c0 -> ids_ok (IPCClient.on_close c0)).
  { intros c0 _. destruct (on_close_table c0) as (H1 & _). split; rewrite H1;
      constructor. }
  destruct e; simpl in Hstep.
  - destruct (IPCClient.link c); try discriminate; injection Hstep as <-; exact Hids.
  - injection Hstep as <-. now apply request_ids.
  - injection Hstep as <-. unfold IPCClient.disconnect.
    destruct (IPCClient.socket c); exact Hids.
  - destruct (IPCClient.link c); try discriminate; injection Hstep as <-; exact Hids.
  - destruct (IPCClient.link c); try discriminate. injection Hstep as <-.
    unfold IPCClient.on_data. destruct (pop _) as [last lines].
    apply fold_lines_ids. exact Hids.
  - destruct (IPCClient.link c); try discriminate. injection Hstep as <-.
    apply Hclose. exact Hids.
  - destruct (IPCClient.link c); try discriminate; injection Hstep as <-;
      apply Hclose; exact Hids.
Qed.

Lemma run_ids (es : list IPCClient.event) (c c' : IPCClient.client) :
  ids_ok c -> IPCClient.run c es = Some c' -> ids_ok c'.
Proof.
  revert c. induction es as [|e es IH]; intros c H Hrun; simpl in Hrun.
  - now injection Hrun as <-.
  - destruct (IPCClient.step c e) as [c1|] eqn:E; [|discriminate].
    apply (IH c1); [|exact Hrun]. now apply (step_ids c c1 e).
Qed.

Lemma create_ids : ids_ok IPCClient.create.
Proof. split; constructor. Qed.

(** Whatever the client has been through, [request] gives out an id that
    is not in the table: the new entry goes last, no entry is replaced, and
    the keys of the table stay distinct. *)
Theorem request_id_is_fresh
  (es : list IPCClient.event) (c : IPCClient.client)
  (method : jsstring) (params : value) :
  IPCClient.run IPCClient.create es = Some c ->
  IPCClient.socket c = true ->
  let c' := fst (IPCClient.request c method params) in
  IPCClient.map_find (N_text (IPCClient.requestId c + 1))
    (IPCClient.pendingRequests c) = None /\
  IPCClient.pendingRequests c' =
    IPCClient.pendingRequests c ++
    [(N_text (IPCClient.requestId c + 1), IPCClient.promises c)] /\
  NoDup (map fst (IPCClient.pendingRequests c')).
Proof.
  intros Hrun Hs c'.
  pose proof (run_ids es _ c create_ids Hrun) as Hids.
  split; [now apply fresh_id|].
  split; [now apply request_table|].
  apply (request_ids c method params Hids).
Qed.

Lemma request_of_frame (id method : jsstring) (params : value) :
  ser params <> Raised -> frame (request_of id method params) <> None.
Proof.
  intros H. unfold frame, stringify, request_of. cbn [ser ser_members].
  destruct (ser params) as [t| |]; [discriminate|discriminate|congruence].
Qed.

Lemma handle_line_tidy (c : IPCClient.client) (line : jsstring) :
  tidy c ->
  tidy (IPCClient.handle_line c line) /\
  IPCClient.promises (IPCClient.handle_line c line) = IPCClient.promises c.
Proof.
  intros (H1 & H2 & H3 & H4).
  destruct (handle_line_pending c line) as [->|[->|[->|(key & p & o & Hf & ->)]]];
    try (split; [repeat split; assumption|reflexivity]).
  split; [|reflexivity]. unfold tidy. simpl.
  pose proof (map_delete_found key p _ Hf H1) as Hgone.
  assert (Hp : In p (map snd (IPCClient.pendingRequests c))).
  { apply map_find_entry in Hf. rewrite in_map_iff. exists (key, p). auto. }
  assert (Hsub : forall q, In q (map snd (IPCClient.map_delete key
                                           (IPCClient.pendingRequests c))) ->
                           In q (map snd (IPCClient.pendingRequests c))).
  { intros q Hq. apply in_map_iff in Hq as (e & He & Hin).
    apply map_delete_in in Hin as [Hin _]. rewrite in_map_iff. eauto. }
  repeat split.
  - now apply map_delete_promises.
  - rewrite map_app. simpl. apply NoDup_snoc; [exact H2|]. now apply H3.
  - intros q Hq. rewrite map_app, in_app_iff. simpl. intros [Hin|[<-|[]]].
    + apply (H3 q); auto.
    + contradiction.
  - rewrite map_app. simpl. rewrite Forall_forall in *. intros q Hq.
    apply H4. rewrite !in_app_iff in *. simpl in Hq.
    destruct Hq as [Hq|[Hq|[<-|[]]]]; auto.
Qed.

Lemma fold_lines_tidy (lines : list jsstring) (c : IPCClient.client) :
  tidy c ->
  tidy (fold_left IPCClient.handle_line lines c) /\
  IPCClient.promises (fold_left IPCClient.handle_line lines c) =
    IPCClient.promises c.
Proof.
  revert c. induction lines as [|line lines IH]; intros c H; simpl; [auto|].
  destruct (handle_line_tidy c line H) as [H1 H2].
  destruct (IH _ H1) as [H3 H4]. split; [exact H3|congruence].
Qed.

Lemma on_close_tidy (c : IPCClient.client) : tidy c -> tidy (IPCClient.on_close c).
Proof.
  intros (H1 & H2 & H3 & H4).
  destruct (on_close_table c) as (E1 & E2 & _ & E4).
  unfold tidy. rewrite E1, E2, E4. simpl.
  assert (Em : map fst (map (fun e : jsstring * nat =>
                               (snd e, Rejected IPCClient.connection_closed))
                          (IPCClient.pendingRequests c)) =
               map snd (IPCClient.pendingRequests c))
    by (rewrite map_map; reflexivity).
  rewrite map_app, Em. repeat split.
  - constructor.
  - apply NoDup_app; [exact H2|exact H1|]. intros p Hs Hp. now apply (H3 p).
  - intros p [].
  - rewrite Forall_forall in *. intros p Hp. apply H4.
    rewrite in_app_iff in *. tauto.
Qed.

Lemma request_tidy (c : IPCClient.client) (method : jsstring) (params : value) :
  ids_ok c -> tidy c -> ser params <> Raised ->
  tidy (fst (IPCClient.request c method params)).
Proof.
  intros Hids (H1 & H2 & H3 & H4) Hser. destruct (IPCClient.socket c) eqn:Hs.
  - destruct (request_table c method params Hs Hids) as (E1 & _ & E3 & E4).
    destruct E4 as [E4|E4];
      [|exfalso; exact (request_of_frame _ _ _ Hser E4)].
    unfold tidy. rewrite E1, E3, E4, map_app. simpl.
    rewrite Forall_forall in H4.
    assert (Hfresh : forall q, In q (map snd (IPCClient.pendingRequests c) ++
                                     map fst (IPCClient.settled c)) ->
                               q <> IPCClient.promises c).
    { intros q Hq. specialize (H4 q Hq). lia. }
    repeat split.
    + apply NoDup_snoc; [exact H1|]. intros Hin.
      apply (Hfresh (IPCClient.promises c)); [|reflexivity].
      rewrite in_app_iff. auto.
    + exact H2.
    + intros p. rewrite in_app_iff. simpl. intros [Hp|[<-|[]]]; [now apply H3|].
      intros Hin. apply (Hfresh (IPCClient.promises c)); [|reflexivity].
      rewrite in_app_iff. auto.
    + rewrite Forall_forall. intros q. rewrite !in_app_iff. simpl.
      intros [[Hq|[<-|[]]]|Hq]; [|lia|];
        (assert (q < IPCClient.promises c)%nat
           by (apply H4; rewrite in_app_iff; auto); lia).
  - unfold IPCClient.request. rewrite Hs. simpl. repeat split; assumption.
Qed.

Lemma step_tidy (c c' : IPCClient.client) (e : IPCClient.event) :
  ids_ok c -> tidy c -> sendable e -> IPCClient.step c e = Some c' -> tidy c'.
Proof.
  intros Hids Ht Hsend Hstep.
  destruct e; simpl in Hstep.
  - destruct (IPCClient.link c); try discriminate; injection Hstep as <-; exact Ht.
  - injection Hstep as <-. now apply request_tidy.
  - injection Hstep as <-. unfold IPCClient.disconnect.
    destruct (IPCClient.socket c); exact Ht.
  - destruct (IPCClient.link c); try discriminate; injection Hstep as <-; exact Ht.
  - destruct (IPCClient.link c); try discriminate. injection Hstep as <-.
    unfold IPCClient.on_data. destruct (pop _) as [last lines].
    apply fold_lines_tidy. exact Ht.
  - destruct (IPCClient.link c); try discriminate. injection Hstep as <-.
    apply on_close_tidy. exact Ht.
  - destruct (IPCClient.link c); try discriminate; injection Hstep as <-;
      apply on_close_tidy; exact Ht.
Qed.

Lemma run_tidy (es : list IPCClient.event) (c c' : IPCClient.client) :
  ids_ok c -> tidy c -> Forall sendable es ->
  IPCClient.run c es = Some c' -> tidy c'.
Proof.
  revert c. induction es as [|e es IH]; intros c Hi Ht Hs Hrun; simpl in Hrun.
  - now injection Hrun as <-.
  - destruct (IPCClient.step c e) as [c1|] eqn:E; [|discriminate].
    inversion Hs as [|? ? He Hes]; subst.
    apply (IH c1); [| |exact Hes|exact Hrun].
    + now apply (step_ids c c1 e).
    + now apply (step_tidy c c1 e).
Qed.

Lemma create_tidy : tidy IPCClient.create.
Proof. repeat split; try constructor. intros p []. Qed.

(** As long as the parameters of every request can be serialized, no
    promise of [request] is resolved or rejected twice, and a promise that
    was resolved or rejected is no longer in the table: its entry is
    removed when it is settled, by a response or by the ['close']
    callback. *)
Theorem promise_is_settled_once
  (es : list IPCClient.event) (c : IPCClient.client) :
  Forall sendable es ->
  IPCClient.run IPCClient.create es = Some c ->
  NoDup (map fst (IPCClient.settled c)) /\
  (forall id p o, In (id, p) (IPCClient.pendingRequests c) ->
                  ~ In (p, o) (IPCClient.settled c)) /\
  (forall p o, In (p, o) (IPCClient.settled c) -> (p < IPCClient.promises c)%nat).
Proof.
  intros Hs Hrun.
  destruct (run_tidy es _ c create_ids create_tidy Hs Hrun) as (H1 & H2 & H3 & H4).
  split; [exact H2|]. split.
  - intros id p o Hin Hset. apply (H3 p).
    + rewrite in_map_iff. exists (id, p). auto.
    + rewrite in_map_iff. exists (p, o). auto.
  - intros p o Hin. rewrite Forall_forall in H4. apply H4.
    rewrite in_app_iff. right. rewrite in_map_iff. exists (p, o). auto.
Qed.

Lemma request_id_is_fresh_witness :
  let c := fst (IPCClient.request (IPCClient.connect IPCClient.create)
                  (lit "readFile") (Obj [])) in
  IPCClient.pendingRequests
    (fst (IPCClient.request c (lit "listFiles") (Obj []))) =
  IPCClient.pendingRequests c ++ [(lit "2", 1%nat)].
Proof.
  intros c.
  exact (proj1 (proj2 (request_id_is_fresh
                         [IPCClient.Connect;
                          IPCClient.Request (lit "readFile") (Obj [])]
                         c (lit "listFiles") (Obj []) eq_refl eq_refl))).
Defined.

Lemma promise_is_settled_once_witness :
  NoDup
    (map fst
       (IPCClient.settled
          (IPCClient.on_close
             (fst (IPCClient.request (IPCClient.connect IPCClient.create)
                     (lit "readFile") (Obj [])))))).
Proof.
  refine (proj1 (promise_is_settled_once
                   [IPCClient.Connect;
                    IPCClient.Request (lit "readFile") (Obj []);
                    IPCClient.Close] _ _ eq_refl)).
  repeat constructor. discriminate.
Defined.

(** * [JSON.parse] reads back the indented text *)

Lemma skip_ws_blanks (w s : jsstring) : blanks w -> skip_ws (w ++ s) = skip_ws s.
Proof. induction 1 as [|c w Hc _ IH]; simpl; [reflexivity|]. now rewrite Hc. Qed.

Lemma blanks_gap (indent : jsstring) : blanks indent -> blanks (indent ++ Indented.gap).
Proof. intros H. apply Forall_app. split; [exact H|repeat constructor]. Qed.

Lemma blanks_line (w : jsstring) : blanks w -> blanks (NL :: w).
Proof. intros H. constructor; [reflexivity|exact H]. Qed.

Lemma parse_value_blanks (fuel : nat) (w s : jsstring) :
  blanks w -> parse_value fuel (w ++ s) = parse_value fuel s.
Proof.
  intros H. destruct fuel as [|fuel]; [reflexivity|].
  cbn [parse_value]. now rewrite (skip_ws_blanks w s H).
Qed.

Lemma parse_elements_blanks (fuel : nat) (w s : jsstring) :
  blanks w -> parse_elements fuel (w ++ s) = parse_elements fuel s.
Proof.
  intros H. destruct fuel as [|fuel]; [reflexivity|].
  cbn [parse_elements]. now rewrite (parse_value_blanks fuel w s H).
Qed.

Lemma parse_members_blanks (fuel : nat) (w s : jsstring) :
  blanks w -> parse_members fuel (w ++ s) = parse_members fuel s.
Proof.
  intros H. destruct fuel as [|fuel]; [reflexivity|].
  cbn [parse_members]. now rewrite (skip_ws_blanks w s H).
Qed.

Lemma number_end_line (r : jsstring) : number_end (NL :: r).
Proof. split; reflexivity. Qed.

Lemma join_sep_cons (sep p q : jsstring) (parts : list jsstring) :
  Indented.join_sep sep (p :: q :: parts) =
  p ++ sep ++ Indented.join_sep sep (q :: parts).
Proof. reflexivity. Qed.

(** An indented text starts like the plain text. *)
Lemma ser_indented_head (indent : jsstring) (v : value) (t : jsstring) :
  Indented.ser_indented indent v = Text t -> exists c t', t = c :: t' /\ starter c.
Proof.
  destruct v as [| |b|n|n|s|items|props|m e]; intros H;
    try discriminate;
    match type of H with
    | Indented.ser_indented _ ?x = _ => try exact (ser_head x t H)
    end; simpl in H.
  - destruct (ser_elements _ items) as [parts|]; [|discriminate].
    injection H as <-. unfold starter.
    destruct parts; simpl; eexists; eexists; (split; [reflexivity|tauto]).
  - destruct (Indented.ser_fields _ props) as [parts|]; [|discriminate].
    injection H as <-. unfold starter.
    destruct parts; simpl; eexists; eexists; (split; [reflexivity|tauto]).
Qed.

(** A serializable value is not left out of its array or object. *)
Lemma ser_indented_text (indent : jsstring) (v : value) :
  json_ok v = true -> Indented.ser_indented indent v <> Omitted.
Proof.
  destruct v; simpl; intros H; try discriminate;
    match goal with
    | |- match ?x with _ => _ end <> _ => destruct x; discriminate
    end.
Qed.

Lemma elements_read_back_at (items : list value) :
  Forall reads_back_at items ->
  forall indent stepback parts, blanks indent -> blanks stepback ->
  ser_elements (Indented.ser_indented indent) items = Some parts ->
  forallb json_ok items = true -> items <> [] ->
  forall fuel w rest, blanks w ->
  (List.length (Indented.join_sep (44%N :: NL :: indent) parts) < fuel)%nat ->
  parse_elements fuel
    (w ++ Indented.join_sep (44 :: NL :: indent) parts ++
     NL :: stepback ++ 93 :: rest) = Some (items, rest).
Proof.
  induction 1 as [|v items Hv Hitems IH];
    intros indent stepback parts Hi Hs Hser Hok Hne fuel w rest Hw Hfuel;
    [congruence|].
  simpl in Hser, Hok. apply andb_true_iff in Hok as [Hokv Hoki].
  pose proof (ser_indented_text indent v Hokv) as Hnot.
  destruct (Indented.ser_indented indent v) as [t| |] eqn:Ev;
    [|congruence|discriminate].
  destruct (ser_elements (Indented.ser_indented indent) items) as [parts'|] eqn:Ei;
    [|discriminate].
  simpl in Hser. injection Hser as <-.
  rewrite (parse_elements_blanks _ _ _ Hw).
  destruct fuel as [|fuel]; [lia|]. cbn [parse_elements].
  destruct items as [|v' items].
  - simpl in Ei. injection Ei as <-. simpl Indented.join_sep in *.
    rewrite (Hv indent t Hi Ev Hokv fuel); [|lia|apply number_end_line].
    change (NL :: stepback ++ 93 :: rest) with ((NL :: stepback) ++ 93 :: rest).
    rewrite (skip_ws_blanks (NL :: stepback) (93 :: rest) (blanks_line _ Hs)).
    reflexivity.
  - destruct parts' as [|q parts'].
    { simpl in Ei. destruct (Indented.ser_indented indent v'); try discriminate;
        destruct (ser_elements _ items); discriminate. }
    rewrite join_sep_cons in *. rewrite <- !app_assoc.
    rewrite !length_app in Hfuel. cbn [List.length] in Hfuel.
    rewrite (Hv indent t Hi Ev Hokv fuel);
      [|lia|rewrite <- app_comm_cons; apply number_end_cons; auto].
    rewrite <- app_comm_cons.
    cbn [skip_ws is_json_ws N.eqb Pos.eqb orb]. cbv beta iota.
    rewrite (IH indent stepback (q :: parts') Hi Hs Ei Hoki
               ltac:(discriminate) fuel (NL :: indent) rest
               (blanks_line _ Hi) ltac:(lia)).
    reflexivity.
Qed.

#[local] Arguments quote : simpl never.

Lemma ser_fields_ok (f : value -> serialized) (props : list (jsstring * value))
  (parts : list jsstring) :
  (forall v, json_ok v = true -> f v <> Omitted) ->
  Indented.ser_fields f props = Some parts ->
  forallb (fun kv => json_ok (snd kv)) props = true ->
  props <> [] -> parts <> [].
Proof.
  intros Hf. destruct props as [|[k v] props]; [congruence|]. simpl.
  rewrite andb_true_iff. intros H [Hv _] _.
  pose proof (Hf v Hv) as Hnot.
  destruct (f v) as [t| |]; [|congruence|discriminate].
  destruct (Indented.ser_fields f props); [|discriminate].
  injection H as <-. discriminate.
Qed.

Lemma fields_read_back_at (props : list (jsstring * value)) :
  Forall (fun kv => reads_back_at (snd kv)) props ->
  forall indent stepback parts, blanks indent -> blanks stepback ->
  Indented.ser_fields (Indented.ser_indented indent) props = Some parts ->
  forallb (fun kv => json_ok (snd kv)) props = true -> props <> [] ->
  forall fuel w rest, blanks w ->
  (List.length (Indented.join_sep (44%N :: NL :: indent) parts) < fuel)%nat ->
  parse_members fuel
    (w ++ Indented.join_sep (44 :: NL :: indent) parts ++
     NL :: stepback ++ 125 :: rest) = Some (props, rest).
Proof.
  induction 1 as [|[k v] props Hv Hprops IH];
    intros indent stepback parts Hi Hs Hser Hok Hne fuel w rest Hw Hfuel;
    [congruence|].
  cbn [Indented.ser_fields forallb snd fst] in Hser, Hok, Hv.
  apply andb_true_iff in Hok as [Hokv Hoki].
  pose proof (ser_indented_text indent v Hokv) as Hnot.
  destruct (Indented.ser_indented indent v) as [t| |] eqn:Ev;
    [|congruence|discriminate].
  destruct (Indented.ser_fields (Indented.ser_indented indent) props)
    as [parts'|] eqn:Ei; [|discriminate].
  assert (E' : parts = (quote k ++ 58 :: 32 :: t) :: parts')
    by (cbn [option_map] in Hser; congruence).
  subst parts. clear Hser.
  rewrite (parse_members_blanks _ _ _ Hw).
  destruct fuel as [|fuel]; [lia|].
  destruct props as [|[k' v'] props].
  - simpl in Ei. injection Ei as <-. cbn [Indented.join_sep] in *.
    rewrite length_app, length_quote in Hfuel. cbn [List.length] in Hfuel.
    rewrite (member_text k (32 :: t)), parse_members_step.
    change ((32 :: t) ++ NL :: stepback ++ 125 :: rest)
      with ([32] ++ t ++ NL :: stepback ++ 125 :: rest).
    rewrite (parse_value_blanks fuel [32]) by (repeat constructor).
    rewrite (Hv indent t Hi Ev Hokv fuel); [|lia|apply number_end_line].
    change (NL :: stepback ++ 125 :: rest) with ((NL :: stepback) ++ 125 :: rest).
    rewrite (skip_ws_blanks (NL :: stepback) (125 :: rest) (blanks_line _ Hs)).
    reflexivity.
  - destruct parts' as [|q parts'].
    { exfalso.
      apply (ser_fields_ok _ _ _ (ser_indented_text indent) Ei Hoki);
        [discriminate|reflexivity]. }
    rewrite join_sep_cons in *. rewrite <- (app_assoc (quote k ++ 58 :: 32 :: t)).
    rewrite !length_app, length_quote in Hfuel. cbn [List.length] in Hfuel.
    rewrite (member_text k (32 :: t)), parse_members_step.
    match goal with
    | |- context [parse_value fuel ((32 :: t) ++ ?r)] =>
        change ((32 :: t) ++ r) with ([32] ++ t ++ r)
    end.
    rewrite (parse_value_blanks fuel [32]) by (repeat constructor).
    rewrite <- app_assoc, <- app_comm_cons.
    rewrite (Hv indent t Hi Ev Hokv fuel); [|lia|apply number_end_cons; auto].
    cbn [skip_ws is_json_ws N.eqb Pos.eqb orb]. cbv beta iota.
    rewrite (IH indent stepback (q :: parts') Hi Hs Ei Hoki
               ltac:(discriminate) fuel (NL :: indent) rest
               (blanks_line _ Hi) ltac:(lia)).
    reflexivity.
Qed.

Lemma block_text (opening closing : N) (stepback rest : jsstring)
  (parts : list jsstring) :
  parts <> [] ->
  Indented.block opening closing stepback parts ++ rest =
  opening :: (NL :: stepback ++ Indented.gap) ++
  Indented.join_sep (44 :: NL :: stepback ++ Indented.gap) parts ++
  NL :: stepback ++ closing :: rest.
Proof.
  destruct parts as [|p parts]; [congruence|]. intros _. unfold Indented.block.
  cbv zeta. rewrite <- !app_comm_cons. f_equal. f_equal.
  rewrite <- !app_assoc. f_equal. f_equal. rewrite <- app_comm_cons.
  f_equal. now rewrite <- app_assoc.
Qed.

Lemma block_length (opening closing : N) (stepback : jsstring)
  (parts : list jsstring) :
  (S (List.length (Indented.join_sep (44%N :: NL :: stepback ++ Indented.gap) parts))
   < List.length (Indented.block opening closing stepback parts))%nat.
Proof.
  destruct parts as [|p parts]; [simpl; lia|]. unfold Indented.block. cbv zeta.
  cbn [List.length]. rewrite !length_app. cbn [List.length]. lia.
Qed.

Lemma elements_head_at (f : value -> serialized) (sep : jsstring)
  (items : list value) (parts : list jsstring) :
  (forall v t, f v = Text t -> exists c t', t = c :: t' /\ starter c) ->
  ser_elements f items = Some parts -> items <> [] ->
  parts <> [] /\ exists c t', Indented.join_sep sep parts = c :: t' /\ starter c.
Proof.
  intros Hf. destruct items as [|v items]; [congruence|]. simpl. intros H _.
  assert (E : exists t ps, parts = t :: ps /\ exists c t', t = c :: t' /\ starter c).
  { destruct (f v) as [t| |] eqn:Ev; try discriminate;
      destruct (ser_elements f items); try discriminate;
      injection H as <-; eexists; eexists; (split; [reflexivity|]).
    - apply (Hf v t Ev).
    - exists 110. eexists. split; [reflexivity|]. unfold starter. tauto. }
  destruct E as (t & ps & -> & c & t' & -> & Hc). split; [discriminate|].
  exists c. destruct ps; simpl; eauto.
Qed.

Lemma fields_head_at (f : value -> serialized) (sep : jsstring)
  (props : list (jsstring * value)) (parts : list jsstring) :
  Indented.ser_fields f props = Some parts -> parts <> [] ->
  exists t', Indented.join_sep sep parts = 34 :: t'.
Proof.
  revert parts. induction props as [|[k v] props IH]; simpl; intros parts H Hne.
  - congruence.
  - destruct (f v) as [t| |]; try discriminate.
    + destruct (Indented.ser_fields f props); try discriminate. injection H as <-.
      unfold quote. destruct l; simpl; eauto.
    + eauto.
Qed.

(** Every serializable value is read back from its indented text, whatever
    the indentation the text starts at. *)
Lemma value_reads_back_at (v : value) : reads_back_at v.
Proof.
  induction v as [| |b|n|n|s|items IH|props IH|m e] using value_induction;
    intros indent t Hi Ht Hok fuel rest Hfuel Hrest;
    try discriminate;
    try (match type of Ht with
         | Indented.ser_indented _ ?x = _ =>
             exact (value_reads_back x t Ht Hok fuel rest Hfuel Hrest)
         end).
  - simpl in Ht, Hok.
    destruct (ser_elements _ items) as [parts|] eqn:E; [|discriminate].
    injection Ht as <-.
    destruct items as [|v items].
    + simpl in E. injection E as <-.
      destruct fuel as [|[|fuel]]; simpl in Hfuel; try lia. reflexivity.
    + destruct (elements_head_at _ (44 :: NL :: indent ++ Indented.gap) _ _
                  (ser_indented_head (indent ++ Indented.gap)) E
                  ltac:(discriminate)) as (Hne & c & t' & Ej & Hc).
      pose proof (block_length 91 93 indent parts) as Hlen.
      rewrite (block_text 91 93 indent rest parts Hne).
      destruct fuel as [|fuel]; [lia|]. rewrite parse_value_array.
      rewrite (skip_ws_blanks _ _ (blanks_line _ (blanks_gap _ Hi))).
      rewrite Ej, <- (app_comm_cons t' _ c), (skip_ws_starter _ _ Hc).
      destruct (N.eqb_spec c 93) as [->|_];
        [unfold starter, is_digit in Hc; lia|].
      rewrite (app_comm_cons t' _ c), <- Ej.
      rewrite (elements_read_back_at _ IH _ indent _ (blanks_gap _ Hi) Hi E Hok
                 ltac:(discriminate) fuel _ rest
                 (blanks_line _ (blanks_gap _ Hi)) ltac:(lia)).
      reflexivity.
  - simpl in Ht, Hok. apply andb_true_iff in Hok as [Hord Hok].
    destruct (Indented.ser_fields _ props) as [parts|] eqn:E; [|discriminate].
    injection Ht as <-.
    destruct props as [|kv props].
    + simpl in E. injection E as <-.
      destruct fuel as [|[|fuel]]; simpl in Hfuel; try lia. reflexivity.
    + pose proof (ser_fields_ok _ _ _ (ser_indented_text (indent ++ Indented.gap))
                    E Hok ltac:(discriminate)) as Hne.
      destruct (fields_head_at _ (44 :: NL :: indent ++ Indented.gap) _ _ E Hne)
        as (t' & Ej).
      pose proof (block_length 123 125 indent parts) as Hlen.
      rewrite (block_text 123 125 indent rest parts Hne).
      destruct fuel as [|fuel]; [lia|]. rewrite parse_value_object.
      rewrite (skip_ws_blanks _ _ (blanks_line _ (blanks_gap _ Hi))).
      rewrite Ej, <- (app_comm_cons t' _ 34).
      cbn [skip_ws is_json_ws N.eqb Pos.eqb orb]. cbv beta iota.
      rewrite (app_comm_cons t' _ 34), <- Ej.
      rewrite (fields_read_back_at _ IH _ indent _ (blanks_gap _ Hi) Hi E Hok
                 ltac:(discriminate) fuel _ rest
                 (blanks_line _ (blanks_gap _ Hi)) ltac:(lia)).
      now rewrite (build_ordered _ Hord).
Qed.

Lemma ser_elements_some (f : value -> serialized) (items : list value) :
  Forall (fun v => exists t, f v = Text t) items ->
  exists parts, ser_elements f items = Some parts.
Proof.
  induction 1 as [|v items [t Hv] _ [parts IH]]; simpl; [eauto|].
  rewrite Hv, IH. simpl. eauto.
Qed.

Lemma ser_fields_some (f : value -> serialized) (props : list (jsstring * value)) :
  Forall (fun kv => exists t, f (snd kv) = Text t) props ->
  exists parts, Indented.ser_fields f props = Some parts.
Proof.
  induction 1 as [|[k v] props [t Hv] _ [parts IH]]; simpl in *; [eauto|].
  rewrite Hv, IH. simpl. eauto.
Qed.

Lemma ser_indented_total (v : value) :
  json_ok v = true -> forall indent, exists t, Indented.ser_indented indent v = Text t.
Proof.
  induction v as [| |b|n|n|s|items IH|props IH|m e] using value_induction;
    simpl; intros Hok indent; try discriminate; eauto.
  - destruct (ser_elements_some (Indented.ser_indented (indent ++ Indented.gap)) items)
      as [parts ->]; eauto.
    rewrite forallb_forall in Hok. rewrite Forall_forall in *. auto.
  - apply andb_true_iff in Hok as [_ Hok].
    destruct (ser_fields_some (Indented.ser_indented (indent ++ Indented.gap)) props)
      as [parts ->]; eauto.
    rewrite forallb_forall in Hok. rewrite Forall_forall in *. auto.
Qed.

Lemma indented_reads_back (v : value) :
  json_ok v = true ->
  exists t, Indented.stringify v = Text t /\ t <> [] /\ parse t = Some v.
Proof.
  intros Hok. destruct (ser_indented_total v Hok []) as [t Ht]. exists t.
  split; [exact Ht|]. split.
  - destruct (ser_indented_head [] v t Ht) as (c & t' & -> & _). discriminate.
  - unfold parse.
    pose proof (value_reads_back_at v [] t (Forall_nil _) Ht Hok
                  (S (List.length t)) [] ltac:(lia) number_end_nil) as H.
    rewrite app_nil_r in H. rewrite H. reflexivity.
Qed.

(** The text [JSON.stringify(v, null, 2)] gives for a serializable value
    is not empty, and [JSON.parse] reads the value back from it: the line
    breaks and the indentation change nothing. *)
Theorem indented_text_reads_back (v : value) :
  json_ok v = true ->
  exists t, Indented.stringify v = Text t /\ t <> [] /\ parse t = Some v.
Proof. exact (indented_reads_back v). Qed.

Lemma indented_text_reads_back_witness :
  parse
    (lit "{" ++ NL :: lit "  " ++ 34 :: lit "success" ++ 34 :: lit ": true" ++
     NL :: lit "}") =
  Some (Obj [(lit "success", Bool true)]).
Proof.
  destruct (indented_text_reads_back (Obj [(lit "success", Bool true)]) eq_refl)
    as (t & Ht & _ & Hp).
  injection Ht as <-. exact Hp.
Defined.

(** * A request and its response, for any method and any outcome *)







(** * The tools of the stdio server, end to end *)




(** * The stdio server and its one client *)

Lemma resume_all_client (calls : list (jsstring * value)) (p : StdioServer.process)
  (acc : list StdioServer.progress) :
  StdioServer.ipcClient p <> None ->
  let p' := fst (StdioServer.resume_all calls p acc) in
  StdioServer.ipcClient p' <> None /\
  StdioServer.constructed p' = StdioServer.constructed p /\
  StdioServer.connects p' = StdioServer.connects p.
Proof.
  revert p acc. induction calls as [|[m params] calls IH]; intros p acc Hp; simpl.
  - auto.
  - unfold StdioServer.resume.
    destruct (StdioServer.ipcClient p) as [c|] eqn:E; [|congruence].
    destruct (IPCClient.request c m params) as [c' r].
    destruct (IH (StdioServer.set_client p c') (acc ++ [StdioServer.Requested r]))
      as (H1 & H2 & H3); [discriminate|]. auto.
Qed.

(** Whatever the tools call and whatever happens to the socket, the stdio
    server makes at most one [IPCClient] and calls [connect()] at most
    once: the client it has made is the client of every later call, and
    at most one call ever waits for the connection. *)
Theorem stdio_server_connects_once
  (hook : option jsstring) (es : list StdioServer.event) (s : StdioServer.run_state) :
  StdioServer.run hook StdioServer.boot es = Some s ->
  (StdioServer.constructed (StdioServer.proc s) <= 1)%nat /\
  StdioServer.connects (StdioServer.proc s) =
    StdioServer.constructed (StdioServer.proc s) /\
  (StdioServer.ipcClient (StdioServer.proc s) = None <->
   StdioServer.constructed (StdioServer.proc s) = 0%nat) /\
  (List.length (StdioServer.waiting s) <= 1)%nat.
Proof.
  set (inv := fun s : StdioServer.run_state =>
    match StdioServer.ipcClient (StdioServer.proc s) with
    | None => StdioServer.constructed (StdioServer.proc s) = 0%nat /\
              StdioServer.connects (StdioServer.proc s) = 0%nat /\
              StdioServer.waiting s = []
    | Some _ => StdioServer.constructed (StdioServer.proc s) = 1%nat /\
                StdioServer.connects (StdioServer.proc s) = 1%nat /\
                (List.length (StdioServer.waiting s) <= 1)%nat
    end).
  assert (Hstep : forall s e s', inv s -> StdioServer.step hook s e = Some s' -> inv s').
  { intros s0 e s' Hinv Hs. unfold inv in *. destruct e as [m params|ev]; simpl in Hs.
    - unfold StdioServer.callVSCode in Hs.
      destruct (StdioServer.ipcClient (StdioServer.proc s0)) as [c|] eqn:E.
      + destruct (IPCClient.request c m params) as [c' r].
        injection Hs as <-. simpl. exact Hinv.
      + destruct Hinv as (H1 & H2 & H3).
        destruct hook as [[|h hook]|]; injection Hs as <-; simpl;
          rewrite ?E, ?H1, ?H2, ?H3; auto.
    - destruct (StdioServer.ipcClient (StdioServer.proc s0)) as [c|] eqn:E;
        [|discriminate].
      destruct (StdioServer.socket_event ev); [|discriminate].
      destruct (IPCClient.step c ev) as [c'|]; [|discriminate].
      destruct Hinv as (H1 & H2 & H3).
      destruct ev; try (injection Hs as <-; simpl; auto; fail).
      destruct (StdioServer.resume_all _ _ _) as [p'' rs] eqn:Er.
        injection Hs as <-. simpl.
        pose proof (resume_all_client (StdioServer.waiting s0)
                      (StdioServer.set_client (StdioServer.proc s0) c')
                      (StdioServer.results s0) ltac:(discriminate)) as Hr.
        rewrite Er in Hr. simpl in Hr. destruct Hr as (Hc & Hn & Hk).
        destruct (StdioServer.ipcClient p''); [|congruence].
        rewrite Hn, Hk. simpl. auto. }
  assert (Hrun : forall s0, inv s0 -> StdioServer.run hook s0 es = Some s -> inv s).
  { induction es as [|e es IH]; intros s0 H0 Hr; simpl in Hr.
    - now injection Hr as <-.
    - destruct (StdioServer.step hook s0 e) as [s1|] eqn:E; [|discriminate].
      apply (IH s1); [now apply (Hstep s0 e)|exact Hr]. }
  intros Hr. pose proof (Hrun StdioServer.boot (conj eq_refl (conj eq_refl eq_refl)) Hr)
    as H.
  unfold inv in H.
  destruct (StdioServer.ipcClient (StdioServer.proc s)) as [c|];
    destruct H as (H1 & H2 & H3); rewrite H1, H2.
  - repeat split; first [lia | discriminate | assumption].
  - rewrite H3. repeat split; simpl; auto.
Qed.

Lemma stdio_server_connects_once_witness :
  (StdioServer.constructed
     (StdioServer.proc
        (match
           StdioServer.run (Some (lit "/tmp/vscode-api-mcp.sock")) StdioServer.boot
             [StdioServer.Call (lit "readFile") (Obj []);
              StdioServer.Socket (IPCClient.Failed (JsError (lit "ENOENT")));
              StdioServer.Call (lit "readFile") (Obj [])]
         with
         | Some s => s
         | None => StdioServer.boot
         end)) <= 1)%nat.
Proof.
  exact (proj1 (stdio_server_connects_once (Some (lit "/tmp/vscode-api-mcp.sock"))
                  [StdioServer.Call (lit "readFile") (Obj []);
                   StdioServer.Socket (IPCClient.Failed (JsError (lit "ENOENT")));
                   StdioServer.Call (lit "readFile") (Obj [])] _ eq_refl)).
Defined.

Lemma request_when_closed (c : IPCClient.client) (m : jsstring) (params : value) :
  IPCClient.socket c = true -> IPCClient.link c = IPCClient.Closed ->
  exists c',
    IPCClient.request c m params = (c', inr (IPCClient.promises c)) /\
    IPCClient.socket c' = true /\ IPCClient.link c' = IPCClient.Closed /\
    IPCClient.sent c' = IPCClient.sent c /\
    IPCClient.promises c' = S (IPCClient.promises c) /\
    (IPCClient.settled c' = IPCClient.settled c \/ ser params = Raised).
Proof.
  intros Hs Hl. unfold IPCClient.request. rewrite Hs. simpl negb. cbv iota.
  destruct (frame _) as [text|] eqn:E.
  - eexists. split; [reflexivity|]. unfold IPCClient.socket_write. simpl.
    rewrite Hl. simpl. auto 10.
  - eexists. split; [reflexivity|]. simpl. repeat split; auto.
    right. destruct (ser params) eqn:Ep; [| |reflexivity]; exfalso;
      apply (request_of_frame (N_text (IPCClient.requestId c + 1)) m params);
      try (rewrite Ep; discriminate); exact E.
Qed.

(** Once the socket of its client has closed, the stdio server never
    connects again: the socket emits nothing more, every later tool call
    still gets a promise from [request], nothing is sent for it, and no
    promise is settled from then on. *)
Theorem lost_connection_is_never_replaced
  (hook : option jsstring) (es : list StdioServer.event)
  (s s' : StdioServer.run_state) (c : IPCClient.client) :
  StdioServer.ipcClient (StdioServer.proc s) = Some c ->
  IPCClient.socket c = true -> IPCClient.link c = IPCClient.Closed ->
  Forall (fun e => match e with
                   | StdioServer.Call _ params => ser params <> Raised
                   | _ => True
                   end) es ->
  StdioServer.run hook s es = Some s' ->
  exists c',
    StdioServer.ipcClient (StdioServer.proc s') = Some c' /\
    IPCClient.link c' = IPCClient.Closed /\
    IPCClient.sent c' = IPCClient.sent c /\
    IPCClient.settled c' = IPCClient.settled c /\
    StdioServer.results s' =
      StdioServer.results s ++
      map (fun k => StdioServer.Requested (inr k))
        (seq (IPCClient.promises c) (List.length es)) /\
    StdioServer.connects (StdioServer.proc s') =
      StdioServer.connects (StdioServer.proc s).
Proof.
  revert s c. induction es as [|e es IH]; intros s c Hc Hs Hl Hok Hrun;
    simpl in Hrun.
  - injection Hrun as <-. exists c. simpl. rewrite app_nil_r. auto 10.
  - destruct (StdioServer.step hook s e) as [s1|] eqn:E; [|discriminate].
    inversion Hok as [|? ? He Hes]; subst.
    destruct e as [m params|ev]; simpl in E.
    + unfold StdioServer.callVSCode in E. rewrite Hc in E.
      destruct (request_when_closed c m params Hs Hl)
        as (c1 & Hreq & Hs1 & Hl1 & Hsent & Hp & Hset).
      destruct Hset as [Hset|Hr]; [|contradiction].
      rewrite Hreq in E. injection E as <-.
      eapply (IH _ c1) in Hrun; [|reflexivity|exact Hs1|exact Hl1|exact Hes].
      destruct Hrun as (c' & H1 & H2 & H3 & H4 & H5 & H6).
      exists c'. simpl in *. rewrite H3, H4, H5, H6, Hsent, Hset, Hp.
      rewrite <- app_assoc. auto 10.
    + rewrite Hc in E. destruct (StdioServer.socket_event ev) eqn:Ev; [|discriminate].
      destruct ev; simpl in Ev; try discriminate; simpl in E; rewrite Hl in E;
        discriminate.
Qed.

Lemma lost_connection_is_never_replaced_witness :
  let c := IPCClient.on_close (IPCClient.connect IPCClient.create) in
  let s := {| StdioServer.proc :=
                {| StdioServer.ipcClient := Some c;
                   StdioServer.constructed := 1; StdioServer.connects := 1 |};
              StdioServer.waiting := []; StdioServer.results := [] |} in
  exists s',
    StdioServer.run None s [StdioServer.Call (lit "readFile") (Obj [])] = Some s' /\
    StdioServer.results s' = [StdioServer.Requested (inr 0%nat)].
Proof.
  intros c s. eexists. split; [reflexivity|].
  destruct (lost_connection_is_never_replaced None
              [StdioServer.Call (lit "readFile") (Obj [])] s _ c
              eq_refl eq_refl eq_refl
              ltac:(repeat constructor; discriminate) eq_refl)
    as (c' & _ & _ & _ & _ & H & _).
  exact H.
Defined.

(** * The hook the extension hands to the stdio server *)

(** When the provider of the extension is asked while no IPC server is
    set, it hands the stdio server an empty [VSCODE_IPC_HOOK]; with an empty
    or an absent hook every tool call is rejected with the Error about the
    hook, whatever the tool and its arguments, and no client is made: each
    tool returns its failure with that message. *)
Theorem tool_call_without_hook
  (st : Extension.state) (hook : option jsstring)
  (calls : list (Tools.tool * value)) :
  hook = None \/ (hook = Some (provided_hook st) /\ Extension.ipcServer st = None) ->
  let events :=
    map (fun ta => StdioServer.Call (Tools.method (fst ta))
                     (Tools.params_of (fst ta) (snd ta))) calls in
  StdioServer.run hook StdioServer.boot events =
    Some {| StdioServer.proc := StdioServer.start; StdioServer.waiting := [];
            StdioServer.results :=
              map (fun _ => StdioServer.Threw StdioServer.hook_missing) calls |} /\
  Forall (fun ta =>
            Tools.tool_handler (fst ta) (snd ta)
              (Rejected StdioServer.hook_missing) =
            Tools.failed
              (Tools.prefix (fst ta) ++
               lit "VSCODE_IPC_HOOK environment variable not set. Is the VS Code extension running?"))
    calls.
Proof.
  intros Hh events. split.
  - assert (Hcall : forall p m params,
              StdioServer.ipcClient p = None ->
              StdioServer.callVSCode hook p m params =
                (p, StdioServer.Threw StdioServer.hook_missing)).
    { intros p m params Hp. unfold StdioServer.callVSCode. rewrite Hp.
      destruct Hh as [->|[-> Hn]]; [reflexivity|].
      unfold provided_hook. now rewrite Hn. }
    subst events.
    assert (H : forall acc,
              StdioServer.run hook
                {| StdioServer.proc := StdioServer.start; StdioServer.waiting := [];
                   StdioServer.results := acc |}
                (map (fun ta => StdioServer.Call (Tools.method (fst ta))
                                  (Tools.params_of (fst ta) (snd ta))) calls) =
              Some {| StdioServer.proc := StdioServer.start;
                      StdioServer.waiting := [];
                      StdioServer.results :=
                        acc ++ map (fun _ => StdioServer.Threw StdioServer.hook_missing)
                                 calls |}).
    { induction calls as [|ta calls IH]; intros acc; simpl.
      - now rewrite app_nil_r.
      - rewrite (Hcall StdioServer.start _ _ eq_refl). simpl.
        rewrite IH, <- app_assoc. reflexivity. }
    apply (H []).
  - apply Forall_forall. intros ta _. reflexivity.
Qed.

Lemma tool_call_without_hook_witness :
  StdioServer.results
    (match
       StdioServer.run (Some (provided_hook Extension.initial)) StdioServer.boot
         [StdioServer.Call (lit "readFile")
            (Tools.params_of Tools.readFile (Obj [(lit "path", Str (lit "a.txt"))]))]
     with
     | Some s => s
     | None => StdioServer.boot
     end) = [StdioServer.Threw StdioServer.hook_missing].
Proof.
  destruct (tool_call_without_hook Extension.initial
              (Some (provided_hook Extension.initial))
              [(Tools.readFile, Obj [(lit "path", Str (lit "a.txt"))])]
              (or_intror (conj eq_refl eq_refl))) as [H _].
  simpl map in H.
  change (Tools.method Tools.readFile) with (lit "readFile") in H.
  rewrite H. reflexivity.
Defined.

(** * The commands of the extension *)

Lemma log_servers (cfg : Extension.settings) (st : Extension.state)
  (message level : jsstring) :
  Extension.ipcServer (Extension.log cfg st message level) = Extension.ipcServer st /\
  Extension.httpMcpServer (Extension.log cfg st message level) =
    Extension.httpMcpServer st /\
  Extension.constructed (Extension.log cfg st message level) =
    Extension.constructed st.
Proof. unfold Extension.log. destruct (_ <=? _)%Z; auto. Qed.

Lemma startIPCServer_sets (h : Extension.host) (cfg : Extension.settings)
  (listen : option thrown) (st : Extension.state) :
  let st' := fst (Extension.startIPCServer h cfg listen st) in
  Extension.ipcServer st' <> None /\
  Extension.httpMcpServer st' = Extension.httpMcpServer st /\
  (Extension.ipcServer st <> None ->
   Extension.ipcServer st' = Extension.ipcServer st /\
   Extension.constructed st' = Extension.constructed st /\
   snd (Extension.startIPCServer h cfg listen st) = None) /\
  (Extension.ipcServer st = None ->
   Extension.constructed st' = S (Extension.constructed st) /\
   snd (Extension.startIPCServer h cfg listen st) = listen).
Proof.
  unfold Extension.startIPCServer.
  destruct (Extension.ipcServer st) as [srv|] eqn:E; simpl.
  - destruct (log_servers cfg st (lit "IPC server already running") (lit "info"))
      as (H1 & H2 & H3).
    rewrite H1, H2, H3, E. repeat split; try congruence; discriminate.
  - destruct listen as [err|]; simpl.
    + repeat split; try congruence; discriminate.
    + match goal with
      | |- context [Extension.log cfg ?s ?m ?l] =>
          destruct (log_servers cfg s m l) as (H1 & H2 & H3)
      end.
      rewrite H1, H2, H3. simpl. repeat split; try congruence; discriminate.
Qed.

Lemma startHttpServer_sets (cfg : Extension.settings)
  (listen : option thrown) (st : Extension.state) :
  let st' := fst (Extension.startHttpServer cfg listen st) in
  Extension.httpMcpServer st' <> None /\
  Extension.ipcServer st' = Extension.ipcServer st /\
  (Extension.httpMcpServer st <> None ->
   Extension.httpMcpServer st' = Extension.httpMcpServer st /\
   Extension.constructed st' = Extension.constructed st /\
   snd (Extension.startHttpServer cfg listen st) = None) /\
  (Extension.httpMcpServer st = None ->
   Extension.constructed st' = S (Extension.constructed st) /\
   snd (Extension.startHttpServer cfg listen st) = listen).
Proof.
  unfold Extension.startHttpServer.
  destruct (Extension.httpMcpServer st) as [srv|] eqn:E; simpl.
  - destruct (log_servers cfg st (lit "HTTP MCP server already running") (lit "info"))
      as (H1 & H2 & H3).
    rewrite H1, H2, H3, E. repeat split; try congruence; discriminate.
  - destruct listen as [err|]; simpl.
    + repeat split; try congruence; discriminate.
    + match goal with
      | |- context [Extension.log cfg ?s ?m ?l] =>
          destruct (log_servers cfg s m l) as (H1 & H2 & H3)
      end.
      rewrite H1, H2, H3. simpl. repeat split; try congruence; discriminate.
Qed.

Lemma stop_clears (cfg : Extension.settings) (st : Extension.state) :
  Extension.ipcServer (Extension.stopIPCServer cfg st) = None /\
  Extension.httpMcpServer (Extension.stopIPCServer cfg st) =
    Extension.httpMcpServer st /\
  Extension.httpMcpServer (Extension.stopHttpServer cfg st) = None /\
  Extension.ipcServer (Extension.stopHttpServer cfg st) = Extension.ipcServer st.
Proof.
  unfold Extension.stopIPCServer, Extension.stopHttpServer.
  destruct (Extension.ipcServer st) eqn:E1, (Extension.httpMcpServer st) eqn:E2;
    repeat match goal with
           | |- context [Extension.log cfg ?s ?m ?l] =>
               let H1 := fresh in let H2 := fresh in let H3 := fresh in
               destruct (log_servers cfg s m l) as (H1 & H2 & H3);
               rewrite ?H1, ?H2; clear H1 H2 H3
           end; simpl; auto.
Qed.

(** A server that fails to listen stays in its variable.  After a start
    command whose IPC server could not listen, the status reports the IPC
    server as running at its path, a second start command makes no new IPC
    server and does not try to listen again, whatever the endpoint would
    answer now; the stop command clears both variables, and the status
    then reports that nothing runs. *)
Theorem failed_start_is_not_retried
  (h : Extension.host) (cfg : Extension.settings) (st : Extension.state)
  (err : thrown) (listen_http listen_ipc' listen_http' : option thrown) :
  Extension.ipcServer st = None ->
  let st1 := fst (Commands.startServer h cfg (Some err) listen_http st) in
  let st2 := fst (Commands.startServer h cfg listen_ipc' listen_http' st1) in
  let st3 := fst (Commands.stopServer cfg st2) in
  snd (Commands.startServer h cfg (Some err) listen_http st) =
    Commands.ErrorMessage (lit "Failed to start server: " ++ Commands.error_text err) /\
  (exists srv,
     Extension.ipcServer st1 = Some srv /\
     Extension.ipcServer st2 = Some srv /\
     exists rest,
       Commands.showStatus st1 =
         Commands.Information
           (lit "MCP servers running - IPC: " ++ Extension.ipc_path srv ++ rest)) /\
  Extension.constructed st1 = S (Extension.constructed st) /\
  (Extension.constructed st2 <= S (Extension.constructed st1))%nat /\
  Extension.ipcServer st3 = None /\ Extension.httpMcpServer st3 = None /\
  Commands.showStatus st3 = Commands.Information (lit "MCP servers are not running").
Proof.
  intros Hnone st1 st2 st3.
  destruct (startIPCServer_sets h cfg (Some err) st) as (Ha & Hb & _ & Hd).
  destruct (Hd Hnone) as [Hc Hr].
  assert (E1 : Commands.startServer h cfg (Some err) listen_http st =
               (fst (Extension.startIPCServer h cfg (Some err) st),
                Commands.ErrorMessage
                  (lit "Failed to start server: " ++ Commands.error_text err))).
  { unfold Commands.startServer.
    destruct (Extension.startIPCServer h cfg (Some err) st) as [s r].
    simpl in Hr. now rewrite Hr. }
  assert (Es1 : st1 = fst (Extension.startIPCServer h cfg (Some err) st))
    by (subst st1; now rewrite E1).
  destruct (Extension.ipcServer st1) as [srv|] eqn:Esrv;
    [|rewrite Es1 in Esrv; contradiction].
  destruct (startIPCServer_sets h cfg listen_ipc' st1) as (_ & Hb2 & Hk & _).
  destruct Hk as (Hk1 & Hk2 & Hk3); [congruence|].
  assert (E2 : Extension.ipcServer st2 = Some srv /\
               (Extension.constructed st2 <= S (Extension.constructed st1))%nat).
  { subst st2. unfold Commands.startServer.
    destruct (Extension.startIPCServer h cfg listen_ipc' st1) as [s r].
    simpl in Hk1, Hk2, Hk3, Hb2. subst r.
    destruct (startHttpServer_sets cfg listen_http' s) as (_ & Hi & Hrun & Hnew).
    destruct (Extension.startHttpServer cfg listen_http' s) as [s2 r2].
    simpl in Hi, Hrun, Hnew.
    assert (Hs2 : Extension.ipcServer s2 = Some srv) by congruence.
    assert (Hn : (Extension.constructed s2 <= S (Extension.constructed st1))%nat).
    { destruct (Extension.httpMcpServer s) eqn:Eh.
      - destruct Hrun as (_ & Hcount & _); [discriminate|]. lia.
      - destruct (Hnew eq_refl) as [Hcount _]. lia. }
    destruct r2; simpl; auto. }
  destruct E2 as [E2 E3].
  destruct (stop_clears cfg st2) as (S1 & S2 & _).
  destruct (stop_clears cfg (Extension.stopIPCServer cfg st2)) as (_ & _ & S3 & S4).
  assert (E3a : Extension.ipcServer st3 = None)
    by (subst st3; simpl; now rewrite S4).
  assert (E3b : Extension.httpMcpServer st3 = None) by (subst st3; exact S3).
  repeat split.
  - now rewrite E1.
  - exists srv. split; [reflexivity|]. split; [exact E2|].
    unfold Commands.showStatus. rewrite Esrv.
    destruct (Extension.httpMcpServer st1) as [hs|].
    + exists (lit ", " ++ lit "HTTP: " ++ Extension.http_url (Extension.http_port hs)).
      reflexivity.
    + exists []. simpl. rewrite app_nil_r. reflexivity.
  - rewrite Es1. exact Hc.
  - exact E3.
  - exact E3a.
  - exact E3b.
  - unfold Commands.showStatus. now rewrite E3a, E3b.
Qed.

Lemma failed_start_is_not_retried_witness :
  let h := {| Extension.win32 := false; Extension.tmpdir := lit "/tmp" |} in
  let cfg := {| Extension.logLevel := lit "info"; Extension.socketPath := [];
                Extension.httpPort := 6010 |} in
  let st1 := fst (Commands.startServer h cfg (Some (JsError (lit "EADDRINUSE"))) None
                    Extension.initial) in
  Commands.showStatus
    (fst (Commands.stopServer cfg
            (fst (Commands.startServer h cfg None None st1)))) =
  Commands.Information (lit "MCP servers are not running").
Proof.
  intros h cfg st1.
  exact (proj2 (proj2 (proj2 (proj2 (proj2 (proj2
           (failed_start_is_not_retried h cfg Extension.initial
              (JsError (lit "EADDRINUSE")) None None None eq_refl))))))).
Defined.



(** * Cases of the handler and the tools that call them *)

(** What ['writeFile'] encodes, ['readFile'] decodes back to the content:
    a content whose surrogates are paired comes back as it was, except
    that a U+FEFF at its start is dropped. *)
Theorem written_content_reads_back (content : jsstring) :
  well_formed content = true ->
  Cases.TextDecoder_decode (Cases.TextEncoder_encode (Str content)) =
  without_mark content /\
  (forall c text, content = c :: text -> c <> 65279 ->
     Cases.TextDecoder_decode (Cases.TextEncoder_encode (Str content)) = content).
Proof.
  intros H.
  assert (E : Cases.TextDecoder_decode (Cases.TextEncoder_encode (Str content)) =
              without_mark content).
  { unfold Cases.TextDecoder_decode, Cases.TextEncoder_encode, without_mark.
    cbn [ToString]. rewrite (toString_encode content H).
    destruct content as [|c text]; [reflexivity|]. now destruct (c =? 65279). }
  split; [exact E|]. intros c text -> Hc. rewrite E. simpl.
  destruct (N.eqb_spec c 65279); [contradiction|reflexivity].
Qed.

Lemma written_content_reads_back_witness :
  Cases.TextDecoder_decode
    (Cases.TextEncoder_encode (Str (65279 :: 233 :: lit "t" ++ [55357; 56832]))) =
  233 :: lit "t" ++ [55357; 56832].
Proof.
  exact (proj1 (written_content_reads_back
                  (65279 :: 233 :: lit "t" ++ [55357; 56832]) eq_refl)).
Defined.

Lemma small_safe (n : N) : small n -> safe_integer (Z.of_N n) = true.
Proof.
  unfold small, safe_integer. intros H. apply Z.ltb_lt.
  rewrite Z.abs_eq by lia.
  change (2 ^ 53)%Z with (Z.of_N (2 ^ 53)). lia.
Qed.

Lemma editor_info_ok (e : Cases.editor) :
  editor_small e -> json_ok (Cases.getActiveEditor (Some e)) = true.
Proof.
  intros (H1 & H2 & H3 & H4 & H5).
  cbn [Cases.getActiveEditor Cases.position_value json_ok forallb snd map fst].
  rewrite !small_safe by assumption. reflexivity.
Qed.

(** The tool [vscode_getActiveEditor] answers "No active editor" when
    and only when the handler found no active editor; for an editor it
    answers the indented JSON text of the file path, the language, the
    selection, the selected text and the line count, which [JSON.parse]
    reads back.  What the handler returns can cross the bridge as it
    is. *)
Theorem active_editor_is_reported (args : value) (active : option Cases.editor) :
  (forall e, active = Some e -> editor_small e) ->
  let result := Cases.getActiveEditor active in
  json_ok result = true /\
  match active with
  | None =>
      Tools.tool_handler Tools.getActiveEditor args (Resolved result) =
      Tools.content (Str (lit "No active editor"))
  | Some e =>
      exists text,
        Tools.tool_handler Tools.getActiveEditor args (Resolved result) =
          Tools.content (Str text) /\
        parse text = Some result /\
        text <> lit "No active editor"
  end.
Proof.
  intros Hsmall result. destruct active as [e|]; [|split; reflexivity].
  pose proof (editor_info_ok e (Hsmall e eq_refl)) as Hok. split; [exact Hok|].
  destruct (indented_reads_back result Hok) as (t & Ht & Hne & Hp).
  exists t. split; [|split; [exact Hp|]].
  - unfold Tools.tool_handler, Tools.render_text, Tools.json_text.
    cbn [Tools.render Tools.getActiveEditor].
    change (truthy result) with true. cbv iota. now rewrite Ht.
  - intros ->. vm_compute in Hp. discriminate.
Qed.

Lemma active_editor_is_reported_witness :
  let e := {| Cases.fsPath := lit "/w/a.ts"; Cases.languageId := lit "typescript";
              Cases.selection_start := {| Cases.line := 3; Cases.character := 0 |};
              Cases.selection_end := {| Cases.line := 3; Cases.character := 7 |};
              Cases.selectedText := lit "import "; Cases.lineCount := 120 |} in
  exists text,
    Tools.tool_handler Tools.getActiveEditor (Obj [])
      (Resolved (Cases.getActiveEditor (Some e))) = Tools.content (Str text) /\
    parse text = Some (Cases.getActiveEditor (Some e)) /\
    text <> lit "No active editor".
Proof.
  intros e.
  refine (proj2 (active_editor_is_reported (Obj []) (Some e) _)).
  intros e' H. injection H as <-. repeat split; reflexivity.
Defined.

(** The tool [vscode_showMessage] reports the item the user chose, and
    "Message shown" when the user chose none or chose an item that is the
    empty string; it makes the same of the handler's result before and
    after the bridge, where a [selectedItem] that is [undefined] is left
    out. *)
Theorem chosen_item_is_reported (args : value) (chosen : option jsstring) :
  let result := Cases.showMessage chosen in
  let text :=
    match chosen with
    | Some (c :: item) => lit "User selected: " ++ c :: item
    | _ => lit "Message shown"
    end in
  Tools.tool_handler Tools.showMessage args (Resolved result) =
    Tools.content (Str text) /\
  Tools.tool_handler Tools.showMessage args (Resolved (prune result)) =
    Tools.content (Str text) /\
  json_ok (prune result) = true.
Proof.
  intros result text. subst result text.
  destruct chosen as [[|c item]|]; repeat split.
Qed.

(** * The log *)

Lemma indexOf_bound (x : jsstring) (a : list jsstring) :
  (-1 <= Extension.indexOf x a < Z.of_nat (List.length a))%Z.
Proof.
  induction a as [|y a IH]; simpl Extension.indexOf; [simpl; lia|].
  destruct (str_eqb x y); [simpl List.length; lia|].
  destruct (Z.ltb_spec (Extension.indexOf x a) 0); simpl List.length; lia.
Qed.

(** A message of level "error" is written to the output channel whatever
    the [logLevel] setting is; with a setting that is none of the four
    levels, every message is written; and a message that is written at a
    level is written at every higher level too. *)
Theorem errors_are_always_logged
  (cfg : Extension.settings) (st : Extension.state) (message : jsstring) :
  Extension.outputChannel (Extension.log cfg st message (lit "error")) =
    Extension.outputChannel st ++ [lit "[ERROR] " ++ message] /\
  (In (Extension.logLevel cfg) Extension.levels \/
   forall level,
     Extension.outputChannel (Extension.log cfg st message level) =
       Extension.outputChannel st ++
       [91 :: Extension.toUpperCase level ++ 93 :: 32 :: message]) /\
  (forall level level',
     (Extension.indexOf level Extension.levels <=
      Extension.indexOf level' Extension.levels)%Z ->
     Extension.log cfg st message level <> st ->
     Extension.log cfg st message level' <> st).
Proof.
  pose proof (indexOf_bound (Extension.logLevel cfg) Extension.levels) as Hb.
  simpl List.length in Hb. split; [|split].
  - unfold Extension.log.
    change (Extension.indexOf (lit "error") Extension.levels) with 3%Z.
    destruct (Z.leb_spec (Extension.indexOf (Extension.logLevel cfg)
                            Extension.levels) 3); [reflexivity|lia].
  - assert (Hin : forall x a, Extension.indexOf x a = (-1)%Z \/ In x a).
    { intros x a. induction a as [|y a IH]; simpl; [auto|].
      destruct (str_eqb x y) eqn:E.
      - apply str_eqb_eq in E. auto.
      - destruct IH as [IH|IH]; [|auto]. left. now rewrite IH. }
    destruct (Hin (Extension.logLevel cfg) Extension.levels) as [H|H]; [|auto].
    right. intros level. unfold Extension.log. rewrite H.
    pose proof (indexOf_bound level Extension.levels) as Hl.
    destruct (Z.leb_spec (-1) (Extension.indexOf level Extension.levels));
      [reflexivity|lia].
  - intros level level' Hle. unfold Extension.log.
    destruct (Z.leb_spec (Extension.indexOf (Extension.logLevel cfg)
                            Extension.levels)
                (Extension.indexOf level Extension.levels)); [|congruence].
    intros _.
    destruct (Z.leb_spec (Extension.indexOf (Extension.logLevel cfg)
                            Extension.levels)
                (Extension.indexOf level' Extension.levels)); [|lia].
    intros E. apply (f_equal Extension.outputChannel) in E. simpl in E.
    apply (f_equal (@List.length jsstring)) in E. rewrite length_app in E.
    simpl in E. lia.
Qed.

(** * The tools and the methods of the handler *)

(** Every tool of either server calls a method that [handleVSCodeRequest]
    has a case for, so no tool is answered "Unknown method"; every
    method of the handler has a tool of the HTTP server; and every tool of
    the stdio server is a tool of the HTTP server, which has one more:
    the stdio server has no tool for the method "setSelection". *)
Theorem every_tool_has_its_case
  (vscode : jsstring -> value -> outcome) (cfg : Extension.settings)
  (st : Extension.state) (t : Tools.tool) (args : value) :
  In t Tools.http_tools ->
  snd (Extension.handleVSCodeRequest vscode cfg st (Str (Tools.method t))
         (Tools.params_of t args)) =
    vscode (Tools.method t) (Tools.params_of t args) /\
  map Tools.method Tools.http_tools = Extension.catalog /\
  incl Tools.stdio_tools Tools.http_tools /\
  ~ In (lit "setSelection") (map Tools.method Tools.stdio_tools).
Proof.
  intros Hin. split; [|split; [reflexivity|split]].
  - assert (Hc : Extension.in_catalog (Tools.method t) = true).
    { simpl in Hin.
      repeat (destruct Hin as [<-|Hin]; [reflexivity|]). destruct Hin. }
    unfold Extension.handleVSCodeRequest. simpl. now rewrite Hc.
  - intros x Hx. simpl in Hx. simpl.
    repeat (destruct Hx as [<-|Hx]; [tauto|]). destruct Hx.
  - simpl. intros H.
    repeat (destruct H as [H|H]; [discriminate H|]). exact H.
Qed.

Lemma every_tool_has_its_case_witness :
  snd (Extension.handleVSCodeRequest (fun _ _ => Resolved Null)
         {| Extension.logLevel := lit "info"; Extension.socketPath := [];
            Extension.httpPort := 6010 |}
         Extension.initial (Str (lit "setSelection"))
         (Tools.params_of Tools.setSelection (Obj [(lit "startLine", Num 3)]))) =
  Resolved Null.
Proof.
  refine (proj1 (every_tool_has_its_case (fun _ _ => Resolved Null) _
                   Extension.initial Tools.setSelection
                   (Obj [(lit "startLine", Num 3)]) _)).
  simpl. tauto.
Defined.

(** * Requests without a method *)



